(** * RELIC low-level kernels: Comba squaring, extension-field Karatsuba
    multiplication and the x86 leading-zero-count dispatch.

    The development embeds
    - [src/low/easy/relic_bn_sqr_low.c]  (module [BnSqr]),
    - [src/low/easy/relic_pp_mul_low.c]  (module [PpMul]),
    - the x86 architecture file          (module [Arch]),
    and states the properties of the specification over these embeddings. *)

From Stdlib Require Import ZArith List Lia Bool Arith Zdiv.
Import ListNotations.

Local Open Scope Z_scope.

(* ================================================================== *)
(** ** Digits: [dig_t] as an integer with its wrap-around written out *)
(* ================================================================== *)

Module Dig.

(** The radix [2^w] of a [w]-bit digit. *)
Definition radix (w : Z) : Z := 2 ^ w.

(** [dig_t] addition: the sum is truncated to [w] bits. *)
Definition wadd (w x y : Z) : Z := (x + y) mod radix w.

(** A C comparison [x < y] used as a digit: 1 when it holds, 0 otherwise. *)
Definition ltw (x y : Z) : Z := if x <? y then 1 else 0.

(** A C logical or of two 0/1 flags. *)
Definition lor (x y : Z) : Z := if (x =? 0) && (y =? 0) then 0 else 1.

(** A digit is in range. *)
Definition is_dig (w x : Z) : Prop := 0 <= x < radix w.

(** Little-endian value of a digit sequence. *)
Fixpoint value (w : Z) (ds : list Z) : Z :=
  match ds with
  | [] => 0
  | d :: ds' => d + radix w * value w ds'
  end.

(** Array update [c[i] = v]; an index past the end leaves the list as it is
    (the callers below never write out of range). *)
Fixpoint set_nth (i : nat) (v : Z) (c : list Z) : list Z :=
  match c, i with
  | [], _ => []
  | _ :: c', O => v :: c'
  | d :: c', S i' => d :: set_nth i' v c'
  end.

End Dig.

(* ================================================================== *)
(** ** relic_bn_sqr_low.c                                             *)
(* ================================================================== *)

Module BnSqr.
Import Dig.

(** Modelled from the spec: the macro [RLC_MUL_DIG(H, L, A, B)] is declared
    outside the embedded files; it is the single-digit multiplication
    producing a double-width result, returned here as [(H, L)]. *)
Definition RLC_MUL_DIG (w a b : Z) : Z * Z :=
  ((a * b) / radix w, (a * b) mod radix w).

(** The triple register [(R2, R1, R0)] of the Comba kernels. *)
Definition reg : Type := (Z * Z * Z)%type.

(** [COMBA_STEP_SQR(R2, R1, R0, A, B)]. *)
Definition COMBA_STEP_SQR (w : Z) (r : reg) (a b : Z) : reg :=
  let '(R2, R1, R0) := r in
  let '(_r1, _r0) := RLC_MUL_DIG w a b in
  let _s0 := wadd w _r0 _r0 in
  let _s1 := wadd w (wadd w _r1 _r1) (ltw _s0 _r0) in
  let _r := R1 in
  let R0 := wadd w R0 _s0 in
  let R1 := wadd w R1 (ltw R0 _s0) in
  let R2 := wadd w R2 (ltw R1 _r) in
  let R1 := wadd w R1 _s1 in
  let R2 := wadd w R2 (ltw R1 _s1) in
  let R2 := wadd w R2 (ltw _s1 _r1) in
  (R2, R1, R0).

(** [COMBA_FINAL(R2, R1, R0, A)]. *)
Definition COMBA_FINAL (w : Z) (r : reg) (a : Z) : reg :=
  let '(R2, R1, R0) := r in
  let '(_r1, _r0) := RLC_MUL_DIG w a a in
  let _r := R1 in
  let R0 := wadd w R0 _r0 in
  let R1 := wadd w R1 (ltw R0 _r0) in
  let R2 := wadd w R2 (ltw R1 _r) in
  let R1 := wadd w R1 _r1 in
  let R2 := wadd w R2 (ltw R1 _r1) in
  (R2, R1, R0).

(** The inner loop [for (j = 0; j < n; j++, tmpa++, tmpb--)] of
    [bn_sqrn_low]; [tmpa] and [tmpb] are indices into [a].  It returns the
    register and the final [tmpa]. *)
Fixpoint comba_inner (w : Z) (a : list Z) (n : nat) (tmpa tmpb : nat)
    (r : reg) : reg * nat :=
  match n with
  | O => (r, tmpa)
  | S n' =>
      comba_inner w a n' (S tmpa) (Nat.pred tmpb)
        (COMBA_STEP_SQR w r (nth tmpa a 0) (nth tmpb a 0))
  end.

(** The end of a column: [*c = r0; r0 = r1; r1 = r2; r2 = 0], with the
    pointer [c] advancing: the digit is appended to the output. *)
Definition emit (r : reg) (c : list Z) : reg * list Z :=
  let '(R2, R1, R0) := r in ((0, R2, R1), c ++ [R0]).

(** One iteration of the first outer loop, column [i]. *)
Definition column_lo (w : Z) (a : list Z) (i : nat) (r : reg) (c : list Z)
    : reg * list Z :=
  let '(r1, tmpa) := comba_inner w a ((i + 1) / 2)%nat 0%nat i r in
  let r2 :=
    if Nat.even i then COMBA_FINAL w r1 (nth tmpa a 0) else r1 in
  emit r2 c.

(** One iteration of the second outer loop, column [size + i]. *)
Definition column_hi (w : Z) (a : list Z) (size i : nat) (r : reg)
    (c : list Z) : reg * list Z :=
  let '(r1, tmpa) :=
    comba_inner w a ((size - 1 - i) / 2)%nat (i + 1)%nat (size - 1)%nat r in
  let r2 :=
    if Nat.even (size - i) then COMBA_FINAL w r1 (nth tmpa a 0) else r1 in
  emit r2 c.

(** [for (i = i0; i < i0 + n; i++)] over a column body. *)
Fixpoint columns (body : nat -> reg -> list Z -> reg * list Z)
    (n : nat) (i : nat) (r : reg) (c : list Z) : reg * list Z :=
  match n with
  | O => (r, c)
  | S n' => let '(r', c') := body i r c in columns body n' (S i) r' c'
  end.

(** [bn_sqrn_low(c, a, size)]: the digits written to [c[0..2*size-1]]. *)
Definition bn_sqrn_low (w : Z) (a : list Z) (size : nat) : list Z :=
  let '(r, c) := columns (column_lo w a) size 0%nat (0, 0, 0) [] in
  let '(_, c') := columns (column_hi w a size) size 0%nat r c in
  c'.

(** [bn_sqra_low]: the loop [for (i = 1; i < size; i++)], with the state
    [(c, c0, c1)]. *)
Definition sqra_step (w t : Z) (a : list Z) (i : nat)
    (st : list Z * Z * Z) : list Z * Z * Z :=
  let '(c, c0, c1) := st in
  let '(_r1, _r0) := RLC_MUL_DIG w t (nth i a 0) in
  let r0 := wadd w _r0 _r0 in
  let r1 := wadd w (wadd w _r1 _r1) (ltw r0 _r0) in
  let s0 := wadd w r0 c0 in
  let s1 := wadd w r1 (ltw s0 r0) in
  let t0 := wadd w s0 (nth i c 0) in
  let t1 := wadd w s1 (ltw t0 s0) in
  let c := set_nth i t0 c in
  let c0' := wadd w t1 c1 in
  let c1' := lor (lor (lor (ltw t1 s1) (ltw s1 r1)) (ltw r1 _r1))
                 (ltw c0' c1) in
  (c, c0', c1').

Fixpoint sqra_loop (w t : Z) (a : list Z) (n : nat) (i : nat)
    (st : list Z * Z * Z) : list Z * Z * Z :=
  match n with
  | O => st
  | S n' => sqra_loop w t a n' (S i) (sqra_step w t a i st)
  end.

(** [bn_sqra_low(c, a, size)]: the updated [c] and the returned carry. *)
Definition bn_sqra_low (w : Z) (c a : list Z) (size : nat) : list Z * Z :=
  let t := nth 0 a 0 in
  let '(_r1, _r0) := RLC_MUL_DIG w t t in
  let r0 := wadd w _r0 (nth 0 c 0) in
  let r1 := wadd w _r1 (ltw r0 _r0) in
  let c := set_nth 0 r0 c in
  let '(c, c0, c1) := sqra_loop w t a (size - 1) 1%nat (c, r1, 0) in
  let cs := wadd w (nth size c 0) c0 in
  let c := set_nth size cs c in
  let c1 := wadd w c1 (ltw cs c0) in
  (c, c1).

(** The largest [int], the type of [size]. *)
Definition INT_MAX : Z := 2 ^ 31 - 1.

End BnSqr.

(** *** What the squaring kernels are measured against *)

Module SqrSpec.
Import Dig BnSqr.

Section Spec.
Variable w : Z.

(** Value of the triple register. *)
Definition val3 (r : reg) : Z :=
  let '(R2, R1, R0) := r in R0 + radix w * R1 + radix w * radix w * R2.

Definition reg_ok (r : reg) : Prop :=
  let '(R2, R1, R0) := r in is_dig w R2 /\ is_dig w R1 /\ is_dig w R0.

Definition cube : Z := radix w * radix w * radix w.

(** [sumn f n] is the sum of [f 0 .. f (n-1)]. *)
Fixpoint sumn (f : nat -> Z) (n : nat) : Z :=
  match n with
  | O => 0
  | S n' => sumn f n' + f n'
  end.

(** Coefficient [k] of the product of two digit polynomials. *)
Fixpoint conv (x y : list Z) (k : nat) : Z :=
  match x with
  | [] => 0
  | x0 :: xs =>
      x0 * nth k y 0 + match k with O => 0 | S k' => conv xs y k' end
  end.

(** [psum f K] is the sum of [f k * radix^k] for [k < K], in Horner form. *)
Fixpoint psum (f : nat -> Z) (K : nat) : Z :=
  match K with
  | O => 0
  | S K' => f 0%nat + radix w * psum (fun k => f (S k)) K'
  end.

(** A sequence of digits in range. *)
Definition digits (a : list Z) : Prop := Forall (is_dig w) a.

(** The loop invariant at the start of column [k]: the digits written so
    far together with the register are the first [k] columns of the square,
    and the top word of the register is clear. *)
Definition Inv (a : list Z) (k : nat) (rc : reg * list Z) : Prop :=
  let '(r, c) := rc in
  length c = k /\ digits c /\ reg_ok r /\ fst (fst r) = 0 /\
  value w c + radix w ^ Z.of_nat k * val3 r = psum (conv a a) k.

(** The sum accumulated after the digits [a[0..i-1]] have been visited:
    the square of [a[0]] and the doubled products of [a[0]] with the
    digits [a[1..i-1]]. *)
Definition row (a : list Z) (i : nat) : Z :=
  let t := nth 0 a 0 in t * t + 2 * t * (value w (firstn i a) - t).

(** Loop invariant of [bn_sqra_low] at the start of iteration [i]:
    [c0] is the pending carry word of column [i], [c1] the delayed carry
    of column [i + 1]. *)
Definition SqraInv (c_in a : list Z) (i : nat) (st : list Z * Z * Z)
    : Prop :=
  let '(c, c0, c1) := st in
  length c = length c_in /\ digits c /\ is_dig w c0 /\
  (c1 = 0 \/ c1 = 1) /\
  value w c + radix w ^ Z.of_nat i * (c0 + radix w * c1)
  = value w c_in + row a i.

End Spec.
End SqrSpec.

(* ================================================================== *)
(** ** relic_pp_mul_low.c                                             *)
(* ================================================================== *)

Module PpMul.
Import Dig.

(** The build and field configuration the kernels are compiled and run
    with: the digit width [WSIZE], the digit count [FP_DIGS] of a
    prime-field element, what [fp_prime_get()], [fp_prime_get_qnr()] and
    [fp_prime_get_cnr()] return, and whether [FP_SPACE] and [FP_QNRES] are
    defined. *)
Record config : Type := {
  WSIZE : Z;
  FP_DIGS : Z;
  fp_prime_get : Z;
  fp_prime_get_qnr : Z;
  fp_prime_get_cnr : Z;
  FP_SPACE : bool;
  FP_QNRES : bool
}.

(** The digit arrays the kernels touch.  In [fp2_muln_low], [fp2_mulc_low]
    and [fp3_muln_low] the parameters are [c] (double-width limbs [C i]),
    [a] (limbs [A i]) and [b] (limbs [B i]) and the locals are [t0 .. t6]
    ([T i]).  In the [mulm] kernels the scoped buffer [t] is passed as the
    [c] of [muln], so it is [C i] too, and the caller's output [c] is
    [Out i]. *)
Inductive buf : Type :=
| A (i : nat) | B (i : nat) | C (i : nat) | T (i : nat) | Out (i : nat).

Definition buf_eqb (x y : buf) : bool :=
  match x, y with
  | A i, A j | B i, B j | C i, C j | T i, T j | Out i, Out j => Nat.eqb i j
  | _, _ => false
  end.

(** An argument of a primitive: a digit array at a digit offset
    ([c[0] + FP_DIGS] is [At (C 0) FP_DIGS]), or the prime returned by
    [fp_prime_get()]. *)
Inductive operand : Type :=
| At (b : buf) (off : Z)
| Prime.

(** The primitives of the prime-field and multi-precision layers that the
    kernels call. *)
Inductive prim : Type :=
| Fp_addn | Fp_addm | Fp_addd | Fp_addc | Fp_subd | Fp_subc | Fp_muln
| Fp_rdcn | Bn_lshb | Bn_rshb.

(** One call, as it appears in the source: the primitive, its destination,
    its sources. *)
Record event : Type := Call {
  ev_prim : prim;
  ev_dst : operand;
  ev_src : list operand
}.

Definition prim_eqb (f g : prim) : bool :=
  match f, g with
  | Fp_addn, Fp_addn | Fp_addm, Fp_addm | Fp_addd, Fp_addd
  | Fp_addc, Fp_addc | Fp_subd, Fp_subd | Fp_subc, Fp_subc
  | Fp_muln, Fp_muln | Fp_rdcn, Fp_rdcn | Bn_lshb, Bn_lshb
  | Bn_rshb, Bn_rshb => true
  | _, _ => false
  end.

Definition operand_eqb (x y : operand) : bool :=
  match x, y with
  | At b off, At b' off' => buf_eqb b b' && (off =? off')
  | Prime, Prime => true
  | _, _ => false
  end.

Fixpoint operands_eqb (xs ys : list operand) : bool :=
  match xs, ys with
  | [], [] => true
  | x :: xs', y :: ys' => operand_eqb x y && operands_eqb xs' ys'
  | _, _ => false
  end.

Definition event_eqb (e e' : event) : bool :=
  prim_eqb (ev_prim e) (ev_prim e')
  && operand_eqb (ev_dst e) (ev_dst e')
  && operands_eqb (ev_src e) (ev_src e').

(** How many times a call occurs in a list of calls. *)
Definition calls (e : event) (l : list event) : nat :=
  length (filter (event_eqb e) l).

(** A call of a two-source primitive. *)
Definition ev (f : prim) (d x y : operand) : event := Call f d [x; y].

(** Memory holds, for each array, the little-endian value of its digits;
    a state is the memory and the calls made so far. *)
Record state : Type := {
  mem : buf -> Z;
  log : list event
}.

Definition cmd : Type := state -> state.

(** The state in which the arrays hold the given values and no call has
    been made. *)
Definition initial (m : buf -> Z) : state := {| mem := m; log := [] |}.

Definition skip : cmd := fun s => s.
Definition seq (c1 c2 : cmd) : cmd := fun s => c2 (c1 s).

Declare Scope cmd_scope.
Delimit Scope cmd_scope with cmd.
Notation "c1 ;; c2" := (seq c1 c2)
  (at level 61, left associativity) : cmd_scope.

(** [for (int i = start; i > bound; i--) body]. *)
Fixpoint for_down (fuel : nat) (i bound : Z) (body : cmd) : cmd :=
  match fuel with
  | O => skip
  | S fuel' =>
      if i >? bound
      then seq body (for_down fuel' (i - 1) bound body)
      else skip
  end.

Definition for_gt (start bound : Z) (body : cmd) : cmd :=
  for_down (Z.to_nat (start - bound)) start bound body.

(** The limbs [a[i]], [b[i]], [c[i]] and the locals [t0 .. t6], as
    operands. *)
Definition a_ (i : nat) : operand := At (A i) 0.
Definition b_ (i : nat) : operand := At (B i) 0.
Definition c_ (i : nat) : operand := At (C i) 0.
Definition t_ (i : nat) : operand := At (T i) 0.
Definition out_ (i : nat) : operand := At (Out i) 0.

(** Errors of the library that the reducing kernels can raise. *)
Inductive err : Type := ERR_NO_MEMORY | ERR_CAUGHT.

(** How a call ends: normally, or with an error thrown to the caller. *)
Inductive result : Type :=
| Done
| Thrown (e : err).

(** The state of a reducing kernel: the arrays, which limbs of its scoped
    buffer [t] are acquired (not [NULL]), the number of buffers acquired
    and not yet released, the number of buffers the allocator can still
    hand out, and whether the reduction completes. *)
Record mstate : Type := {
  st : state;
  held : nat -> bool;
  live : nat;
  avail : nat;
  rdc_ok : bool
}.

Definition ecmd : Type := mstate -> result * mstate.

Definition lift (c : cmd) : ecmd := fun s =>
  (Done, {| st := c (st s); held := held s; live := live s;
            avail := avail s; rdc_ok := rdc_ok s |}).

(** Sequencing: a thrown error skips what follows. *)
Definition eseq (c1 c2 : ecmd) : ecmd := fun s =>
  match c1 s with
  | (Done, s1) => c2 s1
  | (Thrown e, s1) => (Thrown e, s1)
  end.

Declare Scope ecmd_scope.
Delimit Scope ecmd_scope with ecmd.
Notation "c1 ;;; c2" := (eseq c1 c2)
  (at level 61, left associativity) : ecmd_scope.

(** Modelled from the spec: the macro [THROW] is defined outside the
    embedded files; it signals a fault to the enclosing handler or to the
    caller. *)
Definition THROW (e : err) : ecmd := fun s => (Thrown e, s).

(** Modelled from the spec: the macros [TRY], [CATCH_ANY] and [FINALLY]
    are defined outside the embedded files.  The handler runs when the
    body threw; the [FINALLY] block runs on every exit path; an error
    thrown by the handler reaches the caller after it. *)
Definition TRY_CATCH_FINALLY (body handler fin : ecmd) : ecmd := fun s =>
  let '(r1, s1) := body s in
  let '(r2, s2) :=
    match r1 with
    | Done => (Done, s1)
    | Thrown _ => handler s1
    end in
  let '(r3, s3) := fin s2 in
  match r2 with
  | Thrown e => (Thrown e, s3)
  | Done => (r3, s3)
  end.

Definition set_held (h : nat -> bool) (i : nat) (v : bool) : nat -> bool :=
  fun j => if Nat.eqb i j then v else h j.

(** Modelled from the spec: [dv_null] is defined outside the embedded
    files; it marks a limb of the scoped buffer as not acquired. *)
Definition dv_null (i : nat) : ecmd := fun s =>
  (Done, {| st := st s; held := set_held (held s) i false;
            live := live s; avail := avail s; rdc_ok := rdc_ok s |}).

(** Modelled from the spec: [dv_new] is defined outside the embedded
    files; it acquires a double-width buffer, and throws when the
    allocator has none left. *)
Definition dv_new (i : nat) : ecmd := fun s =>
  match avail s with
  | O => THROW ERR_NO_MEMORY s
  | S k => (Done, {| st := st s; held := set_held (held s) i true;
                     live := S (live s); avail := k;
                     rdc_ok := rdc_ok s |})
  end.

(** Modelled from the spec: [dv_free] is defined outside the embedded
    files; it releases a limb if it is acquired. *)
Definition dv_free (i : nat) : ecmd := fun s =>
  if held s i
  then (Done, {| st := st s; held := set_held (held s) i false;
                 live := Nat.pred (live s); avail := S (avail s);
                 rdc_ok := rdc_ok s |})
  else (Done, s).

Local Open Scope ecmd_scope.

Definition dv2_null : ecmd := dv_null 0 ;;; dv_null 1.
Definition dv2_new : ecmd := dv_new 0 ;;; dv_new 1.
Definition dv2_free : ecmd := dv_free 0 ;;; dv_free 1.
Definition dv3_null : ecmd := dv_null 0 ;;; dv_null 1 ;;; dv_null 2.
Definition dv3_new : ecmd := dv_new 0 ;;; dv_new 1 ;;; dv_new 2.
Definition dv3_free : ecmd := dv_free 0 ;;; dv_free 1 ;;; dv_free 2.

Local Close Scope ecmd_scope.

Section Kernels.
Variable cfg : config.

(** [pw k] is the modulus of a [k]-digit array. *)
Definition pw (k : Z) : Z := radix (WSIZE cfg) ^ k.

(** Reading [len] digits of an operand. *)
Definition rd (m : buf -> Z) (o : operand) (len : Z) : Z :=
  match o with
  | At b off => (m b / pw off) mod pw len
  | Prime => fp_prime_get cfg mod pw len
  end.

(** Replacing digits [off .. off + len - 1] of an array value by [x]. *)
Definition splice (v off len x : Z) : Z :=
  v mod pw off + pw off * (x mod pw len)
  + pw (off + len) * (v / pw (off + len)).

Definition upd (m : buf -> Z) (b : buf) (v : Z) : buf -> Z :=
  fun b' => if buf_eqb b b' then v else m b'.

(** The value of a prime-field element and of a double-width element held
    in an array. *)
Definition fpv (s : state) (o : operand) : Z := rd (mem s) o (FP_DIGS cfg).
Definition dvv (s : state) (o : operand) : Z :=
  rd (mem s) o (2 * FP_DIGS cfg).

(** A prime-field element is reduced when it is below the prime. *)
Definition reduced (s : state) (o : operand) : Prop :=
  fpv s o < fp_prime_get cfg.

(** Writing [len] digits through an operand (the prime is never a
    destination). *)
Definition wr (m : buf -> Z) (o : operand) (len x : Z) : buf -> Z :=
  match o with
  | At b off => upd m b (splice (m b) off len x)
  | Prime => m
  end.

(** A call of a two-source primitive that reads [slen] digits of each
    source and writes [dlen] digits. *)
Definition call2 (f : prim) (dlen slen : Z) (op : Z -> Z -> Z)
    (dst x y : operand) : cmd := fun s =>
  {| mem := wr (mem s) dst dlen
              (op (rd (mem s) x slen) (rd (mem s) y slen));
     log := log s ++ [Call f dst [x; y]] |}.

(** A call of a one-source primitive over [len] digits. *)
Definition call1 (f : prim) (len : Z) (op : Z -> Z)
    (dst x : operand) : cmd := fun s =>
  {| mem := wr (mem s) dst len (op (rd (mem s) x len));
     log := log s ++ [Call f dst [x]] |}.

(** *** The primitives, on values *)

(** Modelled from the spec: [fp_addn_low] is defined outside the embedded
    files; it is the field addition that does not force the result below
    the prime: the digits of [x + y], the carry out being returned. *)
Definition addn (x y : Z) : Z := (x + y) mod pw (FP_DIGS cfg).

(** Modelled from the spec: [fp_addm_low] is defined outside the embedded
    files; it is the field addition that keeps the result below the
    prime: [fp_addn_low], then one subtraction of the prime when the
    addition carried or the sum is not below the prime. *)
Definition addm (x y : Z) : Z :=
  let r := (x + y) mod pw (FP_DIGS cfg) in
  if (pw (FP_DIGS cfg) <=? x + y) || (fp_prime_get cfg <=? r)
  then (r - fp_prime_get cfg) mod pw (FP_DIGS cfg)
  else r.

(** Modelled from the spec: [fp_addd_low] is defined outside the embedded
    files; it is the double-width addition: the [2 * FP_DIGS] digits of
    [x + y]. *)
Definition addd (x y : Z) : Z := (x + y) mod pw (2 * FP_DIGS cfg).

(** Modelled from the spec: [fp_addc_low] is defined outside the embedded
    files; it is the double-width addition with correction:
    [fp_addd_low], then one subtraction of the prime from the upper half
    when the addition carried or the upper half is not below the prime. *)
Definition addc (x y : Z) : Z :=
  let r := (x + y) mod pw (2 * FP_DIGS cfg) in
  let hi := r / pw (FP_DIGS cfg) in
  if (pw (2 * FP_DIGS cfg) <=? x + y) || (fp_prime_get cfg <=? hi)
  then r mod pw (FP_DIGS cfg)
       + pw (FP_DIGS cfg)
         * ((hi - fp_prime_get cfg) mod pw (FP_DIGS cfg))
  else r.

(** Modelled from the spec: [fp_subd_low] is defined outside the embedded
    files; it is the double-width subtraction: the [2 * FP_DIGS] digits of
    [x - y], the borrow being returned. *)
Definition subd (x y : Z) : Z := (x - y) mod pw (2 * FP_DIGS cfg).

(** Modelled from the spec: [fp_subc_low] is defined outside the embedded
    files; it is the double-width subtraction with correction:
    [fp_subd_low], then one addition of the prime to the upper half when
    the subtraction borrowed. *)
Definition subc (x y : Z) : Z :=
  let r := (x - y) mod pw (2 * FP_DIGS cfg) in
  let hi := r / pw (FP_DIGS cfg) in
  if x <? y
  then r mod pw (FP_DIGS cfg)
       + pw (FP_DIGS cfg)
         * ((hi + fp_prime_get cfg) mod pw (FP_DIGS cfg))
  else r.

(** Modelled from the spec: [fp_muln_low] is defined outside the embedded
    files; it is the multiplication of two [FP_DIGS]-digit values
    producing the double-width product. *)
Definition muln (x y : Z) : Z := (x * y) mod pw (2 * FP_DIGS cfg).

(** Modelled from the spec: [bn_lshb_low(c, a, size, bits)] is defined
    outside the embedded files; it shifts a [size]-digit value left by
    [bits] bits, the bits shifted out being returned. *)
Definition lshb (size bits x : Z) : Z := (x * 2 ^ bits) mod pw size.

(** Modelled from the spec: [bn_rshb_low(c, a, size, bits)] is defined
    outside the embedded files; it shifts a [size]-digit value right by
    [bits] bits. *)
Definition rshb (bits x : Z) : Z := x / 2 ^ bits.

(** *** The primitives, as calls *)

Definition fp_addn_low := call2 Fp_addn (FP_DIGS cfg) (FP_DIGS cfg) addn.
Definition fp_addm_low := call2 Fp_addm (FP_DIGS cfg) (FP_DIGS cfg) addm.
Definition fp_addd_low :=
  call2 Fp_addd (2 * FP_DIGS cfg) (2 * FP_DIGS cfg) addd.
Definition fp_addc_low :=
  call2 Fp_addc (2 * FP_DIGS cfg) (2 * FP_DIGS cfg) addc.
Definition fp_subd_low :=
  call2 Fp_subd (2 * FP_DIGS cfg) (2 * FP_DIGS cfg) subd.
Definition fp_subc_low :=
  call2 Fp_subc (2 * FP_DIGS cfg) (2 * FP_DIGS cfg) subc.
Definition fp_muln_low := call2 Fp_muln (2 * FP_DIGS cfg) (FP_DIGS cfg) muln.
Definition bn_lshb_low (dst x : operand) (size bits : Z) : cmd :=
  call1 Bn_lshb size (lshb size bits) dst x.
Definition bn_rshb_low (dst x : operand) (size bits : Z) : cmd :=
  call1 Bn_rshb size (rshb bits) dst x.

(** *** The kernels *)

Local Open Scope cmd_scope.

(** [fp2_muln_low(c, a, b)]. *)
Definition fp2_muln_low : cmd :=
  (if FP_SPACE cfg
   then fp_addn_low (t_ 0) (a_ 0) (a_ 1) ;; fp_addn_low (t_ 1) (b_ 0) (b_ 1)
   else fp_addm_low (t_ 0) (a_ 0) (a_ 1) ;; fp_addm_low (t_ 1) (b_ 0) (b_ 1))
  ;; fp_muln_low (c_ 0) (a_ 0) (b_ 0)
  ;; fp_muln_low (c_ 1) (a_ 1) (b_ 1)
  ;; fp_muln_low (t_ 2) (t_ 0) (t_ 1)
  ;; (if FP_SPACE cfg
      then fp_addd_low (t_ 0) (c_ 0) (c_ 1)
      else fp_addc_low (t_ 0) (c_ 0) (c_ 1))
  ;; fp_subc_low (c_ 0) (c_ 0) (c_ 1)
  ;; (if FP_QNRES cfg
      then skip
      else for_gt (-1) (fp_prime_get_qnr cfg)
             (fp_subc_low (c_ 0) (c_ 0) (c_ 1)))
  ;; (if FP_SPACE cfg
      then fp_subd_low (c_ 1) (t_ 2) (t_ 0)
      else fp_subc_low (c_ 1) (t_ 2) (t_ 0)).

(** [fp2_mulc_low(c, a, b)]. *)
Definition fp2_mulc_low : cmd :=
  fp_addn_low (t_ 0) (a_ 0) (a_ 1)
  ;; fp_addn_low (t_ 1) (b_ 0) (b_ 1)
  ;; fp_muln_low (c_ 0) (a_ 0) (b_ 0)
  ;; fp_muln_low (c_ 1) (a_ 1) (b_ 1)
  ;; fp_muln_low (t_ 2) (t_ 0) (t_ 1)
  ;; fp_addd_low (t_ 0) (c_ 0) (c_ 1)
  ;; fp_subd_low (c_ 0) (c_ 0) (c_ 1)
  ;; (if FP_QNRES cfg
      then skip
      else for_gt (-1) (fp_prime_get_qnr cfg)
             (fp_subd_low (c_ 0) (c_ 0) (c_ 1)))
  ;; fp_subd_low (c_ 1) (t_ 2) (t_ 0)
  ;; bn_lshb_low (At (C 0) (FP_DIGS cfg - 1)) (At (C 0) (FP_DIGS cfg - 1))
       (FP_DIGS cfg + 1) 2
  ;; fp_addn_low (At (C 0) (FP_DIGS cfg)) (At (C 0) (FP_DIGS cfg)) Prime
  ;; bn_rshb_low (At (C 0) (FP_DIGS cfg - 1)) (At (C 0) (FP_DIGS cfg - 1))
       (FP_DIGS cfg + 1) 2.

(** [fp3_muln_low(c, a, b)]. *)
Definition fp3_muln_low : cmd :=
  fp_muln_low (t_ 0) (a_ 0) (b_ 0)
  ;; fp_muln_low (t_ 1) (a_ 1) (b_ 1)
  ;; fp_muln_low (t_ 2) (a_ 2) (b_ 2)
  ;; (if FP_SPACE cfg
      then fp_addn_low (t_ 3) (a_ 1) (a_ 2)
           ;; fp_addn_low (t_ 4) (b_ 1) (b_ 2)
      else fp_addm_low (t_ 3) (a_ 1) (a_ 2)
           ;; fp_addm_low (t_ 4) (b_ 1) (b_ 2))
  ;; fp_muln_low (t_ 5) (t_ 3) (t_ 4)
  ;; fp_addd_low (t_ 6) (t_ 1) (t_ 2)
  ;; fp_subc_low (t_ 4) (t_ 5) (t_ 6)
  ;; fp_subc_low (c_ 0) (t_ 0) (t_ 4)
  ;; for_gt (-1) (fp_prime_get_cnr cfg) (fp_subc_low (c_ 0) (c_ 0) (t_ 4))
  ;; (if FP_SPACE cfg
      then fp_addn_low (t_ 4) (a_ 0) (a_ 1)
           ;; fp_addn_low (t_ 5) (b_ 0) (b_ 1)
      else fp_addm_low (t_ 4) (a_ 0) (a_ 1)
           ;; fp_addm_low (t_ 5) (b_ 0) (b_ 1))
  ;; fp_muln_low (t_ 6) (t_ 4) (t_ 5)
  ;; fp_addd_low (t_ 4) (t_ 0) (t_ 1)
  ;; fp_subc_low (t_ 4) (t_ 6) (t_ 4)
  ;; fp_subc_low (c_ 1) (t_ 4) (t_ 2)
  ;; for_gt (-1) (fp_prime_get_cnr cfg) (fp_subc_low (c_ 1) (c_ 1) (t_ 2))
  ;; (if FP_SPACE cfg
      then fp_addn_low (t_ 5) (a_ 0) (a_ 2)
           ;; fp_addn_low (t_ 6) (b_ 0) (b_ 2)
      else fp_addm_low (t_ 5) (a_ 0) (a_ 2)
           ;; fp_addm_low (t_ 6) (b_ 0) (b_ 2))
  ;; fp_muln_low (t_ 4) (t_ 5) (t_ 6)
  ;; fp_addd_low (t_ 6) (t_ 0) (t_ 2)
  ;; fp_subc_low (t_ 5) (t_ 4) (t_ 6)
  ;; fp_addc_low (c_ 2) (t_ 5) (t_ 1).

Local Close Scope cmd_scope.

(** The number of turns of the non-residue loop, as compiled: of the
    degree-2 kernels, where [FP_QNRES] removes the loop, and of the
    degree-3 kernel. *)
Definition fp2_extra_subs : nat :=
  if FP_QNRES cfg then 0%nat
  else Z.to_nat (-1 - fp_prime_get_qnr cfg).

Definition fp3_extra_subs : nat := Z.to_nat (-1 - fp_prime_get_cnr cfg).

(** *** The kernels as lists of calls *)

(** The last three calls of [fp2_mulc_low]: its normalisation. *)
Definition mulc_normalize : cmd :=
  seq (seq (bn_lshb_low (At (C 0) (FP_DIGS cfg - 1))
              (At (C 0) (FP_DIGS cfg - 1)) (FP_DIGS cfg + 1) 2)
           (fp_addn_low (At (C 0) (FP_DIGS cfg))
              (At (C 0) (FP_DIGS cfg)) Prime))
      (bn_rshb_low (At (C 0) (FP_DIGS cfg - 1))
         (At (C 0) (FP_DIGS cfg - 1)) (FP_DIGS cfg + 1) 2).

(** The first nine calls of [fp2_mulc_low]: its Karatsuba steps. *)
Definition fp2_mulc_karatsuba : cmd :=
  seq (seq (seq (seq (seq (seq (seq (seq
    (fp_addn_low (t_ 0) (a_ 0) (a_ 1))
    (fp_addn_low (t_ 1) (b_ 0) (b_ 1)))
    (fp_muln_low (c_ 0) (a_ 0) (b_ 0)))
    (fp_muln_low (c_ 1) (a_ 1) (b_ 1)))
    (fp_muln_low (t_ 2) (t_ 0) (t_ 1)))
    (fp_addd_low (t_ 0) (c_ 0) (c_ 1)))
    (fp_subd_low (c_ 0) (c_ 0) (c_ 1)))
    (if FP_QNRES cfg then skip
     else for_gt (-1) (fp_prime_get_qnr cfg)
            (fp_subd_low (c_ 0) (c_ 0) (c_ 1))))
    (fp_subd_low (c_ 1) (t_ 2) (t_ 0)).

(** The calls of [fp2_muln_low], in order. *)
Definition fp2_muln_trace : list event :=
  [ ev (if FP_SPACE cfg then Fp_addn else Fp_addm) (t_ 0) (a_ 0) (a_ 1);
    ev (if FP_SPACE cfg then Fp_addn else Fp_addm) (t_ 1) (b_ 0) (b_ 1);
    ev Fp_muln (c_ 0) (a_ 0) (b_ 0);
    ev Fp_muln (c_ 1) (a_ 1) (b_ 1);
    ev Fp_muln (t_ 2) (t_ 0) (t_ 1);
    ev (if FP_SPACE cfg then Fp_addd else Fp_addc) (t_ 0) (c_ 0) (c_ 1);
    ev Fp_subc (c_ 0) (c_ 0) (c_ 1) ]
  ++ repeat (ev Fp_subc (c_ 0) (c_ 0) (c_ 1)) fp2_extra_subs
  ++ [ ev (if FP_SPACE cfg then Fp_subd else Fp_subc)
         (c_ 1) (t_ 2) (t_ 0) ].

(** The three calls of the normalisation of [fp2_mulc_low]. *)
Definition mulc_normalize_trace : list event :=
  [ Call Bn_lshb (At (C 0) (FP_DIGS cfg - 1)) [At (C 0) (FP_DIGS cfg - 1)];
    ev Fp_addn (At (C 0) (FP_DIGS cfg)) (At (C 0) (FP_DIGS cfg)) Prime;
    Call Bn_rshb (At (C 0) (FP_DIGS cfg - 1)) [At (C 0) (FP_DIGS cfg - 1)] ].

(** The calls of [fp2_mulc_low], in order. *)
Definition fp2_mulc_trace : list event :=
  [ ev Fp_addn (t_ 0) (a_ 0) (a_ 1);
    ev Fp_addn (t_ 1) (b_ 0) (b_ 1);
    ev Fp_muln (c_ 0) (a_ 0) (b_ 0);
    ev Fp_muln (c_ 1) (a_ 1) (b_ 1);
    ev Fp_muln (t_ 2) (t_ 0) (t_ 1);
    ev Fp_addd (t_ 0) (c_ 0) (c_ 1);
    ev Fp_subd (c_ 0) (c_ 0) (c_ 1) ]
  ++ repeat (ev Fp_subd (c_ 0) (c_ 0) (c_ 1)) fp2_extra_subs
  ++ [ ev Fp_subd (c_ 1) (t_ 2) (t_ 0) ]
  ++ mulc_normalize_trace.

(** The calls of [fp3_muln_low], in order. *)
Definition fp3_muln_trace : list event :=
  let add := if FP_SPACE cfg then Fp_addn else Fp_addm in
  [ ev Fp_muln (t_ 0) (a_ 0) (b_ 0);
    ev Fp_muln (t_ 1) (a_ 1) (b_ 1);
    ev Fp_muln (t_ 2) (a_ 2) (b_ 2);
    ev add (t_ 3) (a_ 1) (a_ 2);
    ev add (t_ 4) (b_ 1) (b_ 2);
    ev Fp_muln (t_ 5) (t_ 3) (t_ 4);
    ev Fp_addd (t_ 6) (t_ 1) (t_ 2);
    ev Fp_subc (t_ 4) (t_ 5) (t_ 6);
    ev Fp_subc (c_ 0) (t_ 0) (t_ 4) ]
  ++ repeat (ev Fp_subc (c_ 0) (c_ 0) (t_ 4)) fp3_extra_subs
  ++ [ ev add (t_ 4) (a_ 0) (a_ 1);
       ev add (t_ 5) (b_ 0) (b_ 1);
       ev Fp_muln (t_ 6) (t_ 4) (t_ 5);
       ev Fp_addd (t_ 4) (t_ 0) (t_ 1);
       ev Fp_subc (t_ 4) (t_ 6) (t_ 4);
       ev Fp_subc (c_ 1) (t_ 4) (t_ 2) ]
  ++ repeat (ev Fp_subc (c_ 1) (c_ 1) (t_ 2)) fp3_extra_subs
  ++ [ ev add (t_ 5) (a_ 0) (a_ 2);
       ev add (t_ 6) (b_ 0) (b_ 2);
       ev Fp_muln (t_ 4) (t_ 5) (t_ 6);
       ev Fp_addd (t_ 6) (t_ 0) (t_ 2);
       ev Fp_subc (t_ 5) (t_ 4) (t_ 6);
       ev Fp_addc (c_ 2) (t_ 5) (t_ 1) ].

(** *** The reducing kernels *)

(** Modelled from the spec: [fp_rdcn_low] is defined outside the embedded
    files; it reduces a double-width value modulo the prime. *)
Definition rdcn (x : Z) : Z := x mod fp_prime_get cfg.

Definition fp_rdcn_low (dst x : operand) : cmd := fun s =>
  {| mem := wr (mem s) dst (FP_DIGS cfg)
              (rdcn (rd (mem s) x (2 * FP_DIGS cfg)));
     log := log s ++ [Call Fp_rdcn dst [x]] |}.

(** Modelled from the spec: [fp2_rdcn_low] and [fp3_rdcn_low] are defined
    outside the embedded files; they reduce each limb of a double-width
    pair or triple into the caller's output. *)
Definition fp2_rdcn_low : cmd :=
  seq (fp_rdcn_low (out_ 0) (c_ 0)) (fp_rdcn_low (out_ 1) (c_ 1)).

Definition fp3_rdcn_low : cmd :=
  seq (seq (fp_rdcn_low (out_ 0) (c_ 0)) (fp_rdcn_low (out_ 1) (c_ 1)))
      (fp_rdcn_low (out_ 2) (c_ 2)).

(** Modelled from the spec: the reduction is the one step of a reducing
    kernel, besides the acquisition, that can signal a fault.  What a
    faulting reduction has already written is not known: the model lets
    it throw before it writes, and no property stated below is about the
    arrays after such a fault. *)
Definition may_fault (c : cmd) : ecmd := fun s =>
  if rdc_ok s then lift c s else THROW ERR_NO_MEMORY s.

Local Open Scope ecmd_scope.

(** [fp2_mulm_low(c, a, b)]. *)
Definition fp2_mulm_low : ecmd :=
  dv2_null ;;;
  TRY_CATCH_FINALLY
    (dv2_new ;;; lift fp2_muln_low ;;; may_fault fp2_rdcn_low)
    (THROW ERR_CAUGHT)
    dv2_free.

(** [fp3_mulm_low(c, a, b)]. *)
Definition fp3_mulm_low : ecmd :=
  dv3_null ;;;
  TRY_CATCH_FINALLY
    (dv3_new ;;; lift fp3_muln_low ;;; may_fault fp3_rdcn_low)
    (THROW ERR_CAUGHT)
    dv3_free.

Local Close Scope ecmd_scope.

End Kernels.

(** The plain counterpart of a primitive: the same operation without the
    correction by the prime. *)
Definition plain (f : prim) : prim :=
  match f with
  | Fp_addm => Fp_addn
  | Fp_addc => Fp_addd
  | Fp_subc => Fp_subd
  | g => g
  end.

Definition plain_call (e : event) : event :=
  Call (plain (ev_prim e)) (ev_dst e) (ev_src e).

(** [cfg] built with the non-residue [q] and with [FP_QNRES] as given. *)
Definition with_qnr (cfg : config) (q : Z) (qnres : bool) : config :=
  {| WSIZE := WSIZE cfg; FP_DIGS := FP_DIGS cfg;
     fp_prime_get := fp_prime_get cfg; fp_prime_get_qnr := q;
     fp_prime_get_cnr := fp_prime_get_cnr cfg;
     FP_SPACE := FP_SPACE cfg; FP_QNRES := qnres |}.

(** How many calls of a primitive a list of calls holds, whatever their
    operands. *)
Definition prim_calls (f : prim) (l : list event) : nat :=
  length (filter (fun e => prim_eqb f (ev_prim e)) l).

End PpMul.

(** *** Concrete configurations *)

Module Examples.
Import PpMul.

(** A small field: [p = 13] in one 32-bit digit, [u^2 = -2], [v^3 = -2]. *)
Definition cfg13 (space qnres : bool) : config :=
  {| WSIZE := 32; FP_DIGS := 1; fp_prime_get := 13;
     fp_prime_get_qnr := -2; fp_prime_get_cnr := -2;
     FP_SPACE := space; FP_QNRES := qnres |}.

(** A 256-bit pairing prime that fills its four 64-bit digits
    ([p > 2^255.5]), with [u^2 = -1] and [v^3 = -2]. *)
Definition p256 : Z :=
  0xB64000000000FF2F2200000085FD5480B0001F44B6B88BF142BC818F95E3E6AF.

Definition cfg256 : config :=
  {| WSIZE := 64; FP_DIGS := 4; fp_prime_get := p256;
     fp_prime_get_qnr := -1; fp_prime_get_cnr := -2;
     FP_SPACE := false; FP_QNRES := true |}.

(** Arrays holding the limbs [a = (a0, a1, a2)] and [b = (b0, b1, b2)];
    the other arrays hold arbitrary digits. *)
Definition arrays (a0 a1 a2 b0 b1 b2 : Z) : buf -> Z := fun x =>
  match x with
  | A 0 => a0 | A 1 => a1 | A 2 => a2
  | B 0 => b0 | B 1 => b1 | B 2 => b2
  | _ => 77
  end.

Definition caller (m : buf -> Z) (n : nat) (ok : bool) : mstate :=
  {| st := initial m; held := fun _ => true; live := 5; avail := n;
     rdc_ok := ok |}.

End Examples.

(* ================================================================== *)
(** ** The x86 architecture file                                       *)
(* ================================================================== *)

Module Arch.

(** The number of leading zero bits of [x] in a word of [w] bits. *)
Definition leading_zeros (w x : Z) : Z :=
  if x =? 0 then w else w - 1 - Z.log2 x.

(** Modelled from the spec: [lzcnt32_hard] comes from [lzcnt.inc], outside
    the embedded files; it is the hardware count of the leading zero bits
    of a 32-bit word. *)
Definition lzcnt32_hard (x : Z) : Z := leading_zeros 32 x.

(** The portable count scans the bits from the top. *)
Fixpoint lz_scan (k : nat) (x : Z) : Z :=
  match k with
  | O => 0
  | S k' => if Z.testbit x (Z.of_nat k') then 0 else 1 + lz_scan k' x
  end.

(** Modelled from the spec: [lzcnt32_soft] comes from [lzcnt.inc], outside
    the embedded files; it is the portable fallback of [lzcnt32_hard]. *)
Definition lzcnt32_soft (x : Z) : Z := lz_scan 32 x.

(** The part of the library context that this file touches: the bound
    implementation, [None] for the [NULL] pointer. *)
Record ctx_t : Type := {
  lzcnt_ptr : option (Z -> Z)
}.

(** [arch_init()]; [has_lzcnt_hard] is what the processor detection of
    [lzcnt.inc] answers. *)
Definition arch_init (has_lzcnt_hard : bool) (c : ctx_t) : ctx_t :=
  {| lzcnt_ptr :=
       Some (if has_lzcnt_hard then lzcnt32_hard else lzcnt32_soft) |}.

(** [arch_clean()]. *)
Definition arch_clean (c : ctx_t) : ctx_t := {| lzcnt_ptr := None |}.

(** [(uint32_t) x]. *)
Definition to_uint32 (x : Z) : Z := x mod 2 ^ 32.

(** [arch_lzcnt(x)] for a digit of [WSIZE] bits: the bound implementation
    on the low 32 bits of [x], minus [8 * sizeof(uint32_t) - WSIZE], as an
    unsigned 32-bit result; [None] when nothing is bound. *)
Definition arch_lzcnt (WSIZE : Z) (c : ctx_t) (x : Z) : option Z :=
  match lzcnt_ptr c with
  | Some f => Some (to_uint32 (f (to_uint32 x) - (8 * 4 - WSIZE)))
  | None => None
  end.

End Arch.

(* ================================================================== *)
(** ** Digit arithmetic: carries                                       *)
(* ================================================================== *)

Module DigFacts.
Import Dig.

Section Carries.
Variable w : Z.
Hypothesis Hw : 0 < w.

Lemma radix_gt1 : 1 < radix w.
Proof.
  unfold radix. change 1 with (2 ^ 0). apply Z.pow_lt_mono_r; lia.
Qed.

Lemma is_dig_0 : is_dig w 0.
Proof. pose proof radix_gt1. unfold is_dig. lia. Qed.

Lemma is_dig_ltw x y : is_dig w (ltw x y).
Proof.
  pose proof radix_gt1. unfold is_dig, ltw. destruct (x <? y); lia.
Qed.

Lemma ltw_01 x y : ltw x y = 0 \/ ltw x y = 1.
Proof. unfold ltw. destruct (x <? y); auto. Qed.

Lemma is_dig_wadd x y : is_dig w (wadd w x y).
Proof.
  pose proof radix_gt1. unfold is_dig, wadd. apply Z.mod_pos_bound. lia.
Qed.

(** A truncated sum either did not wrap, or wrapped exactly once. *)
Lemma wadd_cases x y :
  is_dig w x -> is_dig w y ->
  (wadd w x y = x + y /\ x + y < radix w) \/
  (wadd w x y = x + y - radix w /\ radix w <= x + y).
Proof.
  unfold is_dig, wadd. intros Hx Hy.
  destruct (Z_lt_dec (x + y) (radix w)) as [Hlt | Hge].
  - left. split; [apply Z.mod_small; lia | lia].
  - right. split; [| lia].
    replace (x + y) with ((x + y - radix w) + 1 * radix w) at 1 by ring.
    rewrite Z.mod_add by lia. apply Z.mod_small. lia.
Qed.

(** The carry out of [x + y] is recovered by comparing the truncated sum
    with the first operand ... *)
Lemma add_carry_l x y :
  is_dig w x -> is_dig w y ->
  wadd w x y + radix w * ltw (wadd w x y) x = x + y.
Proof.
  intros Hx Hy. destruct (wadd_cases x y Hx Hy) as [[E H] | [E H]];
    rewrite E; unfold ltw, is_dig in *.
  - destruct (x + y <? x) eqn:C; [apply Z.ltb_lt in C | ]; lia.
  - destruct (x + y - radix w <? x) eqn:C; [| apply Z.ltb_ge in C]; lia.
Qed.

(** ... or with the second. *)
Lemma add_carry_r x y :
  is_dig w x -> is_dig w y ->
  wadd w x y + radix w * ltw (wadd w x y) y = x + y.
Proof.
  intros Hx Hy. destruct (wadd_cases x y Hx Hy) as [[E H] | [E H]];
    rewrite E; unfold ltw, is_dig in *.
  - destruct (x + y <? y) eqn:C; [apply Z.ltb_lt in C | ]; lia.
  - destruct (x + y - radix w <? y) eqn:C; [| apply Z.ltb_ge in C]; lia.
Qed.

(** Doubling the high word of a product, plus the carry of the low word:
    the lost bit is [s < h], because [h <= radix - 2]. *)
Lemma double_carry h k :
  0 <= h <= radix w - 2 -> (k = 0 \/ k = 1) ->
  let s := wadd w (wadd w h h) k in
  s + radix w * ltw s h = 2 * h + k.
Proof.
  intros Hh Hk s.
  assert (Es : s = (2 * h + k) mod radix w).
  { unfold s, wadd. rewrite Z.add_mod_idemp_l by lia. f_equal. lia. }
  pose proof radix_gt1 as HB.
  destruct (Z_lt_dec (2 * h + k) (radix w)) as [Hlt | Hge].
  - rewrite Z.mod_small in Es by lia. rewrite Es. unfold ltw.
    destruct (2 * h + k <? h) eqn:C; [apply Z.ltb_lt in C |]; lia.
  - replace (2 * h + k) with ((2 * h + k - radix w) + 1 * radix w) in Es
      by ring.
    rewrite Z.mod_add, Z.mod_small in Es by lia. rewrite Es. unfold ltw.
    destruct (2 * h + k - radix w <? h) eqn:C;
      [| apply Z.ltb_ge in C]; lia.
Qed.

(** The two words of a digit product. *)
Lemma mul_dig_spec a b :
  is_dig w a -> is_dig w b ->
  let '(h, l) := BnSqr.RLC_MUL_DIG w a b in
  a * b = l + radix w * h /\ is_dig w l /\ 0 <= h <= radix w - 2.
Proof.
  unfold is_dig, BnSqr.RLC_MUL_DIG. intros Ha Hb.
  pose proof radix_gt1 as HB.
  pose proof (Z.div_mod (a * b) (radix w) ltac:(lia)) as E.
  pose proof (Z.mod_pos_bound (a * b) (radix w) ltac:(lia)) as Hl.
  assert (Hab : 0 <= a * b <= (radix w - 1) * (radix w - 1)) by nia.
  split; [lia |]. split; [exact Hl |].
  split; [apply Z.div_pos; lia |].
  assert (a * b / radix w < radix w - 1); [| lia].
  apply Z.div_lt_upper_bound; nia.
Qed.

(** A value below [radix^2] plus a multiple of [radix^2], reduced modulo
    [radix^3]. *)
Lemma mod_cube X Y :
  0 <= X < radix w * radix w ->
  (X + radix w * radix w * Y) mod (radix w * radix w * radix w)
  = X + radix w * radix w * (Y mod radix w).
Proof.
  intros HX. pose proof radix_gt1 as HB.
  pose proof (Z.div_mod Y (radix w) ltac:(lia)) as E.
  pose proof (Z.mod_pos_bound Y (radix w) ltac:(lia)) as Hm.
  set (q := Y / radix w) in *. set (m := Y mod radix w) in *.
  replace (X + radix w * radix w * Y)
    with ((X + radix w * radix w * m)
          + q * (radix w * radix w * radix w)) by (rewrite E at 1; ring).
  rewrite Z.mod_add by nia. apply Z.mod_small. nia.
Qed.

End Carries.
End DigFacts.

(* ================================================================== *)
(** ** Digit windows                                                  *)
(* ================================================================== *)

(** Arithmetic of digit windows. *)
Module Window.

Lemma low_plus P a y : 0 < P -> 0 <= a < P -> (a + P * y) mod P = a.
Proof.
  intros HP Ha. rewrite (Z.mul_comm P y), Z.mod_add by lia.
  apply Z.mod_small, Ha.
Qed.

Lemma high_plus P a y : 0 < P -> 0 <= a < P -> (a + P * y) / P = y.
Proof.
  intros HP Ha. rewrite (Z.mul_comm P y), Z.div_add by lia.
  rewrite Z.div_small by exact Ha. reflexivity.
Qed.

Lemma mod_plus P m a y :
  0 < P -> 0 < m -> 0 <= a < P ->
  (a + P * y) mod (P * m) = a + P * (y mod m).
Proof.
  intros HP Hm Ha. rewrite Z.rem_mul_r by lia.
  rewrite low_plus, high_plus by assumption. reflexivity.
Qed.

Lemma div_plus P m a y :
  0 < P -> 0 < m -> 0 <= a < P -> (a + P * y) / (P * m) = y / m.
Proof.
  intros HP Hm Ha. rewrite <- Z.div_div by lia.
  rewrite high_plus by assumption. reflexivity.
Qed.

(** The normalisation at the end of [fp2_mulc_low], on the value [v] of
    the array: [P] is the weight of digit [FP_DIGS - 1], [4 * r4] the
    radix, [p] the prime. *)
Lemma normalize_arith P r4 p v :
  0 < P -> 0 < r4 -> 0 <= p < P * (4 * r4) ->
  let r := 4 * r4 in
  let R := P * r in
  let M := r * R in
  let D := P * M in
  let v1 := v mod P + P * ((((v / P) mod M * 2 ^ 2) mod M) mod M)
            + D * (v / D) in
  let v2 := v1 mod R + R * ((((v1 / R) mod R + p mod R) mod R) mod R)
            + D * (v1 / D) in
  let v3 := v2 mod P + P * ((((v2 / P) mod M) / 2 ^ 2) mod M)
            + D * (v2 / D) in
  v3 mod D = (v mod D + p * (P * r4)) mod (P * (r4 * R)).
Proof.
  intros HP Hr4 Hp r R M D.
  assert (Hr : 0 < r) by (unfold r; lia).
  assert (HR : 0 < R) by (unfold R; nia).
  assert (HM : 0 < M) by (unfold M; nia).
  assert (HD : 0 < D) by (unfold D; nia).
  change (2 ^ 2) with 4.
  set (L := v mod P). set (Y := v / P).
  assert (HL : 0 <= L < P) by (apply Z.mod_pos_bound; lia).
  assert (Ev : v = L + P * Y).
  { unfold L, Y. pose proof (Z.div_mod v P ltac:(lia)). lia. }
  set (H := Y mod M). set (U := Y / M).
  assert (HH : 0 <= H < M) by (apply Z.mod_pos_bound; lia).
  assert (EU : v / D = U).
  { unfold D. rewrite Ev at 1. rewrite div_plus by lia. reflexivity. }
  assert (EvD : v mod D = L + P * H).
  { unfold D. rewrite Ev at 1. rewrite mod_plus by lia. reflexivity. }
  (* the shifted window *)
  set (H1 := (H * 4) mod M).
  assert (HH1 : 0 <= H1 < M) by (apply Z.mod_pos_bound; lia).
  rewrite (Z.mod_small H1 M) by exact HH1.
  rewrite EU. intros v1.
  set (h0 := H1 mod r). set (hh1 := H1 / r).
  assert (Hh0 : 0 <= h0 < r) by (apply Z.mod_pos_bound; lia).
  assert (EH1 : H1 = h0 + r * hh1).
  { unfold h0, hh1. pose proof (Z.div_mod H1 r ltac:(lia)). lia. }
  assert (Hhh1 : 0 <= hh1 < R).
  { unfold hh1. split; [apply Z.div_pos; lia |].
    apply Z.div_lt_upper_bound; [lia |]. fold M. lia. }
  assert (Ev1 : v1 = (L + P * h0) + R * (hh1 + R * U)).
  { unfold v1, D, M, R. rewrite EH1. ring. }
  assert (HLh : 0 <= L + P * h0 < R) by (unfold R; nia).
  assert (E1lo : v1 mod R = L + P * h0)
    by (rewrite Ev1; apply low_plus; lia).
  assert (E1hi : (v1 / R) mod R = hh1).
  { rewrite Ev1, high_plus by lia. apply low_plus; lia. }
  assert (E1D : v1 / D = U).
  { replace D with (R * R) by (unfold D, M, R; ring).
    rewrite Ev1, div_plus by lia. apply high_plus; lia. }
  rewrite E1lo, E1hi, E1D.
  rewrite (Z.mod_small p R) by (unfold R, r; lia).
  rewrite Z.mod_mod by lia.
  set (hh2 := (hh1 + p) mod R).
  assert (Hhh2 : 0 <= hh2 < R) by (apply Z.mod_pos_bound; lia).
  intros v2.
  set (H2 := h0 + r * hh2).
  assert (HH2 : 0 <= H2 < M) by (unfold H2, M; nia).
  assert (Ev2 : v2 = L + P * (H2 + M * U)).
  { unfold v2, H2, D, M, R. ring. }
  assert (E2lo : v2 mod P = L) by (rewrite Ev2; apply low_plus; lia).
  assert (E2w : (v2 / P) mod M = H2).
  { rewrite Ev2, high_plus by lia. apply low_plus; lia. }
  assert (E2D : v2 / D = U).
  { unfold D. rewrite Ev2, div_plus by lia. apply high_plus; lia. }
  rewrite E2lo, E2w, E2D.
  assert (HH3 : 0 <= H2 / 4 < M).
  { split; [apply Z.div_pos; lia |].
    apply Z.div_lt_upper_bound; lia. }
  rewrite (Z.mod_small (H2 / 4) M) by exact HH3.
  intros v3.
  assert (Ev3 : v3 mod D = L + P * (H2 / 4)).
  { unfold v3, D.
    replace (L + P * (H2 / 4) + P * M * U)
      with (L + P * (H2 / 4 + M * U)) by ring.
    rewrite mod_plus, low_plus by lia. reflexivity. }
  rewrite Ev3.
  (* the window before the final shift is four times the sum *)
  assert (EH2 : H2 = 4 * ((H + r4 * p) mod (r4 * R))).
  { unfold H2, hh2.
    rewrite <- (mod_plus r R h0 (hh1 + p)) by lia.
    replace (h0 + r * (hh1 + p)) with (H1 + r * p) by (rewrite EH1; ring).
    unfold H1. fold M. rewrite Z.add_mod_idemp_l by lia.
    replace (H * 4 + r * p) with (4 * (H + r4 * p)) by (unfold r; ring).
    replace M with (4 * (r4 * R)) by (unfold M, r; ring).
    apply Z.mul_mod_distr_l; nia. }
  rewrite EH2.
  rewrite (Z.mul_comm 4 ((H + r4 * p) mod (r4 * R))), Z.div_mul by lia.
  rewrite EvD.
  replace (L + P * H + p * (P * r4)) with (L + P * (H + r4 * p)) by ring.
  assert (Hm4 : 0 < r4 * R) by (apply Z.mul_pos_pos; lia).
  rewrite (mod_plus P (r4 * R) L (H + r4 * p) HP Hm4 HL). reflexivity.
Qed.

End Window.

(* ================================================================== *)
(** ** Comba squaring: proofs                                         *)
(* ================================================================== *)

Module SqrFacts.
Import Dig BnSqr SqrSpec DigFacts.

Section Comba.
Variable w : Z.
Hypothesis Hw : 0 < w.

Local Abbreviation val3 := (SqrSpec.val3 w).
Local Abbreviation reg_ok := (SqrSpec.reg_ok w).
Local Abbreviation cube := (SqrSpec.cube w).
Local Abbreviation psum := (SqrSpec.psum w).
Local Abbreviation digits := (SqrSpec.digits w).
Local Abbreviation Inv := (SqrSpec.Inv w).
Local Abbreviation row := (SqrSpec.row w).
Local Abbreviation SqraInv := (SqrSpec.SqraInv w).

Lemma val3_bounds r : reg_ok r -> 0 <= val3 r < cube.
Proof.
  destruct r as [[R2 R1] R0]. unfold reg_ok, val3, cube, is_dig.
  pose proof (radix_gt1 w Hw). nia.
Qed.

Lemma wadd3 x k1 k2 k3 :
  wadd w (wadd w (wadd w x k1) k2) k3 = (x + (k1 + k2 + k3)) mod radix w.
Proof.
  pose proof (radix_gt1 w Hw). unfold wadd.
  rewrite Z.add_mod_idemp_l by lia. rewrite <- Z.add_assoc.
  rewrite Z.add_mod_idemp_l by lia. f_equal; ring.
Qed.

Lemma wadd2 x k1 k2 :
  wadd w (wadd w x k1) k2 = (x + (k1 + k2)) mod radix w.
Proof.
  pose proof (radix_gt1 w Hw). unfold wadd.
  rewrite !Z.add_mod_idemp_l by lia. f_equal; ring.
Qed.

(** One paired step adds the doubled product into the register, modulo
    [radix^3]. *)
Lemma COMBA_STEP_SQR_spec r a b :
  reg_ok r -> is_dig w a -> is_dig w b ->
  reg_ok (COMBA_STEP_SQR w r a b) /\
  val3 (COMBA_STEP_SQR w r a b) = (val3 r + 2 * (a * b)) mod cube.
Proof.
  destruct r as [[R2 R1] R0]. intros (H2 & H1 & H0) Ha Hb.
  pose proof (mul_dig_spec w Hw a b Ha Hb) as Hm.
  unfold COMBA_STEP_SQR. destruct (RLC_MUL_DIG w a b) as [h l].
  destruct Hm as (Eab & Hl & Hh).
  set (s0 := wadd w l l).
  set (k0 := ltw s0 l).
  set (s1 := wadd w (wadd w h h) k0).
  set (k3 := ltw s1 h).
  set (R0' := wadd w R0 s0).
  set (k1 := ltw R0' s0).
  set (R1a := wadd w R1 k1).
  set (k2 := ltw R1a R1).
  set (R1b := wadd w R1a s1).
  set (k4 := ltw R1b s1).
  assert (Ds0 : is_dig w s0) by apply (is_dig_wadd w Hw).
  assert (Ds1 : is_dig w s1) by apply (is_dig_wadd w Hw).
  assert (DR0 : is_dig w R0') by apply (is_dig_wadd w Hw).
  assert (DR1a : is_dig w R1a) by apply (is_dig_wadd w Hw).
  assert (DR1b : is_dig w R1b) by apply (is_dig_wadd w Hw).
  pose proof (add_carry_l w l l Hl Hl) as E0. fold s0 k0 in E0.
  pose proof (double_carry w Hw h k0 Hh (ltw_01 _ _)) as E1.
  cbv zeta in E1. fold s1 k3 in E1.
  pose proof (add_carry_r w R0 s0 H0 Ds0) as E2. fold R0' k1 in E2.
  pose proof (add_carry_l w R1 k1 H1 (is_dig_ltw w Hw _ _)) as E3.
  fold R1a k2 in E3.
  pose proof (add_carry_r w R1a s1 DR1a Ds1) as E4. fold R1b k4 in E4.
  split.
  - repeat split; try apply (is_dig_wadd w Hw); apply DR0 || apply DR1b.
  - unfold val3. rewrite wadd3.
    replace (R0 + radix w * R1 + radix w * radix w * R2 + 2 * (a * b))
      with ((R0' + radix w * R1b)
            + radix w * radix w * (R2 + (k2 + k4 + k3))).
    2:{ rewrite Eab.
        transitivity (R0 + radix w * R1 + radix w * radix w * R2
                      + (s0 + radix w * k0) + radix w * (2 * h));
          [| rewrite E0; ring].
        transitivity (R0 + radix w * R1 + radix w * radix w * R2
                      + s0 + radix w * (s1 + radix w * k3));
          [| rewrite E1; ring].
        transitivity ((R0' + radix w * k1) + radix w * R1
                      + radix w * radix w * R2
                      + radix w * (s1 + radix w * k3));
          [| rewrite E2; ring].
        transitivity (R0' + radix w * (R1a + radix w * k2)
                      + radix w * radix w * R2
                      + radix w * (s1 + radix w * k3));
          [| rewrite E3; ring].
        transitivity (R0' + radix w * (R1b + radix w * k4)
                      + radix w * radix w * (R2 + k2 + k3));
          [ring | rewrite E4; ring]. }
    unfold cube. rewrite (mod_cube w Hw); [reflexivity |].
    unfold is_dig in *. pose proof (radix_gt1 w Hw). nia.
Qed.

(** The unpaired (diagonal) step adds the square of one digit. *)
Lemma COMBA_FINAL_spec r a :
  reg_ok r -> is_dig w a ->
  reg_ok (COMBA_FINAL w r a) /\
  val3 (COMBA_FINAL w r a) = (val3 r + a * a) mod cube.
Proof.
  destruct r as [[R2 R1] R0]. intros (H2 & H1 & H0) Ha.
  pose proof (mul_dig_spec w Hw a a Ha Ha) as Hm.
  unfold COMBA_FINAL. destruct (RLC_MUL_DIG w a a) as [h l].
  destruct Hm as (Eab & Hl & Hh).
  set (R0' := wadd w R0 l).
  set (k1 := ltw R0' l).
  set (R1a := wadd w R1 k1).
  set (k2 := ltw R1a R1).
  set (R1b := wadd w R1a h).
  set (k4 := ltw R1b h).
  assert (Dh : is_dig w h) by (unfold is_dig; lia).
  assert (DR0 : is_dig w R0') by apply (is_dig_wadd w Hw).
  assert (DR1a : is_dig w R1a) by apply (is_dig_wadd w Hw).
  assert (DR1b : is_dig w R1b) by apply (is_dig_wadd w Hw).
  pose proof (add_carry_r w R0 l H0 Hl) as E2. fold R0' k1 in E2.
  pose proof (add_carry_l w R1 k1 H1 (is_dig_ltw w Hw _ _)) as E3.
  fold R1a k2 in E3.
  pose proof (add_carry_r w R1a h DR1a Dh) as E4. fold R1b k4 in E4.
  split.
  - repeat split; try apply (is_dig_wadd w Hw); apply DR0 || apply DR1b.
  - unfold val3. rewrite wadd2.
    replace (R0 + radix w * R1 + radix w * radix w * R2 + a * a)
      with ((R0' + radix w * R1b)
            + radix w * radix w * (R2 + (k2 + k4))).
    2:{ rewrite Eab.
        transitivity ((R0' + radix w * k1) + radix w * R1
                      + radix w * radix w * R2 + radix w * h);
          [| rewrite E2; ring].
        transitivity (R0' + radix w * (R1a + radix w * k2)
                      + radix w * radix w * R2 + radix w * h);
          [| rewrite E3; ring].
        transitivity (R0' + radix w * (R1b + radix w * k4)
                      + radix w * radix w * (R2 + k2));
          [ring | rewrite E4; ring]. }
    unfold cube. rewrite (mod_cube w Hw); [reflexivity |].
    unfold is_dig in *. pose proof (radix_gt1 w Hw). nia.
Qed.

(** *** Finite sums and the coefficients of a product *)

Lemma sumn_ext f g n :
  (forall t, (t < n)%nat -> f t = g t) -> sumn f n = sumn g n.
Proof.
  induction n as [| n IH]; intros H; simpl; [reflexivity |].
  rewrite IH by (intros; apply H; lia). rewrite H by lia. reflexivity.
Qed.

Lemma sumn_zero f n :
  (forall t, (t < n)%nat -> f t = 0) -> sumn f n = 0.
Proof.
  induction n as [| n IH]; intros H; simpl; [reflexivity |].
  rewrite IH by (intros; apply H; lia). rewrite H by lia. reflexivity.
Qed.

Lemma sumn_head f n :
  sumn f (S n) = f 0%nat + sumn (fun t => f (S t)) n.
Proof.
  induction n as [| n IH]; [simpl; ring |].
  change (sumn f (S (S n))) with (sumn f (S n) + f (S n)).
  rewrite IH. simpl. ring.
Qed.

Lemma sumn_app f p q :
  sumn f (p + q) = sumn f p + sumn (fun t => f (p + t)%nat) q.
Proof.
  induction q as [| q IH]; simpl.
  - rewrite Nat.add_0_r. ring.
  - rewrite Nat.add_succ_r. simpl. rewrite IH. ring.
Qed.

Lemma sumn_scale c f n : sumn (fun t => c * f t) n = c * sumn f n.
Proof. induction n as [| n IH]; simpl; [ring | rewrite IH; ring]. Qed.

Lemma sumn_bounds f n M :
  (forall t, (t < n)%nat -> 0 <= f t <= M) ->
  0 <= sumn f n <= Z.of_nat n * M.
Proof.
  induction n as [| n IH]; intros H; [simpl; lia |].
  specialize (IH ltac:(intros; apply H; lia)).
  specialize (H n ltac:(lia)).
  change (sumn f (S n)) with (sumn f n + f n). nia.
Qed.

(** A sum whose terms are symmetric about the middle is twice its first
    half, plus the middle term when the number of terms is odd. *)
Lemma sumn_symmetric : forall m f,
  (forall t, (t < m)%nat -> f t = f (m - 1 - t)%nat) ->
  sumn f m
  = 2 * sumn f (m / 2) + (if Nat.odd m then f (m / 2)%nat else 0).
Proof.
  induction m as [m IH] using (well_founded_induction lt_wf).
  intros f Hsym.
  destruct m as [| [| m]]; [reflexivity | simpl; ring |].
  change (sumn f (S (S m))) with (sumn f (S m) + f (S m)).
  rewrite sumn_head.
  rewrite (IH m ltac:(lia) (fun t => f (S t))).
  2:{ intros t Ht. rewrite (Hsym (S t)) by lia. f_equal. lia. }
  replace (S (S m) / 2)%nat with (S (m / 2)).
  2:{ change (S (S m)) with (1 * 2 + m)%nat.
      rewrite Nat.div_add_l by lia. lia. }
  rewrite sumn_head.
  replace (f (S m)) with (f 0%nat) by (rewrite (Hsym 0%nat) by lia; f_equal; lia).
  change (Nat.odd (S (S m))) with (Nat.odd m).
  ring.
Qed.

Lemma psum_ext : forall K f g,
  (forall k, (k < K)%nat -> f k = g k) -> psum f K = psum g K.
Proof.
  induction K as [| K IH]; intros f g H; simpl; [reflexivity |].
  rewrite (H 0%nat) by lia. f_equal. f_equal.
  apply IH. intros; apply H; lia.
Qed.

Lemma psum_zero : forall K f,
  (forall k, (k < K)%nat -> f k = 0) -> psum f K = 0.
Proof.
  induction K as [| K IH]; intros f H; simpl; [reflexivity |].
  rewrite (H 0%nat) by lia. rewrite IH; [ring |].
  intros; apply H; lia.
Qed.

Lemma psum_add : forall K f g,
  psum (fun k => f k + g k) K = psum f K + psum g K.
Proof.
  induction K as [| K IH]; intros f g; simpl; [ring |].
  rewrite IH. ring.
Qed.

Lemma psum_scale : forall K c f,
  psum (fun k => c * f k) K = c * psum f K.
Proof.
  induction K as [| K IH]; intros c f; simpl; [ring |].
  rewrite IH. ring.
Qed.

Lemma psum_snoc : forall K f,
  psum f (S K) = psum f K + f K * radix w ^ Z.of_nat K.
Proof.
  induction K as [| K IH]; intros f.
  - simpl. ring.
  - change (psum f (S (S K)))
      with (f 0%nat + radix w * psum (fun k => f (S k)) (S K)).
    rewrite IH. simpl psum. rewrite Nat2Z.inj_succ, Z.pow_succ_r by lia.
    ring.
Qed.

Lemma psum_nth : forall y K,
  (length y <= K)%nat -> psum (fun k => nth k y 0) K = value w y.
Proof.
  induction y as [| d y IH]; intros K HK.
  - simpl value. apply psum_zero. intros k _. destruct k; reflexivity.
  - destruct K as [| K]; [simpl in HK; lia |].
    simpl. rewrite IH by (simpl in HK; lia). reflexivity.
Qed.

(** The coefficients of the product sum up to the product of the values. *)
Lemma psum_conv : forall x y K,
  (length x + length y <= K)%nat ->
  psum (conv x y) K = value w x * value w y.
Proof.
  induction x as [| x0 xs IH]; intros y K HK.
  - simpl value. rewrite Z.mul_0_l. apply psum_zero. reflexivity.
  - destruct K as [| K]; [simpl in HK; lia |].
    simpl in HK.
    change (psum (conv (x0 :: xs) y) (S K))
      with ((x0 * nth 0 y 0 + 0)
            + radix w * psum (fun k => conv (x0 :: xs) y (S k)) K).
    rewrite (psum_ext K _ (fun k => x0 * nth (S k) y 0 + conv xs y k))
      by reflexivity.
    rewrite psum_add, psum_scale, IH by lia.
    pose proof (psum_nth y (S K) ltac:(lia)) as Hy. simpl psum in Hy.
    simpl value. rewrite <- Hy. ring.
Qed.

(** The same coefficient as an explicit sum over index pairs. *)
Lemma conv_sum : forall x y k,
  conv x y k = sumn (fun j => nth j x 0 * nth (k - j) y 0) (S k).
Proof.
  induction x as [| x0 xs IH]; intros y k.
  - simpl conv. symmetry. apply sumn_zero. intros t _.
    destruct t; reflexivity.
  - rewrite sumn_head. simpl conv. rewrite Nat.sub_0_r. f_equal.
    destruct k as [| k]; [reflexivity |].
    rewrite IH. apply sumn_ext. intros t Ht. reflexivity.
Qed.

Lemma digits_nth a i : digits a -> is_dig w (nth i a 0).
Proof.
  intros Ha. destruct (Nat.lt_ge_cases i (length a)) as [Hi | Hi].
  - apply (proj1 (Forall_forall _ _) Ha). apply nth_In. exact Hi.
  - rewrite nth_overflow by exact Hi. apply (is_dig_0 w Hw).
Qed.

Lemma conv_bounds : forall x y k,
  digits x -> digits y ->
  0 <= conv x y k <= Z.of_nat (length x) * ((radix w - 1) * (radix w - 1)).
Proof.
  induction x as [| x0 xs IH]; intros y k Hx Hy.
  - simpl. lia.
  - inversion Hx as [| ? ? Hx0 Hxs]; subst.
    pose proof (digits_nth y k Hy) as Hyk. unfold is_dig in *.
    assert (0 <= x0 * nth k y 0 <= (radix w - 1) * (radix w - 1)) by nia.
    simpl conv. simpl length. rewrite Nat2Z.inj_succ.
    destruct k as [| k].
    + nia.
    + specialize (IH y k Hxs Hy). nia.
Qed.

(** *** The loops of [bn_sqrn_low] *)

Lemma add_mod_cube x y z :
  ((x + y) mod cube + z) mod cube = (x + (y + z)) mod cube.
Proof.
  assert (0 < cube) by (unfold cube; pose proof (radix_gt1 w Hw); nia).
  rewrite Z.add_mod_idemp_l by lia. f_equal; ring.
Qed.

(** The inner loop adds the doubled products of [n] index pairs, walking
    [tmpa] up and [tmpb] down. *)
Lemma comba_inner_spec a : digits a ->
  forall n ia ib r, reg_ok r ->
  reg_ok (fst (comba_inner w a n ia ib r)) /\
  snd (comba_inner w a n ia ib r) = (ia + n)%nat /\
  val3 (fst (comba_inner w a n ia ib r))
  = (val3 r
     + 2 * sumn (fun t => nth (ia + t) a 0 * nth (ib - t) a 0) n) mod cube.
Proof.
  intros Ha. induction n as [| n IH]; intros ia ib r Hr.
  - cbn [comba_inner fst snd sumn]. split; [exact Hr |]. split; [lia |].
    rewrite Z.mul_0_r, Z.add_0_r. symmetry. apply Z.mod_small.
    apply val3_bounds, Hr.
  - cbn [comba_inner].
    destruct (COMBA_STEP_SQR_spec r (nth ia a 0) (nth ib a 0) Hr
                (digits_nth a ia Ha) (digits_nth a ib Ha)) as [Hr' Ev].
    destruct (IH (S ia) (Nat.pred ib) _ Hr') as (Hok & Hta & Hval).
    split; [exact Hok |]. split; [lia |].
    rewrite Hval, Ev, add_mod_cube. f_equal. f_equal.
    rewrite sumn_head, Nat.add_0_r, Nat.sub_0_r.
    rewrite Z.mul_add_distr_l. f_equal. f_equal.
    apply sumn_ext. intros t _. f_equal; f_equal; lia.
Qed.

Lemma half_succ_even i : Nat.even i = true -> ((i + 1) / 2 = i / 2)%nat.
Proof.
  intros H. apply Nat.even_spec in H. destruct H as [q ->].
  replace (2 * q + 1)%nat with (1 + q * 2)%nat by lia.
  rewrite Nat.div_add by lia. rewrite Nat.mul_comm, Nat.div_mul by lia.
  reflexivity.
Qed.

Lemma twice_half_even i : Nat.even i = true -> (i - i / 2 = i / 2)%nat.
Proof.
  intros H. apply Nat.even_spec in H. destruct H as [q ->].
  rewrite Nat.mul_comm, Nat.div_mul by lia. lia.
Qed.

(** Column [i] of the first pass holds coefficient [i] of the square. *)
Lemma column_lo_sum a i :
  conv a a i
  = 2 * sumn (fun t => nth (0 + t) a 0 * nth (i - t) a 0) ((i + 1) / 2)
    + (if Nat.even i
       then nth (0 + (i + 1) / 2) a 0 * nth (0 + (i + 1) / 2) a 0 else 0).
Proof.
  rewrite conv_sum.
  rewrite (sumn_symmetric (S i) (fun j => nth j a 0 * nth (i - j) a 0)).
  2:{ intros t Ht. rewrite Z.mul_comm. f_equal; f_equal; lia. }
  replace (S i) with (i + 1)%nat by lia.
  replace (Nat.odd (i + 1)) with (Nat.even i)
    by (rewrite Nat.add_1_r, Nat.odd_succ; reflexivity).
  cbn [Nat.add]. f_equal.
  destruct (Nat.even i) eqn:E; [| reflexivity].
  rewrite (half_succ_even i E), (twice_half_even i E). reflexivity.
Qed.

(** Column [size + i] of the second pass holds coefficient [size + i]. *)
Lemma column_hi_sum a i :
  (i < length a)%nat ->
  conv a a (length a + i)
  = 2 * sumn (fun t => nth (i + 1 + t) a 0 * nth (length a - 1 - t) a 0)
        ((length a - 1 - i) / 2)
    + (if Nat.even (length a - i)
       then nth (i + 1 + (length a - 1 - i) / 2) a 0
            * nth (i + 1 + (length a - 1 - i) / 2) a 0
       else 0).
Proof.
  intros Hi. set (n := length a) in *. rewrite conv_sum.
  set (m := (n - 1 - i)%nat).
  replace (S (n + i)) with ((i + 1) + (m + (i + 1)))%nat by lia.
  rewrite sumn_app.
  rewrite sumn_zero.
  2:{ intros t Ht. rewrite (nth_overflow a (n := n + i - t)) by (fold n; lia).
      ring. }
  rewrite sumn_app.
  rewrite (sumn_zero _ (i + 1)).
  2:{ intros t Ht. rewrite (nth_overflow a (n := i + 1 + (m + t)))
        by (fold n; lia). ring. }
  rewrite Z.add_0_l, Z.add_0_r.
  rewrite (sumn_ext _
             (fun t => nth (i + 1 + t) a 0 * nth (n - 1 - t) a 0) m).
  2:{ intros t Ht. f_equal; f_equal; lia. }
  rewrite sumn_symmetric.
  2:{ intros t Ht. rewrite Z.mul_comm. f_equal; f_equal; lia. }
  f_equal.
  replace (n - i)%nat with (S m) by lia. rewrite Nat.even_succ.
  destruct (Nat.odd m) eqn:E; [| reflexivity].
  f_equal. f_equal.
  apply Nat.odd_spec in E. destruct E as [q Eq]. rewrite Eq.
  replace (2 * q + 1)%nat with (1 + q * 2)%nat by lia.
  rewrite Nat.div_add by lia. simpl Nat.div. lia.
Qed.

Lemma value_snoc c d :
  value w (c ++ [d]) = value w c + radix w ^ Z.of_nat (length c) * d.
Proof.
  induction c as [| x c IH]; [cbn [app value length Z.of_nat]; rewrite Z.pow_0_r; ring |].
  simpl app. simpl value. rewrite IH.
  simpl length. rewrite Nat2Z.inj_succ, Z.pow_succ_r by lia. ring.
Qed.

Lemma value_bounds c :
  digits c -> 0 <= value w c < radix w ^ Z.of_nat (length c).
Proof.
  pose proof (radix_gt1 w Hw) as HB.
  induction 1 as [| d c Hd Hc IH]; [simpl; lia |].
  simpl value. simpl length. rewrite Nat2Z.inj_succ, Z.pow_succ_r by lia.
  unfold is_dig in Hd. nia.
Qed.

(** Closing a column whose register received coefficient [k]. *)
Lemma emit_inv a k r c r1 :
  digits a -> Z.of_nat (length a) <= radix w ->
  Inv a k (r, c) -> reg_ok r1 ->
  val3 r1 = (val3 r + conv a a k) mod cube ->
  Inv a (S k) (emit r1 c).
Proof.
  intros Ha Hn (Hlen & Hc & Hr & Htop & Hval) Hr1 E.
  pose proof (radix_gt1 w Hw) as HB.
  pose proof (conv_bounds a a k Ha Ha) as Hcv.
  destruct r as [[R2 R1] R0]. simpl in Htop. subst R2.
  destruct Hr as (_ & H1 & H0).
  assert (Hsmall : 0 <= val3 (0, R1, R0) + conv a a k < cube).
  { unfold val3, cube, is_dig in *. nia. }
  rewrite Z.mod_small in E by exact Hsmall.
  destruct r1 as [[Q2 Q1] Q0]. destruct Hr1 as (G2 & G1 & G0).
  unfold emit, Inv. rewrite length_app. simpl length.
  split; [lia |]. split.
  { apply Forall_app. split; [exact Hc | constructor; [exact G0 | constructor]]. }
  split; [split; [apply (is_dig_0 w Hw) | split; assumption] |].
  split; [reflexivity |].
  rewrite value_snoc, psum_snoc, <- Hval, Hlen.
  rewrite Nat2Z.inj_succ, Z.pow_succ_r by lia.
  unfold val3 in *.
  transitivity (value w c
                + radix w ^ Z.of_nat k
                  * (Q0 + radix w * Q1 + radix w * radix w * Q2));
    [ring | rewrite E; ring].
Qed.

Lemma column_lo_inv a i r c :
  digits a -> Z.of_nat (length a) <= radix w ->
  Inv a i (r, c) -> Inv a (S i) (column_lo w a i r c).
Proof.
  intros Ha Hn HI. unfold column_lo.
  assert (Hr : reg_ok r) by (destruct HI as (_ & _ & Hr & _); exact Hr).
  destruct (comba_inner_spec a Ha ((i + 1) / 2) 0%nat i r Hr)
    as (Hok & Hta & Hval).
  destruct (comba_inner w a ((i + 1) / 2) 0 i r) as [r1 tmpa].
  simpl fst in *. simpl snd in *. subst tmpa.
  pose proof (column_lo_sum a i) as Hs.
  destruct (Nat.even i).
  - destruct (COMBA_FINAL_spec r1 _ Hok (digits_nth a (0 + (i + 1) / 2) Ha))
      as [Hok' Hval'].
    apply (emit_inv a i r c _ Ha Hn HI Hok').
    rewrite Hval', Hval, add_mod_cube, Hs. reflexivity.
  - apply (emit_inv a i r c _ Ha Hn HI Hok).
    rewrite Hval, Hs, Z.add_0_r. reflexivity.
Qed.

Lemma column_hi_inv a i r c :
  digits a -> Z.of_nat (length a) <= radix w -> (i < length a)%nat ->
  Inv a (length a + i) (r, c) ->
  Inv a (S (length a + i)) (column_hi w a (length a) i r c).
Proof.
  intros Ha Hn Hi HI. unfold column_hi.
  assert (Hr : reg_ok r) by (destruct HI as (_ & _ & Hr & _); exact Hr).
  destruct (comba_inner_spec a Ha ((length a - 1 - i) / 2) (i + 1)%nat
              (length a - 1)%nat r Hr) as (Hok & Hta & Hval).
  destruct (comba_inner w a ((length a - 1 - i) / 2) (i + 1)
              (length a - 1) r) as [r1 tmpa].
  simpl fst in *. simpl snd in *. subst tmpa.
  pose proof (column_hi_sum a i Hi) as Hs.
  destruct (Nat.even (length a - i)).
  - destruct (COMBA_FINAL_spec r1 _ Hok
                (digits_nth a (i + 1 + (length a - 1 - i) / 2) Ha))
      as [Hok' Hval'].
    apply (emit_inv a _ r c _ Ha Hn HI Hok').
    rewrite Hval', Hval, add_mod_cube, Hs. reflexivity.
  - apply (emit_inv a _ r c _ Ha Hn HI Hok).
    rewrite Hval, Hs, Z.add_0_r. reflexivity.
Qed.

Lemma columns_lo_inv a :
  digits a -> Z.of_nat (length a) <= radix w ->
  forall n i r c,
  Inv a i (r, c) -> Inv a (i + n) (columns (column_lo w a) n i r c).
Proof.
  intros Ha Hn. induction n as [| n IH]; intros i r c HI.
  - rewrite Nat.add_0_r. exact HI.
  - cbn [columns]. pose proof (column_lo_inv a i r c Ha Hn HI) as H1.
    destruct (column_lo w a i r c) as [r' c'].
    replace (i + S n)%nat with (S i + n)%nat by lia. apply IH, H1.
Qed.

Lemma columns_hi_inv a :
  digits a -> Z.of_nat (length a) <= radix w ->
  forall n i r c, (i + n <= length a)%nat ->
  Inv a (length a + i) (r, c) ->
  Inv a (length a + i + n)
    (columns (column_hi w a (length a)) n i r c).
Proof.
  intros Ha Hn. induction n as [| n IH]; intros i r c Hin HI.
  - rewrite Nat.add_0_r. exact HI.
  - cbn [columns].
    pose proof (column_hi_inv a i r c Ha Hn ltac:(lia) HI) as H1.
    destruct (column_hi w a (length a) i r c) as [r' c'].
    replace (length a + i + S n)%nat with (length a + S i + n)%nat by lia.
    apply IH; [lia |].
    replace (length a + S i)%nat with (S (length a + i)) by lia. exact H1.
Qed.

(** [bn_sqrn_low] writes the exact square, for any digit width and any
    length up to the radix. *)
Lemma bn_sqrn_low_value a :
  digits a -> Z.of_nat (length a) <= radix w ->
  length (bn_sqrn_low w a (length a)) = (2 * length a)%nat /\
  digits (bn_sqrn_low w a (length a)) /\
  value w (bn_sqrn_low w a (length a)) = value w a * value w a.
Proof.
  intros Ha Hn. unfold bn_sqrn_low.
  pose proof (radix_gt1 w Hw) as HB.
  assert (H0 : Inv a 0 ((0, 0, 0), [])).
  { unfold Inv. split; [reflexivity |]. split; [constructor |].
    split; [split; [| split]; apply (is_dig_0 w Hw) |].
    split; [reflexivity |]. cbn [value psum val3 Z.of_nat]. ring. }
  pose proof (columns_lo_inv a Ha Hn (length a) 0%nat _ _ H0) as H1.
  destruct (columns (column_lo w a) (length a) 0 (0, 0, 0) []) as [r c].
  simpl Nat.add in H1.
  pose proof (columns_hi_inv a Ha Hn (length a) 0%nat r c ltac:(lia)) as H2.
  rewrite Nat.add_0_r in H2. specialize (H2 H1).
  destruct (columns (column_hi w a (length a)) (length a) 0 r c) as [r' c'].
  destruct H2 as (Hlen & Hc & Hr & _ & Hval).
  rewrite psum_conv in Hval by lia.
  pose proof (value_bounds a Ha) as Hva.
  pose proof (value_bounds c' Hc) as Hvc.
  pose proof (val3_bounds r' Hr) as Hv3.
  rewrite Hlen in Hvc.
  assert (Hsq : value w a * value w a
                < radix w ^ Z.of_nat (length a + length a)).
  { rewrite Nat2Z.inj_add, Z.pow_add_r by lia. nia. }
  assert (Hz : val3 r' = 0) by nia.
  rewrite Hz in Hval.
  split; [lia |]. split; [exact Hc | lia].
Qed.

(** *** [bn_sqra_low] *)

Lemma length_set_nth : forall c i v, length (set_nth i v c) = length c.
Proof.
  induction c as [| d c IH]; intros [| i] v; simpl; auto.
Qed.

Lemma digits_set_nth : forall c i v,
  digits c -> is_dig w v -> digits (set_nth i v c).
Proof.
  induction c as [| d c IH]; intros [| i] v Hc Hv; simpl; auto;
    inversion Hc; subst; constructor; auto. apply IH; assumption.
Qed.

Lemma value_set_nth : forall c i v,
  (i < length c)%nat ->
  value w (set_nth i v c)
  = value w c + radix w ^ Z.of_nat i * (v - nth i c 0).
Proof.
  induction c as [| d c IH]; intros [| i] v Hi; simpl in Hi; try lia.
  - cbn [set_nth value nth Z.of_nat]. rewrite Z.pow_0_r. ring.
  - cbn [set_nth value nth]. rewrite IH by lia.
    rewrite Nat2Z.inj_succ, Z.pow_succ_r by lia. ring.
Qed.

Lemma value_firstn_succ : forall a i,
  (i < length a)%nat ->
  value w (firstn (S i) a)
  = value w (firstn i a) + radix w ^ Z.of_nat i * nth i a 0.
Proof.
  induction a as [| d a IH]; intros [| i] Hi; simpl in Hi; try lia.
  - cbn [firstn value nth Z.of_nat]. rewrite Z.pow_0_r. ring.
  - change (firstn (S (S i)) (d :: a)) with (d :: firstn (S i) a).
    cbn [value nth]. rewrite IH by lia.
    cbn [firstn value]. rewrite Nat2Z.inj_succ, Z.pow_succ_r by lia. ring.
Qed.

Lemma lor4_sum k1 k2 k3 k4 :
  (k1 = 0 \/ k1 = 1) -> (k2 = 0 \/ k2 = 1) -> (k3 = 0 \/ k3 = 1) ->
  (k4 = 0 \/ k4 = 1) -> k1 + k2 + k3 + k4 <= 1 ->
  lor (lor (lor k1 k2) k3) k4 = k1 + k2 + k3 + k4.
Proof.
  intros [-> | ->] [-> | ->] [-> | ->] [-> | ->] H;
    try reflexivity; exfalso; lia.
Qed.

Lemma sqra_step_inv c_in a i st :
  digits a -> (i < length a)%nat -> (i < length c_in)%nat ->
  SqraInv c_in a i st ->
  SqraInv c_in a (S i) (sqra_step w (nth 0 a 0) a i st).
Proof.
  intros Ha Hia Hic. destruct st as [[c c0] c1].
  intros (Hlen & Hc & Hc0 & Hc1 & Hval).
  pose proof (radix_gt1 w Hw) as HB.
  set (t := nth 0 a 0) in *.
  assert (Ht : is_dig w t) by apply (digits_nth a 0 Ha).
  pose proof (digits_nth a i Ha) as Hai.
  pose proof (digits_nth c i Hc) as Hci.
  pose proof (mul_dig_spec w Hw t (nth i a 0) Ht Hai) as Hm.
  unfold sqra_step. destruct (RLC_MUL_DIG w t (nth i a 0)) as [h l].
  destruct Hm as (Eab & Hl & Hh).
  set (r0 := wadd w l l). set (k0 := ltw r0 l).
  set (r1 := wadd w (wadd w h h) k0). set (kr := ltw r1 h).
  set (s0 := wadd w r0 c0). set (ks0 := ltw s0 r0).
  set (s1 := wadd w r1 ks0). set (ks1 := ltw s1 r1).
  set (t0 := wadd w s0 (nth i c 0)). set (kt0 := ltw t0 s0).
  set (t1 := wadd w s1 kt0). set (kt1 := ltw t1 s1).
  set (c0' := wadd w t1 c1). set (kc := ltw c0' c1).
  assert (Dr0 : is_dig w r0) by apply (is_dig_wadd w Hw).
  assert (Dr1 : is_dig w r1) by apply (is_dig_wadd w Hw).
  assert (Ds0 : is_dig w s0) by apply (is_dig_wadd w Hw).
  assert (Ds1 : is_dig w s1) by apply (is_dig_wadd w Hw).
  assert (Dt0 : is_dig w t0) by apply (is_dig_wadd w Hw).
  assert (Dt1 : is_dig w t1) by apply (is_dig_wadd w Hw).
  assert (Dc0' : is_dig w c0') by apply (is_dig_wadd w Hw).
  assert (Dc1 : is_dig w c1) by (unfold is_dig; lia).
  pose proof (add_carry_l w l l Hl Hl) as E0. fold r0 k0 in E0.
  pose proof (double_carry w Hw h k0 Hh (ltw_01 _ _)) as E1.
  cbv zeta in E1. fold r1 kr in E1.
  pose proof (add_carry_l w r0 c0 Dr0 Hc0) as E2. fold s0 ks0 in E2.
  pose proof (add_carry_l w r1 ks0 Dr1 (is_dig_ltw w Hw _ _)) as E3.
  fold s1 ks1 in E3.
  pose proof (add_carry_l w s0 _ Ds0 Hci) as E4. fold t0 kt0 in E4.
  pose proof (add_carry_l w s1 kt0 Ds1 (is_dig_ltw w Hw _ _)) as E5.
  fold t1 kt1 in E5.
  pose proof (add_carry_r w t1 c1 Dt1 Dc1) as E6. fold c0' kc in E6.
  assert (Etot : 2 * (t * nth i a 0) + c0 + nth i c 0 + radix w * c1
                 = t0 + radix w * c0'
                   + radix w * radix w * (kt1 + ks1 + kr + kc)).
  { rewrite Eab.
    transitivity ((r0 + radix w * k0) + radix w * (2 * h) + c0
                  + nth i c 0 + radix w * c1); [rewrite E0; ring |].
    transitivity ((s0 + radix w * ks0) + radix w * (2 * h + k0)
                  + nth i c 0 + radix w * c1); [rewrite E2; ring |].
    transitivity ((s0 + nth i c 0) + radix w * ks0
                  + radix w * (r1 + radix w * kr) + radix w * c1);
      [rewrite E1; ring |].
    transitivity ((t0 + radix w * kt0) + radix w * (r1 + ks0)
                  + radix w * radix w * kr + radix w * c1);
      [rewrite E4; ring |].
    transitivity (t0 + radix w * (s1 + kt0)
                  + radix w * radix w * (ks1 + kr) + radix w * c1);
      [rewrite <- E3; ring |].
    transitivity (t0 + radix w * (t1 + c1)
                  + radix w * radix w * (kt1 + ks1 + kr));
      [rewrite <- E5; ring |].
    rewrite <- E6. ring. }
  assert (B1 : kt1 = 0 \/ kt1 = 1) by apply ltw_01.
  assert (B2 : ks1 = 0 \/ ks1 = 1) by apply ltw_01.
  assert (B3 : kr = 0 \/ kr = 1) by apply ltw_01.
  assert (B4 : kc = 0 \/ kc = 1) by apply ltw_01.
  assert (Hsum : kt1 + ks1 + kr + kc <= 1).
  { assert (Hp : t * nth i a 0 <= (radix w - 1) * (radix w - 1))
      by (unfold is_dig in *; apply Z.mul_le_mono_nonneg; lia).
    assert (Hq : 0 <= radix w * c0')
      by (unfold is_dig in *; apply Z.mul_nonneg_nonneg; lia).
    assert (Hrr : 0 < radix w * radix w) by (apply Z.mul_pos_pos; lia).
    destruct (Z_le_gt_dec (kt1 + ks1 + kr + kc) 1) as [Hle | Hgt];
      [exact Hle | exfalso].
    assert (Hbig : radix w * radix w * 2
                   <= radix w * radix w * (kt1 + ks1 + kr + kc))
      by (apply Z.mul_le_mono_nonneg_l; lia).
    assert (Hc1' : radix w * c1 <= radix w)
      by (destruct Hc1 as [-> | ->]; lia).
    unfold is_dig in *. lia. }
  rewrite (lor4_sum kt1 ks1 kr kc) by assumption.
  unfold SqraInv. rewrite length_set_nth.
  split; [exact Hlen |].
  split; [apply digits_set_nth; assumption |].
  split; [exact Dc0' |].
  split; [lia |].
  rewrite value_set_nth by lia.
  unfold row in *. fold t in Hval |- *.
  rewrite value_firstn_succ by exact Hia.
  rewrite Nat2Z.inj_succ, Z.pow_succ_r by lia.
  transitivity (value w c + radix w ^ Z.of_nat i * (c0 + radix w * c1)
                + radix w ^ Z.of_nat i
                  * ((t0 + radix w * c0'
                      + radix w * radix w * (kt1 + ks1 + kr + kc))
                     - c0 - nth i c 0 - radix w * c1)); [ring |].
  rewrite <- Etot, Hval. ring.
Qed.

Lemma sqra_loop_inv c_in a :
  digits a ->
  forall n i st,
  (i + n <= length a)%nat -> (i + n <= length c_in)%nat ->
  SqraInv c_in a i st ->
  SqraInv c_in a (i + n) (sqra_loop w (nth 0 a 0) a n i st).
Proof.
  intros Ha. induction n as [| n IH]; intros i st H1 H2 HI.
  - rewrite Nat.add_0_r. exact HI.
  - cbn [sqra_loop]. replace (i + S n)%nat with (S i + n)%nat by lia.
    apply IH; [lia | lia |].
    apply sqra_step_inv; [exact Ha | lia | lia | exact HI].
Qed.

(** [bn_sqra_low] adds to the accumulator the first row of the square:
    [a[0]^2 + 2 * a[0] * (a[1] * radix + ... )], that is
    [a[0] * (2 * value a - a[0])]. *)
Lemma bn_sqra_low_value c a size :
  1 < w -> digits a -> digits c ->
  length a = size -> length c = S size -> (1 <= size)%nat ->
  let out := bn_sqra_low w c a size in
  length (fst out) = S size /\ digits (fst out) /\ is_dig w (snd out) /\
  value w (fst out) + radix w ^ Z.of_nat (S size) * snd out
  = value w c + nth 0 a 0 * (2 * value w a - nth 0 a 0).
Proof.
  intros Hw2 Ha Hc Hla Hlc Hsz out. subst out.
  pose proof (radix_gt1 w Hw) as HB.
  assert (HB4 : 4 <= radix w).
  { unfold radix. change 4 with (2 ^ 2). apply Z.pow_le_mono_r; lia. }
  unfold bn_sqra_low. set (t := nth 0 a 0).
  assert (Ht : is_dig w t) by apply (digits_nth a 0 Ha).
  pose proof (digits_nth c 0 Hc) as Hc0.
  pose proof (mul_dig_spec w Hw t t Ht Ht) as Hm.
  destruct (RLC_MUL_DIG w t t) as [h l]. destruct Hm as (Eab & Hl & Hh).
  set (r0 := wadd w l (nth 0 c 0)). set (k := ltw r0 l).
  pose proof (add_carry_l w l _ Hl Hc0) as E0. fold r0 k in E0.
  assert (Er1 : wadd w h k = h + k).
  { unfold wadd. apply Z.mod_small.
    assert (k = 0 \/ k = 1) by apply ltw_01. lia. }
  rewrite Er1.
  assert (Dr0 : is_dig w r0) by apply (is_dig_wadd w Hw).
  assert (HI : SqraInv c a 1 (set_nth 0 r0 c, h + k, 0)).
  { unfold SqraInv. rewrite length_set_nth.
    split; [reflexivity |].
    split; [apply digits_set_nth; assumption |].
    split; [assert (k = 0 \/ k = 1) by apply ltw_01; unfold is_dig; lia |].
    split; [left; reflexivity |].
    rewrite value_set_nth by lia. unfold row. fold t.
    destruct a as [| a0 a']; [simpl in Hla; lia |].
    cbn [firstn value Z.of_nat]. simpl in t. subst t.
    rewrite Z.pow_0_r, Z.pow_1_r.
    transitivity (value w c + (r0 + radix w * k) - nth 0 c 0
                  + radix w * h); [ring | rewrite E0, Eab; ring]. }
  pose proof (sqra_loop_inv c a Ha (size - 1) 1%nat _
                ltac:(lia) ltac:(lia) HI) as HL.
  fold t in HL.
  destruct (sqra_loop w t a (size - 1) 1 (set_nth 0 r0 c, h + k, 0))
    as [[c' c0] c1].
  replace (1 + (size - 1))%nat with size in HL by lia.
  destruct HL as (Hlen & Hc' & Dc0 & Hc1 & Hval).
  cbn [fst snd].
  set (cs := wadd w (nth size c' 0) c0). set (kk := ltw cs c0).
  pose proof (add_carry_r w _ c0 (digits_nth c' size Hc') Dc0) as E1.
  fold cs kk in E1.
  assert (Er : wadd w c1 kk = c1 + kk).
  { unfold wadd. apply Z.mod_small.
    assert (kk = 0 \/ kk = 1) by apply ltw_01. lia. }
  rewrite Er, length_set_nth.
  split; [lia |].
  split; [apply digits_set_nth; [exact Hc' | apply (is_dig_wadd w Hw)] |].
  split; [assert (kk = 0 \/ kk = 1) by apply ltw_01; unfold is_dig; lia |].
  rewrite value_set_nth by lia.
  unfold row in Hval. fold t in Hval.
  rewrite firstn_all2 in Hval by lia.
  rewrite Nat2Z.inj_succ, Z.pow_succ_r by lia.
  transitivity (value w c' + radix w ^ Z.of_nat size * (c0 + radix w * c1)
                + radix w ^ Z.of_nat size
                  * ((cs + radix w * kk) - nth size c' 0 - c0));
    [ring | rewrite E1, Hval; ring].
Qed.

(** *** What the kernels read and write *)

(** Writing index [i] leaves every other index as it is. *)
Lemma nth_set_nth_other : forall c i j v,
  i <> j -> nth j (set_nth i v c) 0 = nth j c 0.
Proof.
  induction c as [| d c IH]; intros [| i] [| j] v H; cbn [set_nth nth];
    try reflexivity; try lia.
  apply IH. lia.
Qed.

Lemma sqra_step_other t a i st j :
  i <> j ->
  nth j (fst (fst (sqra_step w t a i st))) 0 = nth j (fst (fst st)) 0.
Proof.
  intros H. destruct st as [[c c0] c1]. unfold sqra_step.
  destruct (RLC_MUL_DIG w t (nth i a 0)) as [h l]. cbn [fst].
  apply nth_set_nth_other. exact H.
Qed.

Lemma sqra_step_length t a i st :
  length (fst (fst (sqra_step w t a i st))) = length (fst (fst st)).
Proof.
  destruct st as [[c c0] c1]. unfold sqra_step.
  destruct (RLC_MUL_DIG w t (nth i a 0)) as [h l]. cbn [fst].
  apply length_set_nth.
Qed.

Lemma sqra_loop_other t a j : forall n i st,
  (i + n <= j)%nat ->
  nth j (fst (fst (sqra_loop w t a n i st))) 0 = nth j (fst (fst st)) 0.
Proof.
  induction n as [| n IH]; intros i st H; [reflexivity |].
  cbn [sqra_loop]. rewrite IH by lia. apply sqra_step_other. lia.
Qed.

Lemma sqra_loop_length t a : forall n i st,
  length (fst (fst (sqra_loop w t a n i st))) = length (fst (fst st)).
Proof.
  induction n as [| n IH]; intros i st; [reflexivity |].
  cbn [sqra_loop]. rewrite IH. apply sqra_step_length.
Qed.

(** [bn_sqra_low] writes [c[0..size]] only, and keeps the length of [c]. *)
Lemma bn_sqra_low_frame c a size :
  length (fst (bn_sqra_low w c a size)) = length c /\
  forall j, (size < j)%nat ->
  nth j (fst (bn_sqra_low w c a size)) 0 = nth j c 0.
Proof.
  unfold bn_sqra_low.
  destruct (RLC_MUL_DIG w (nth 0 a 0) (nth 0 a 0)) as [h l].
  set (st0 := (set_nth 0 (wadd w l (nth 0 c 0)) c,
               wadd w h (ltw (wadd w l (nth 0 c 0)) l), 0)).
  pose proof (sqra_loop_length (nth 0 a 0) a (size - 1) 1 st0) as HL.
  pose proof (fun j => sqra_loop_other (nth 0 a 0) a j (size - 1) 1 st0)
    as HO.
  destruct (sqra_loop w (nth 0 a 0) a (size - 1) 1 st0) as [[c' c0] c1].
  cbn [fst] in *. unfold st0 in HL, HO. cbn [fst] in HL, HO.
  rewrite length_set_nth in *.
  split; [exact HL |].
  intros j Hj. rewrite nth_set_nth_other by lia.
  rewrite HO by lia. apply nth_set_nth_other. lia.
Qed.

(** The carry returned by [bn_sqra_low] is at most 2: the delayed carry of
    the last column and the carry of the final addition. *)
Lemma bn_sqra_low_carry c a size :
  1 < w -> digits a -> digits c ->
  length a = size -> length c = S size -> (1 <= size)%nat ->
  0 <= snd (bn_sqra_low w c a size) <= 2.
Proof.
  intros Hw1 Ha Hc Hla Hlc Hs.
  destruct (bn_sqra_low_value c a size Hw1 Ha Hc Hla Hlc Hs)
    as (L & G & K & E).
  pose proof (value_bounds c Hc) as Bc.
  pose proof (value_bounds a Ha) as Ba.
  pose proof (value_bounds _ G) as Bo.
  pose proof (digits_nth a 0 Ha) as B0.
  rewrite Hlc in Bc. rewrite Hla in Ba. rewrite L in Bo.
  rewrite Nat2Z.inj_succ, Z.pow_succ_r in * by lia.
  unfold is_dig in *.
  set (k := snd (bn_sqra_low w c a size)) in *.
  set (Vo := value w (fst (bn_sqra_low w c a size))) in *.
  set (t := nth 0 a 0) in *.
  set (P := radix w ^ Z.of_nat size) in *.
  set (B := radix w) in *.
  assert (HP : 0 < P) by lia.
  assert (Ht : t * value w a <= (B - 1) * (P - 1))
    by (apply Z.mul_le_mono_nonneg; lia).
  assert (Htt : 0 <= t * t) by (apply Z.mul_nonneg_nonneg; lia).
  assert (HBP : 0 < B * P) by (apply Z.mul_pos_pos; lia).
  split; [lia |].
  destruct (Z_le_gt_dec k 2) as [Hk | Hk]; [exact Hk | exfalso].
  assert (H3 : 3 * (B * P) <= B * P * k)
    by (rewrite (Z.mul_comm 3); apply Z.mul_le_mono_nonneg_l; lia).
  assert (Ee : t * (2 * value w a - t) = 2 * (t * value w a) - t * t)
    by ring.
  assert (Ex : (B - 1) * (P - 1) = B * P - B - P + 1) by ring.
  lia.
Qed.

(** *** [bn_sqrn_low] reads [a[0..size-1]] only *)

Lemma comba_inner_snd a : forall n ia ib r,
  snd (comba_inner w a n ia ib r) = (ia + n)%nat.
Proof.
  induction n as [| n IH]; intros ia ib r; cbn [comba_inner snd]; [lia |].
  rewrite IH. lia.
Qed.

Section Prefix.
Variables (a a' : list Z) (size : nat).
Hypothesis Hag : forall i, (i < size)%nat -> nth i a 0 = nth i a' 0.

Lemma comba_inner_prefix : forall n ia ib r,
  (ia + n <= size)%nat -> (ib < size)%nat ->
  comba_inner w a n ia ib r = comba_inner w a' n ia ib r.
Proof.
  induction n as [| n IH]; intros ia ib r H1 H2; [reflexivity |].
  cbn [comba_inner]. rewrite (Hag ia), (Hag ib) by lia. apply IH; lia.
Qed.

Lemma column_lo_prefix i r c :
  (i < size)%nat -> column_lo w a i r c = column_lo w a' i r c.
Proof.
  intros Hi. unfold column_lo.
  pose proof (Nat.div_mod_eq (i + 1) 2) as Hd.
  pose proof (Nat.mod_upper_bound (i + 1) 2 ltac:(lia)) as Hm.
  rewrite comba_inner_prefix by lia.
  pose proof (comba_inner_snd a' ((i + 1) / 2) 0 i r) as E.
  destruct (comba_inner w a' ((i + 1) / 2) 0 i r) as [r1 tmpa].
  cbn [snd] in E. subst tmpa.
  destruct (Nat.even i); [rewrite Hag by lia |]; reflexivity.
Qed.

Lemma column_hi_prefix i r c :
  (i < size)%nat -> column_hi w a size i r c = column_hi w a' size i r c.
Proof.
  intros Hi. unfold column_hi.
  pose proof (Nat.div_mod_eq (size - 1 - i) 2) as Hd.
  pose proof (Nat.mod_upper_bound (size - 1 - i) 2 ltac:(lia)) as Hm.
  rewrite comba_inner_prefix by lia.
  pose proof (comba_inner_snd a' ((size - 1 - i) / 2) (i + 1) (size - 1) r)
    as E.
  destruct (comba_inner w a' ((size - 1 - i) / 2) (i + 1) (size - 1) r)
    as [r1 tmpa].
  cbn [snd] in E. subst tmpa.
  destruct (Nat.even (size - i)) eqn:Ev; [| reflexivity].
  apply Nat.even_spec in Ev. destruct Ev as [m Em].
  rewrite Hag by lia. reflexivity.
Qed.

Lemma columns_lo_prefix : forall n i r c,
  (i + n <= size)%nat ->
  columns (column_lo w a) n i r c = columns (column_lo w a') n i r c.
Proof.
  induction n as [| n IH]; intros i r c H; [reflexivity |].
  cbn [columns]. rewrite column_lo_prefix by lia.
  destruct (column_lo w a' i r c) as [r' c']. apply IH. lia.
Qed.

Lemma columns_hi_prefix : forall n i r c,
  (i + n <= size)%nat ->
  columns (column_hi w a size) n i r c
  = columns (column_hi w a' size) n i r c.
Proof.
  induction n as [| n IH]; intros i r c H; [reflexivity |].
  cbn [columns]. rewrite column_hi_prefix by lia.
  destruct (column_hi w a' size i r c) as [r' c']. apply IH. lia.
Qed.

Lemma bn_sqrn_low_prefix : bn_sqrn_low w a size = bn_sqrn_low w a' size.
Proof.
  unfold bn_sqrn_low. rewrite columns_lo_prefix by lia.
  destruct (columns (column_lo w a') size 0 (0, 0, 0) []) as [r c].
  rewrite columns_hi_prefix by lia. reflexivity.
Qed.

End Prefix.

(** *** One digit: the two kernels agree *)

(** Digit sequences of one length with one value are equal. *)
Lemma value_inj : forall c c',
  length c = length c' -> digits c -> digits c' ->
  value w c = value w c' -> c = c'.
Proof.
  pose proof (radix_gt1 w Hw) as HB.
  induction c as [| d c IH]; intros [| d' c'] Hl Hc Hc' Hv;
    simpl in Hl; try lia; [reflexivity |].
  inversion Hc as [| ? ? Hd Hcs]; subst.
  inversion Hc' as [| ? ? Hd' Hcs']; subst.
  cbn [value] in Hv. unfold is_dig in Hd, Hd'.
  assert (Ev : value w c = value w c').
  { destruct (Z.lt_trichotomy (value w c) (value w c')) as [H | [H | H]];
      [exfalso | exact H | exfalso].
    - assert (radix w * (value w c + 1) <= radix w * value w c')
        by (apply Z.mul_le_mono_nonneg_l; lia).
      lia.
    - assert (radix w * (value w c' + 1) <= radix w * value w c)
        by (apply Z.mul_le_mono_nonneg_l; lia).
      lia. }
  rewrite Ev in Hv. f_equal; [lia |].
  apply IH; [lia | assumption | assumption | exact Ev].
Qed.

(** On one digit and a zero accumulator, [bn_sqra_low] writes the digits
    that [bn_sqrn_low] writes, and returns no carry. *)
Lemma bn_sqra_low_single x :
  1 < w -> is_dig w x ->
  bn_sqra_low w [0; 0] [x] 1 = (bn_sqrn_low w [x] 1, 0).
Proof.
  intros Hw1 Hx.
  pose proof (radix_gt1 w Hw) as HB.
  assert (Ha : digits [x]) by (constructor; [exact Hx | constructor]).
  assert (Hc : digits [0; 0]).
  { constructor; [apply (is_dig_0 w Hw) |].
    constructor; [apply (is_dig_0 w Hw) | constructor]. }
  destruct (bn_sqra_low_value [0; 0] [x] 1 Hw1 Ha Hc eq_refl eq_refl
              ltac:(lia)) as (L & G & K & E).
  destruct (bn_sqrn_low_value [x] Ha ltac:(cbn [length Z.of_nat]; lia))
    as (L' & G' & E').
  cbn [length] in L', G', E'. cbn [value nth] in E, E'.
  pose proof (value_bounds _ G) as Bo. rewrite L in Bo.
  change (Z.of_nat 2) with 2 in *.
  destruct (bn_sqra_low w [0; 0] [x] 1) as [c' k]. cbn [fst snd] in *.
  unfold is_dig in Hx, K.
  assert (Hxx : 0 <= x * x < radix w ^ 2) by nia.
  assert (Hk : k = 0).
  { destruct (Z.eq_dec k 0) as [H0 | Hn]; [exact H0 | exfalso].
    assert (radix w ^ 2 * 1 <= radix w ^ 2 * k)
      by (apply Z.mul_le_mono_nonneg_l; lia).
    lia. }
  subst k. f_equal.
  apply value_inj; [lia | exact G | exact G' | lia].
Qed.

End Comba.
End SqrFacts.

(* ================================================================== *)
(** ** Extension-field kernels: proofs                                *)
(* ================================================================== *)

Module PpFacts.
Import Dig PpMul.

Section Facts.
Variable cfg : config.

Hypothesis Hw : 0 < WSIZE cfg.
Hypothesis Hn : 0 < FP_DIGS cfg.

Local Abbreviation mulc_normalize := (PpMul.mulc_normalize cfg).
Local Abbreviation fp2_mulc_karatsuba := (PpMul.fp2_mulc_karatsuba cfg).
Local Abbreviation fp2_muln_trace := (PpMul.fp2_muln_trace cfg).
Local Abbreviation fp2_mulc_trace := (PpMul.fp2_mulc_trace cfg).
Local Abbreviation fp3_muln_trace := (PpMul.fp3_muln_trace cfg).
Local Abbreviation mulc_normalize_trace := (PpMul.mulc_normalize_trace cfg).
Local Abbreviation R := (pw cfg (FP_DIGS cfg)).
Local Abbreviation D := (pw cfg (2 * FP_DIGS cfg)).
Local Abbreviation p := (fp_prime_get cfg).

Lemma pw_pos k : 0 <= k -> 0 < pw cfg k.
Proof.
  intros Hk. unfold pw, radix.
  apply Z.pow_pos_nonneg; [apply Z.pow_pos_nonneg |]; lia.
Qed.

Lemma pw_0 : pw cfg 0 = 1.
Proof. unfold pw. apply Z.pow_0_r. Qed.

Lemma pw_add a b : 0 <= a -> 0 <= b -> pw cfg (a + b) = pw cfg a * pw cfg b.
Proof. intros. unfold pw. apply Z.pow_add_r; assumption. Qed.

Lemma D_eq : D = R * R.
Proof. replace (2 * FP_DIGS cfg) with (FP_DIGS cfg + FP_DIGS cfg) by lia.
  apply pw_add; lia. Qed.

Lemma R_pos : 0 < R.
Proof. apply pw_pos. lia. Qed.

Lemma R_gt1 : 1 < R.
Proof.
  unfold pw, radix. rewrite <- Z.pow_mul_r by lia.
  change 1 with (2 ^ 0). apply Z.pow_lt_mono_r; nia.
Qed.

(** A value that wrapped once: add or remove the modulus. *)
Lemma mod_plus_once x m : 0 < m -> - m <= x < 0 -> x mod m = x + m.
Proof.
  intros Hm Hx. replace x with ((x + m) + (-1) * m) at 1 by ring.
  rewrite Z.mod_add by lia. apply Z.mod_small. lia.
Qed.

Lemma mod_minus_once x m : 0 < m -> m <= x < 2 * m -> x mod m = x - m.
Proof.
  intros Hm Hx. replace x with ((x - m) + 1 * m) at 1 by ring.
  rewrite Z.mod_add by lia. apply Z.mod_small. lia.
Qed.

(** The upper half of a double-width value. *)
Lemma hi_bounds x lo hi :
  0 < R -> lo * R <= x < hi * R -> lo <= x / R < hi.
Proof.
  intros HR [H1 H2]. split.
  - apply Z.div_le_lower_bound; lia.
  - apply Z.div_lt_upper_bound; lia.
Qed.

(** *** What the primitives compute, within their ranges *)

Lemma addn_exact x y : 0 <= x -> 0 <= y -> x + y < R -> addn cfg x y = x + y.
Proof. intros. unfold addn. apply Z.mod_small. lia. Qed.

Lemma addm_spec x y :
  0 < p < R -> 0 <= x < p -> 0 <= y < p ->
  addm cfg x y = (x + y) mod p.
Proof.
  intros Hp Hx Hy. unfold addm.
  assert (Hmodp : (x + y) mod p
                  = if x + y <? p then x + y else x + y - p).
  { destruct (x + y <? p) eqn:E.
    - apply Z.ltb_lt in E. apply Z.mod_small. lia.
    - apply Z.ltb_ge in E. apply mod_minus_once; lia. }
  rewrite Hmodp.
  destruct (R <=? x + y) eqn:E1.
  - apply Z.leb_le in E1. cbn [orb].
    rewrite (mod_minus_once (x + y) R) by lia.
    replace (x + y <? p) with false by (symmetry; apply Z.ltb_ge; lia).
    replace (x + y - R - p) with ((x + y - p) + (-1) * R) by ring.
    rewrite Z.mod_add by lia. apply Z.mod_small. lia.
  - apply Z.leb_gt in E1. cbn [orb].
    rewrite (Z.mod_small (x + y) R) by lia.
    destruct (p <=? x + y) eqn:E2.
    + apply Z.leb_le in E2.
      replace (x + y <? p) with false by (symmetry; apply Z.ltb_ge; lia).
      apply Z.mod_small. lia.
    + apply Z.leb_gt in E2.
      replace (x + y <? p) with true by (symmetry; apply Z.ltb_lt; lia).
      reflexivity.
Qed.

Lemma addd_exact x y :
  0 <= x -> 0 <= y -> x + y < D -> addd cfg x y = x + y.
Proof. intros. unfold addd. apply Z.mod_small. lia. Qed.

Lemma subd_exact x y : 0 <= y <= x -> x < D -> subd cfg x y = x - y.
Proof. intros. unfold subd. apply Z.mod_small. lia. Qed.

Lemma muln_exact x y :
  0 <= x < R -> 0 <= y < R -> muln cfg x y = x * y.
Proof.
  intros Hx Hy. unfold muln. apply Z.mod_small. rewrite D_eq. nia.
Qed.

Lemma split_hi x : x = x mod R + R * (x / R).
Proof. pose proof (Z.div_mod x R) as H. pose proof R_pos. lia. Qed.

Lemma addc_spec x y :
  0 < p < R -> 0 <= x -> 0 <= y -> x + y < 2 * (p * R) ->
  addc cfg x y = if x + y <? p * R then x + y else x + y - p * R.
Proof.
  intros Hp Hx Hy Hxy. unfold addc. pose proof R_pos as HR.
  pose proof D_eq as HD.
  assert (HpR : p * R < D) by (rewrite HD; nia).
  destruct (D <=? x + y) eqn:E1.
  - apply Z.leb_le in E1. cbn [orb].
    replace (x + y <? p * R) with false by (symmetry; apply Z.ltb_ge; lia).
    rewrite (mod_minus_once (x + y) D) by lia.
    set (r := x + y - D).
    assert (Hr : 0 * R <= r < p * R) by (unfold r; lia).
    pose proof (hi_bounds r 0 p HR Hr) as Hhi.
    rewrite (mod_plus_once (r / R - p) R) by lia.
    pose proof (split_hi r) as Er.
    transitivity (r mod R + R * (r / R) + (R * R - p * R)); [ring |].
    rewrite <- Er. unfold r. lia.
  - apply Z.leb_gt in E1. cbn [orb].
    rewrite (Z.mod_small (x + y) D) by lia.
    destruct (p <=? (x + y) / R) eqn:E2.
    + apply Z.leb_le in E2.
      assert (Hge : p * R <= x + y).
      { pose proof (split_hi (x + y)) as E.
        pose proof (Z.mod_pos_bound (x + y) R HR). nia. }
      replace (x + y <? p * R) with false by (symmetry; apply Z.ltb_ge; lia).
      assert (Hr : 0 * R <= x + y < R * R) by lia.
      pose proof (hi_bounds _ 0 R HR Hr) as Hhi.
      rewrite (Z.mod_small ((x + y) / R - p) R) by lia.
      pose proof (split_hi (x + y)) as Er.
      transitivity ((x + y) mod R + R * ((x + y) / R) - p * R); [ring |].
      rewrite <- Er. reflexivity.
    + apply Z.leb_gt in E2.
      assert (Hlt : x + y < p * R).
      { pose proof (split_hi (x + y)) as E.
        pose proof (Z.mod_pos_bound (x + y) R HR). nia. }
      replace (x + y <? p * R) with true by (symmetry; apply Z.ltb_lt; lia).
      reflexivity.
Qed.

Lemma subc_spec x y :
  0 < p < R -> 0 <= x < D -> 0 <= y < D -> 0 <= x - y + p * R ->
  subc cfg x y = if x <? y then x - y + p * R else x - y.
Proof.
  intros Hp Hx Hy Hxy. unfold subc. pose proof R_pos as HR.
  pose proof D_eq as HD.
  destruct (x <? y) eqn:E.
  - apply Z.ltb_lt in E.
    rewrite (mod_plus_once (x - y) D) by lia.
    set (r := x - y + D).
    assert (Hr : R * R <= r + p * R < (R + p) * R) by (unfold r; lia).
    assert (Ehi : (r + p * R) / R = r / R + p)
      by (apply Z.div_add; lia).
    pose proof (hi_bounds (r + p * R) R (R + p) HR Hr) as Hhi.
    rewrite Ehi in Hhi.
    rewrite (mod_minus_once (r / R + p) R) by lia.
    pose proof (split_hi r) as Er.
    transitivity (r mod R + R * (r / R) + (p * R - R * R)); [ring |].
    rewrite <- Er. unfold r. lia.
  - apply Z.ltb_ge in E. apply Z.mod_small. lia.
Qed.

(** *** Reading memory after a call *)

Lemma rd_at0 m b len : rd cfg m (At b 0) len = m b mod pw cfg len.
Proof. unfold rd. rewrite pw_0, Z.div_1_r. reflexivity. Qed.

Lemma buf_eqb_refl b : buf_eqb b b = true.
Proof. destruct b; simpl; apply Nat.eqb_refl. Qed.

Lemma splice0_mod v len x :
  0 <= len -> splice cfg v 0 len x mod pw cfg len = x mod pw cfg len.
Proof.
  intros Hl. unfold splice. rewrite pw_0, Z.mod_1_r, Z.add_0_l, Z.mul_1_l.
  simpl (0 + len). pose proof (pw_pos len Hl).
  rewrite Z.mul_comm, Z.mod_add by lia. apply Z.mod_mod. lia.
Qed.

Lemma rd_call2_same f dlen slen op b x y s :
  0 <= dlen ->
  rd cfg (mem (call2 cfg f dlen slen op (At b 0) x y s)) (At b 0) dlen
  = op (rd cfg (mem s) x slen) (rd cfg (mem s) y slen) mod pw cfg dlen.
Proof.
  intros Hl. rewrite rd_at0. cbn [call2 mem wr]. unfold upd.
  rewrite buf_eqb_refl. apply splice0_mod. exact Hl.
Qed.

Lemma rd_call2_other f dlen slen op b off x y s b' off' len :
  buf_eqb b b' = false ->
  rd cfg (mem (call2 cfg f dlen slen op (At b off) x y s)) (At b' off') len
  = rd cfg (mem s) (At b' off') len.
Proof.
  intros Hb. cbn [call2 mem wr rd]. unfold upd. rewrite Hb. reflexivity.
Qed.

Lemma log_call2 f dlen slen op d x y s :
  log (call2 cfg f dlen slen op d x y s) = log s ++ [Call f d [x; y]].
Proof. reflexivity. Qed.

(** *** The non-residue loops *)

Lemma for_down_iter q body s : forall fuel i,
  fuel = Z.to_nat (i - q) ->
  for_down fuel i q body s = Nat.iter fuel body s.
Proof.
  intros fuel. revert s. induction fuel as [| fuel IH]; intros s i Hf.
  - reflexivity.
  - cbn [for_down]. replace (i >? q) with true
      by (symmetry; apply Z.gtb_lt; lia).
    unfold seq. rewrite (IH _ (i - 1)) by lia.
    rewrite Nat.iter_succ_r. reflexivity.
Qed.

(** The loop [for (i = -1; i > q; i--)] runs its body [-1 - q] times (no
    time when [q >= -1]). *)
Lemma for_gt_iter q body s :
  for_gt (-1) q body s = Nat.iter (Z.to_nat (-1 - q)) body s.
Proof. unfold for_gt. apply for_down_iter. reflexivity. Qed.

Lemma iter_call2_other f len op d y b' off' len' : forall k s,
  buf_eqb d b' = false ->
  rd cfg (mem (Nat.iter k (call2 cfg f len len op (At d 0) (At d 0) y) s))
     (At b' off') len'
  = rd cfg (mem s) (At b' off') len'.
Proof.
  induction k as [| k IH]; intros s Hb; [reflexivity |].
  cbn [Nat.iter nat_rect]. rewrite rd_call2_other by exact Hb.
  apply IH, Hb.
Qed.

Lemma iter_call2_same f len op d y : forall k s,
  0 <= len -> buf_eqb d y = false ->
  rd cfg (mem (Nat.iter k
                 (call2 cfg f len len op (At d 0) (At d 0) (At y 0)) s))
     (At d 0) len
  = Nat.iter k (fun v => op v (rd cfg (mem s) (At y 0) len) mod pw cfg len)
      (rd cfg (mem s) (At d 0) len).
Proof.
  induction k as [| k IH]; intros s Hl Hb; [reflexivity |].
  cbn [Nat.iter nat_rect]. rewrite rd_call2_same by exact Hl.
  fold (Nat.iter k (call2 cfg f len len op (At d 0) (At d 0) (At y 0)) s).
  rewrite IH by assumption.
  rewrite iter_call2_other by exact Hb. reflexivity.
Qed.

Lemma iter_call2_log f len op d x y : forall k s,
  log (Nat.iter k (call2 cfg f len len op d x y) s)
  = log s ++ repeat (Call f d [x; y]) k.
Proof.
  induction k as [| k IH]; intros s.
  - simpl. rewrite app_nil_r. reflexivity.
  - cbn [Nat.iter nat_rect]. rewrite log_call2.
    fold (Nat.iter k (call2 cfg f len len op d x y) s).
    rewrite IH, <- app_assoc. f_equal.
    change (repeat (Call f d [x; y]) k ++ [Call f d [x; y]])
      with (repeat (Call f d [x; y]) k ++ repeat (Call f d [x; y]) 1).
    rewrite <- repeat_app. f_equal. lia.
Qed.

(** *** Congruence modulo the prime *)

Lemma eqm_eq a b : a = b -> eqm p a b.
Proof. intros ->. apply eqm_refl. Qed.

Lemma eqm_plus a b c d : eqm p a b -> eqm p c d -> eqm p (a + c) (b + d).
Proof. intros H1 H2. apply Zplus_eqm; assumption. Qed.

Lemma eqm_minus a b c d : eqm p a b -> eqm p c d -> eqm p (a - c) (b - d).
Proof. intros H1 H2. apply Zminus_eqm; assumption. Qed.

Lemma eqm_mult a b c d : eqm p a b -> eqm p c d -> eqm p (a * c) (b * d).
Proof. intros H1 H2. apply Zmult_eqm; assumption. Qed.

Lemma eqm_plus_mul a k : eqm p (a + p * k) a.
Proof.
  unfold eqm. rewrite (Z.mul_comm p k). apply Z_mod_plus_full.
Qed.

Lemma eqm_minus_mul a k : eqm p (a - p * k) a.
Proof.
  replace (a - p * k) with (a + p * (- k)) by ring. apply eqm_plus_mul.
Qed.

Lemma eqm_mod a : eqm p (a mod p) a.
Proof. apply Zmod_eqm. Qed.

(** Repeated corrected subtraction stays in range and subtracts a
    multiple. *)
Lemma iter_subc v0 y : forall k,
  0 < p < R -> 0 <= v0 < p * R -> 0 <= y <= p * R ->
  let v := Nat.iter k (fun v => subc cfg v y mod D) v0 in
  0 <= v < p * R /\ eqm p v (v0 - Z.of_nat k * y).
Proof.
  intros k Hp Hv Hy. pose proof R_pos as HR. pose proof D_eq as HD.
  assert (HpR : p * R < D) by (rewrite HD; nia).
  induction k as [| k IH].
  - cbn [Nat.iter nat_rect Z.of_nat]. split; [exact Hv |].
    unfold eqm. f_equal. ring.
  - cbn zeta in IH |- *. cbn [Nat.iter nat_rect].
    fold (Nat.iter k (fun v => subc cfg v y mod D) v0).
    set (v := Nat.iter k (fun v => subc cfg v y mod D) v0) in *.
    destruct IH as [Hr Hc].
    rewrite subc_spec by lia.
    rewrite Nat2Z.inj_succ.
    destruct (v <? y) eqn:E.
    + apply Z.ltb_lt in E. rewrite Z.mod_small by lia.
      split; [lia |].
      apply (eqm_trans p _ (v - y)); [apply eqm_plus_mul |].
      apply (eqm_trans p _ (v0 - Z.of_nat k * y - y));
        [apply eqm_minus; [exact Hc | apply eqm_refl] | apply eqm_eq; ring].
    + apply Z.ltb_ge in E. rewrite Z.mod_small by lia.
      split; [lia |].
      apply (eqm_trans p _ (v0 - Z.of_nat k * y - y));
        [apply eqm_minus; [exact Hc | apply eqm_refl] | apply eqm_eq; ring].
Qed.

Ltac run_cmds :=
  unfold fp2_muln_low, fp2_mulc_low, fp3_muln_low, seq, skip,
    fp_addn_low, fp_addm_low, fp_addd_low, fp_addc_low, fp_subd_low,
    fp_subc_low, fp_muln_low, a_, b_, c_, t_;
  repeat first
    [ rewrite rd_call2_same by lia
    | rewrite rd_call2_other by reflexivity
    | rewrite for_gt_iter
    | rewrite iter_call2_same by (lia || reflexivity)
    | rewrite iter_call2_other by reflexivity ].

Lemma subc_range_eqm x y :
  0 < p < R -> 0 <= x < p * R -> 0 <= y <= p * R ->
  0 <= subc cfg x y < p * R /\ eqm p (subc cfg x y) (x - y).
Proof.
  intros Hp Hx Hy. pose proof R_pos as HR. pose proof D_eq as HD.
  assert (HpR : p * R < D) by (rewrite HD; nia).
  rewrite subc_spec by lia.
  destruct (x <? y) eqn:E.
  - apply Z.ltb_lt in E. split; [lia | apply eqm_plus_mul].
  - apply Z.ltb_ge in E. split; [lia | apply eqm_refl].
Qed.

Lemma addc_range_eqm x y :
  0 < p < R -> 0 <= x -> 0 <= y -> x + y < 2 * (p * R) ->
  0 <= addc cfg x y < p * R /\ eqm p (addc cfg x y) (x + y).
Proof.
  intros Hp Hx Hy Hxy. rewrite addc_spec by lia.
  destruct (x + y <? p * R) eqn:E.
  - apply Z.ltb_lt in E. split; [lia | apply eqm_refl].
  - apply Z.ltb_ge in E. split; [lia |].
    replace (x + y - p * R) with (x + y - p * R) by ring.
    apply eqm_minus_mul.
Qed.

Lemma rd_bounds m o len : 0 <= len -> 0 <= rd cfg m o len < pw cfg len.
Proof.
  intros Hl. destruct o; unfold rd; apply Z.mod_pos_bound, pw_pos, Hl.
Qed.

(** The product of two reduced elements fits below [p * R]. *)
Lemma mul_reduced x y :
  0 < p < R -> 0 <= x < p -> 0 <= y < p -> 0 <= x * y < p * R.
Proof. intros. nia. Qed.

(** The real part of [fp2_muln_low]: the first corrected subtraction and
    the non-residue loop. *)
Lemma fp2_real_part m00 m11 k :
  0 < p < R -> 0 <= m00 < p * R -> 0 <= m11 < p * R ->
  let c0 := Nat.iter k (fun v => subc cfg v m11 mod D)
              (subc cfg m00 m11 mod D) in
  0 <= c0 < p * R /\ eqm p c0 (m00 - (1 + Z.of_nat k) * m11).
Proof.
  intros Hp H0 H1 c0. pose proof D_eq as HD. pose proof R_pos as HR.
  assert (HpR : p * R < D) by (rewrite HD; nia).
  destruct (subc_range_eqm m00 m11 Hp H0 ltac:(lia)) as [Hr He].
  unfold c0. rewrite (Z.mod_small (subc cfg m00 m11) D) by lia.
  destruct (iter_subc (subc cfg m00 m11) m11 k Hp Hr ltac:(lia))
    as [Hr' He'].
  split; [exact Hr' |].
  apply (eqm_trans p _ _ _ He').
  apply (eqm_trans p _ (m00 - m11 - Z.of_nat k * m11));
    [apply eqm_minus; [exact He | apply eqm_refl] | apply eqm_eq; ring].
Qed.

(** The imaginary part computed with plain sums and an exact
    subtraction, as [fp2_mulc_low] and [fp2_muln_low] under [FP_SPACE]
    do. *)
Lemma imag_space x y u v :
  0 < p -> 2 * p <= R ->
  0 <= x < p -> 0 <= y < p -> 0 <= u < p -> 0 <= v < p ->
  subd cfg (muln cfg (addn cfg x y mod R) (addn cfg u v mod R) mod D)
           (addd cfg (muln cfg x u mod D) (muln cfg y v mod D) mod D)
  mod D = x * v + y * u.
Proof.
  intros Hp0 Hroom Hx Hy Hu Hv.
  pose proof R_pos as HR. pose proof D_eq as HD.
  assert (HpR : p * R < D) by (rewrite HD; nia).
  rewrite !addn_exact by lia.
  rewrite (Z.mod_small (x + y) R), (Z.mod_small (u + v) R) by lia.
  rewrite !muln_exact by lia.
  assert (HS : 0 <= (x + y) * (u + v) < D) by (rewrite HD; nia).
  assert (Hxu : 0 <= x * u) by nia.
  assert (Hyv : 0 <= y * v) by nia.
  assert (HX : 0 <= x * v + y * u) by nia.
  assert (EXP : (x + y) * (u + v) = (x * u + y * v) + (x * v + y * u))
    by ring.
  rewrite (Z.mod_small ((x + y) * (u + v)) D) by exact HS.
  rewrite (Z.mod_small (x * u) D), (Z.mod_small (y * v) D) by lia.
  rewrite addd_exact by lia.
  rewrite (Z.mod_small (x * u + y * v) D) by lia.
  rewrite subd_exact by lia.
  rewrite Z.mod_small by lia. ring.
Qed.

Section Fp2.
Variable s : state.

Let a0 := rd cfg (mem s) (At (A 0) 0) (FP_DIGS cfg).
Let a1 := rd cfg (mem s) (At (A 1) 0) (FP_DIGS cfg).
Let b0 := rd cfg (mem s) (At (B 0) 0) (FP_DIGS cfg).
Let b1 := rd cfg (mem s) (At (B 1) 0) (FP_DIGS cfg).

(** The limbs written by [fp2_muln_low]: the real part is [a0 b0] minus
    [a1 b1] once for the first subtraction and once more for each turn of
    the loop; the imaginary part is the cross term. *)
Lemma fp2_muln_low_value :
  0 < p < R -> (FP_SPACE cfg = true -> 2 * p <= R) ->
  a0 < p -> a1 < p -> b0 < p -> b1 < p ->
  let s' := fp2_muln_low cfg s in
  eqm p (rd cfg (mem s') (c_ 0) (2 * FP_DIGS cfg))
        (a0 * b0 - (1 + Z.of_nat (fp2_extra_subs cfg)) * (a1 * b1)) /\
  eqm p (rd cfg (mem s') (c_ 1) (2 * FP_DIGS cfg))
        (a0 * b1 + a1 * b0).
Proof.
  intros Hp Hspace Ha0 Ha1 Hb0 Hb1 s'. subst s'.
  pose proof R_pos as HR. pose proof D_eq as HD.
  assert (HpR : p * R < D) by (rewrite HD; nia).
  assert (Ga0 : 0 <= a0) by (apply rd_bounds; lia).
  assert (Ga1 : 0 <= a1) by (apply rd_bounds; lia).
  assert (Gb0 : 0 <= b0) by (apply rd_bounds; lia).
  assert (Gb1 : 0 <= b1) by (apply rd_bounds; lia).
  pose proof (mul_reduced a0 b0 Hp ltac:(lia) ltac:(lia)) as M00.
  pose proof (mul_reduced a1 b1 Hp ltac:(lia) ltac:(lia)) as M11.
  split.
  - (* real part *)
    assert (Hgoal : forall k,
      eqm p (Nat.iter k (fun v => subc cfg v (a1 * b1) mod D)
               (subc cfg (a0 * b0) (a1 * b1) mod D))
            (a0 * b0 - (1 + Z.of_nat k) * (a1 * b1))).
    { intros k.
      destruct (fp2_real_part (a0 * b0) (a1 * b1) k Hp M00 M11) as [_ He].
      exact He. }
    unfold fp2_muln_low, fp2_extra_subs.
    destruct (FP_SPACE cfg), (FP_QNRES cfg); run_cmds;
      fold a0 a1 b0 b1;
      rewrite !muln_exact by lia;
      rewrite ?(Z.mod_small (a0 * b0) D), ?(Z.mod_small (a1 * b1) D) by lia.
    + apply (Hgoal 0%nat).
    + apply Hgoal.
    + apply (Hgoal 0%nat).
    + apply Hgoal.
  - (* imaginary part *)
    unfold fp2_muln_low.
    destruct (FP_SPACE cfg) eqn:ES.
    + (* headroom: plain sums, exact subtraction *)
      specialize (Hspace eq_refl).
      pose proof (imag_space a0 a1 b0 b1 ltac:(lia) Hspace
                    ltac:(lia) ltac:(lia) ltac:(lia) ltac:(lia)) as Hgoal.
      destruct (FP_QNRES cfg); run_cmds; fold a0 a1 b0 b1;
        rewrite Hgoal; apply eqm_refl.
    + (* no headroom: reduced sums, corrected sum and subtraction *)
      assert (Hgoal :
        eqm p (subc cfg
                 (muln cfg (addm cfg a0 a1 mod R) (addm cfg b0 b1 mod R)
                  mod D)
                 (addc cfg (muln cfg a0 b0 mod D) (muln cfg a1 b1 mod D)
                  mod D) mod D)
              (a0 * b1 + a1 * b0)).
      { rewrite !addm_spec by lia.
        pose proof (Z.mod_pos_bound (a0 + a1) p ltac:(lia)) as T0.
        pose proof (Z.mod_pos_bound (b0 + b1) p ltac:(lia)) as T1.
        rewrite (Z.mod_small ((a0 + a1) mod p) R),
          (Z.mod_small ((b0 + b1) mod p) R) by lia.
        rewrite !muln_exact by lia.
        pose proof (mul_reduced _ _ Hp T0 T1) as M2.
        rewrite (Z.mod_small (a0 * b0) D), (Z.mod_small (a1 * b1) D),
          (Z.mod_small (((a0 + a1) mod p) * ((b0 + b1) mod p)) D) by lia.
        destruct (addc_range_eqm (a0 * b0) (a1 * b1) Hp
                    ltac:(lia) ltac:(lia) ltac:(lia)) as [Sr Se].
        rewrite (Z.mod_small (addc cfg _ _) D) by lia.
        destruct (subc_range_eqm _ (addc cfg (a0 * b0) (a1 * b1))
                    Hp M2 ltac:(lia)) as [Cr Ce].
        rewrite (Z.mod_small _ D) by lia.
        apply (eqm_trans p _ _ _ Ce).
        apply (eqm_trans p _ ((a0 + a1) * (b0 + b1)
                              - (a0 * b0 + a1 * b1))).
        - apply eqm_minus; [| exact Se].
          apply eqm_mult; apply eqm_mod.
        - apply eqm_eq. ring. }
      destruct (FP_QNRES cfg); run_cmds; fold a0 a1 b0 b1; exact Hgoal.
Qed.

End Fp2.

(** *** The Karatsuba cross term of [fp3_muln_low] *)

(** With headroom: plain sums; the subtraction is exact. *)
Lemma cross_space x y u v :
  0 < p -> 2 * p <= R ->
  0 <= x < p -> 0 <= y < p -> 0 <= u < p -> 0 <= v < p ->
  let K := subc cfg
             (muln cfg (addn cfg x y mod R) (addn cfg u v mod R) mod D)
             (addd cfg (muln cfg x u mod D) (muln cfg y v mod D) mod D)
           mod D in
  0 <= K < p * R /\ eqm p K (x * v + y * u).
Proof.
  intros Hp0 Hroom Hx Hy Hu Hv K. subst K.
  pose proof R_pos as HR. pose proof D_eq as HD.
  assert (HpR : p * R < D) by (rewrite HD; nia).
  assert (Hpp : 2 * (p * p) <= p * R) by nia.
  rewrite !addn_exact by lia.
  rewrite (Z.mod_small (x + y) R), (Z.mod_small (u + v) R) by lia.
  rewrite !muln_exact by lia.
  assert (HS : 0 <= (x + y) * (u + v) < D) by (rewrite HD; nia).
  assert (Hxu : 0 <= x * u < p * p) by nia.
  assert (Hyv : 0 <= y * v < p * p) by nia.
  assert (Hxv : 0 <= x * v < p * p) by nia.
  assert (Hyu : 0 <= y * u < p * p) by nia.
  assert (EXP : (x + y) * (u + v) = (x * u + y * v) + (x * v + y * u))
    by ring.
  rewrite (Z.mod_small ((x + y) * (u + v)) D) by exact HS.
  rewrite (Z.mod_small (x * u) D), (Z.mod_small (y * v) D) by lia.
  rewrite addd_exact by lia.
  rewrite (Z.mod_small (x * u + y * v) D) by lia.
  rewrite subc_spec by lia.
  replace ((x + y) * (u + v) <? x * u + y * v) with false
    by (symmetry; apply Z.ltb_ge; lia).
  rewrite Z.mod_small by lia.
  split; [lia | apply eqm_eq; ring].
Qed.

(** Without the flag: reduced sums; the subtraction is corrected. *)
Lemma cross_nospace x y u v :
  0 < p -> 2 * p <= R ->
  0 <= x < p -> 0 <= y < p -> 0 <= u < p -> 0 <= v < p ->
  let K := subc cfg
             (muln cfg (addm cfg x y mod R) (addm cfg u v mod R) mod D)
             (addd cfg (muln cfg x u mod D) (muln cfg y v mod D) mod D)
           mod D in
  0 <= K < p * R /\ eqm p K (x * v + y * u).
Proof.
  intros Hp0 Hroom Hx Hy Hu Hv K. subst K.
  pose proof R_pos as HR. pose proof D_eq as HD.
  assert (Hp : 0 < p < R) by lia.
  assert (HpR : p * R < D) by (rewrite HD; nia).
  assert (Hpp : 2 * (p * p) <= p * R) by nia.
  rewrite !addm_spec by lia.
  pose proof (Z.mod_pos_bound (x + y) p ltac:(lia)) as T0.
  pose proof (Z.mod_pos_bound (u + v) p ltac:(lia)) as T1.
  rewrite (Z.mod_small ((x + y) mod p) R),
    (Z.mod_small ((u + v) mod p) R) by lia.
  rewrite !muln_exact by lia.
  pose proof (mul_reduced _ _ Hp T0 T1) as M2.
  assert (Hxu : 0 <= x * u < p * p) by nia.
  assert (Hyv : 0 <= y * v < p * p) by nia.
  rewrite (Z.mod_small (x * u) D), (Z.mod_small (y * v) D),
    (Z.mod_small (((x + y) mod p) * ((u + v) mod p)) D) by lia.
  rewrite addd_exact by lia.
  rewrite (Z.mod_small (x * u + y * v) D) by lia.
  destruct (subc_range_eqm _ (x * u + y * v) Hp M2 ltac:(lia)) as [Cr Ce].
  rewrite Z.mod_small by lia.
  split; [exact Cr |].
  apply (eqm_trans p _ _ _ Ce).
  apply (eqm_trans p _ ((x + y) * (u + v) - (x * u + y * v))).
  - apply eqm_minus; [| apply eqm_refl].
    apply eqm_mult; apply eqm_mod.
  - apply eqm_eq. ring.
Qed.

Section Fp3.
Variable s : state.

Let a0 := rd cfg (mem s) (At (A 0) 0) (FP_DIGS cfg).
Let a1 := rd cfg (mem s) (At (A 1) 0) (FP_DIGS cfg).
Let a2 := rd cfg (mem s) (At (A 2) 0) (FP_DIGS cfg).
Let b0 := rd cfg (mem s) (At (B 0) 0) (FP_DIGS cfg).
Let b1 := rd cfg (mem s) (At (B 1) 0) (FP_DIGS cfg).
Let b2 := rd cfg (mem s) (At (B 2) 0) (FP_DIGS cfg).

(** When the prime leaves one spare bit in its [FP_DIGS] digits, the limbs
    written by [fp3_muln_low] represent the schoolbook product of two
    reduced elements. *)
Lemma fp3_muln_low_value :
  0 < p -> 2 * p <= R -> fp_prime_get_cnr cfg < 0 ->
  a0 < p -> a1 < p -> a2 < p -> b0 < p -> b1 < p -> b2 < p ->
  let s' := fp3_muln_low cfg s in
  eqm p (rd cfg (mem s') (c_ 0) (2 * FP_DIGS cfg))
        (a0 * b0 + fp_prime_get_cnr cfg * (a1 * b2 + a2 * b1)) /\
  eqm p (rd cfg (mem s') (c_ 1) (2 * FP_DIGS cfg))
        (a0 * b1 + a1 * b0 + fp_prime_get_cnr cfg * (a2 * b2)) /\
  eqm p (rd cfg (mem s') (c_ 2) (2 * FP_DIGS cfg))
        (a0 * b2 + a2 * b0 + a1 * b1).
Proof.
  intros Hp0 Hroom Hc Ha0 Ha1 Ha2 Hb0 Hb1 Hb2 s'. subst s'.
  pose proof R_pos as HR. pose proof D_eq as HD.
  assert (Hp : 0 < p < R) by lia.
  assert (HpR : p * R < D) by (rewrite HD; nia).
  assert (Ga0 : 0 <= a0) by (apply rd_bounds; lia).
  assert (Ga1 : 0 <= a1) by (apply rd_bounds; lia).
  assert (Ga2 : 0 <= a2) by (apply rd_bounds; lia).
  assert (Gb0 : 0 <= b0) by (apply rd_bounds; lia).
  assert (Gb1 : 0 <= b1) by (apply rd_bounds; lia).
  assert (Gb2 : 0 <= b2) by (apply rd_bounds; lia).
  pose proof (mul_reduced a0 b0 Hp ltac:(lia) ltac:(lia)) as M0.
  pose proof (mul_reduced a1 b1 Hp ltac:(lia) ltac:(lia)) as M1.
  pose proof (mul_reduced a2 b2 Hp ltac:(lia) ltac:(lia)) as M2.
  set (k := Z.to_nat (-1 - fp_prime_get_cnr cfg)).
  assert (Hk : 1 + Z.of_nat k = - fp_prime_get_cnr cfg) by lia.
  (* limb 0: t0 and the (1,2) cross term, folded with the non-residue *)
  assert (L0 : forall K,
    0 <= K < p * R -> eqm p K (a1 * b2 + a2 * b1) ->
    eqm p (Nat.iter k (fun v => subc cfg v K mod D)
             (subc cfg (a0 * b0) K mod D))
          (a0 * b0 + fp_prime_get_cnr cfg * (a1 * b2 + a2 * b1))).
  { intros K HK EK.
    destruct (fp2_real_part (a0 * b0) K k Hp M0 HK) as [_ He].
    apply (eqm_trans p _ _ _ He). rewrite Hk.
    apply (eqm_trans p _ (a0 * b0
                          - - fp_prime_get_cnr cfg * (a1 * b2 + a2 * b1))).
    - apply eqm_minus; [apply eqm_refl |].
      apply eqm_mult; [apply eqm_refl | exact EK].
    - apply eqm_eq. ring. }
  (* limb 1: the (0,1) cross term and t2, folded with the non-residue *)
  assert (L1 : forall K,
    0 <= K < p * R -> eqm p K (a0 * b1 + a1 * b0) ->
    eqm p (Nat.iter k (fun v => subc cfg v (a2 * b2) mod D)
             (subc cfg K (a2 * b2) mod D))
          (a0 * b1 + a1 * b0 + fp_prime_get_cnr cfg * (a2 * b2))).
  { intros K HK EK.
    destruct (fp2_real_part K (a2 * b2) k Hp HK M2) as [_ He].
    apply (eqm_trans p _ _ _ He). rewrite Hk.
    apply (eqm_trans p _ (a0 * b1 + a1 * b0
                          - - fp_prime_get_cnr cfg * (a2 * b2))).
    - apply eqm_minus; [exact EK | apply eqm_refl].
    - apply eqm_eq. ring. }
  (* limb 2: the (0,2) cross term plus t1 *)
  assert (L2 : forall K,
    0 <= K < p * R -> eqm p K (a0 * b2 + a2 * b0) ->
    eqm p (addc cfg K (a1 * b1) mod D) (a0 * b2 + a2 * b0 + a1 * b1)).
  { intros K HK EK.
    destruct (addc_range_eqm K (a1 * b1) Hp ltac:(lia) ltac:(lia)
                ltac:(lia)) as [Sr Se].
    rewrite Z.mod_small by lia.
    apply (eqm_trans p _ _ _ Se).
    apply eqm_plus; [exact EK | apply eqm_refl]. }
  unfold fp3_muln_low.
  destruct (FP_SPACE cfg).
  - pose proof (cross_space a1 a2 b1 b2 Hp0 Hroom) as X12.
    pose proof (cross_space a0 a1 b0 b1 Hp0 Hroom) as X01.
    pose proof (cross_space a0 a2 b0 b2 Hp0 Hroom) as X02.
    cbv zeta in X12, X01, X02.
    specialize (X12 ltac:(lia) ltac:(lia) ltac:(lia) ltac:(lia)).
    specialize (X01 ltac:(lia) ltac:(lia) ltac:(lia) ltac:(lia)).
    specialize (X02 ltac:(lia) ltac:(lia) ltac:(lia) ltac:(lia)).
    repeat split; run_cmds; fold a0 a1 a2 b0 b1 b2.
    + rewrite (muln_exact a0 b0), (Z.mod_small (a0 * b0) D) by lia.
      apply L0; apply X12.
    + rewrite (muln_exact a2 b2), (Z.mod_small (a2 * b2) D) by lia.
      apply L1; apply X01.
    + rewrite (muln_exact a1 b1), (Z.mod_small (a1 * b1) D) by lia.
      apply L2; apply X02.
  - pose proof (cross_nospace a1 a2 b1 b2 Hp0 Hroom) as X12.
    pose proof (cross_nospace a0 a1 b0 b1 Hp0 Hroom) as X01.
    pose proof (cross_nospace a0 a2 b0 b2 Hp0 Hroom) as X02.
    cbv zeta in X12, X01, X02.
    specialize (X12 ltac:(lia) ltac:(lia) ltac:(lia) ltac:(lia)).
    specialize (X01 ltac:(lia) ltac:(lia) ltac:(lia) ltac:(lia)).
    specialize (X02 ltac:(lia) ltac:(lia) ltac:(lia) ltac:(lia)).
    repeat split; run_cmds; fold a0 a1 a2 b0 b1 b2.
    + rewrite (muln_exact a0 b0), (Z.mod_small (a0 * b0) D) by lia.
      apply L0; apply X12.
    + rewrite (muln_exact a2 b2), (Z.mod_small (a2 * b2) D) by lia.
      apply L1; apply X01.
    + rewrite (muln_exact a1 b1), (Z.mod_small (a1 * b1) D) by lia.
      apply L2; apply X02.
Qed.

End Fp3.

(** *** [fp2_mulc_low] *)

Lemma rd_call1_other f len op b off x s b' off' len' :
  buf_eqb b b' = false ->
  rd cfg (mem (call1 cfg f len op (At b off) x s)) (At b' off') len'
  = rd cfg (mem s) (At b' off') len'.
Proof.
  intros Hb. cbn [call1 mem wr rd]. unfold upd. rewrite Hb. reflexivity.
Qed.

Lemma radix_quarter :
  2 <= WSIZE cfg -> radix (WSIZE cfg) = 4 * 2 ^ (WSIZE cfg - 2).
Proof.
  intros H. unfold radix. change 4 with (2 ^ 2).
  rewrite <- Z.pow_add_r by lia. f_equal. lia.
Qed.

Lemma pw_succ k : 0 <= k -> pw cfg (k + 1) = radix (WSIZE cfg) * pw cfg k.
Proof.
  intros Hk. rewrite pw_add by lia. unfold pw at 2.
  rewrite Z.pow_1_r. ring.
Qed.

(** The normalisation clears the two top bits of the double-width limb
    and adds the prime times [2 ^ (WSIZE * FP_DIGS - 2)]: with the
    quarter [Q = R / 4] of the single-width modulus, the limb becomes
    [(c0 + p * Q) mod (Q * R)]. *)
Lemma mulc_normalize_value s0 :
  2 <= WSIZE cfg -> 0 <= p < R ->
  let Q := pw cfg (FP_DIGS cfg - 1) * 2 ^ (WSIZE cfg - 2) in
  rd cfg (mem (mulc_normalize s0)) (At (C 0) 0) (2 * FP_DIGS cfg)
  = (rd cfg (mem s0) (At (C 0) 0) (2 * FP_DIGS cfg) + p * Q) mod (Q * R).
Proof.
  intros Hw2 Hp Q. subst Q. rewrite !rd_at0.
  unfold mulc_normalize, seq, bn_lshb_low, bn_rshb_low, fp_addn_low,
    call1, call2.
  cbn [mem wr rd]. unfold upd. rewrite !buf_eqb_refl.
  unfold splice, lshb, rshb, addn.
  set (v := mem s0 (C 0)).
  set (P := pw cfg (FP_DIGS cfg - 1)).
  set (r4 := 2 ^ (WSIZE cfg - 2)).
  assert (HP : 0 < P) by (apply pw_pos; lia).
  assert (Hr4 : 0 < r4) by (apply Z.pow_pos_nonneg; lia).
  assert (ER : R = P * (4 * r4)).
  { replace (FP_DIGS cfg) with (FP_DIGS cfg - 1 + 1) at 1 by lia.
    rewrite pw_succ by lia. rewrite radix_quarter by lia.
    fold P r4. ring. }
  assert (EM : pw cfg (FP_DIGS cfg + 1) = 4 * r4 * (P * (4 * r4))).
  { rewrite pw_succ by lia. rewrite radix_quarter by lia. rewrite ER.
    reflexivity. }
  assert (ED : D = P * (4 * r4 * (P * (4 * r4)))).
  { rewrite D_eq, ER. ring. }
  replace (FP_DIGS cfg - 1 + (FP_DIGS cfg + 1)) with (2 * FP_DIGS cfg)
    by lia.
  replace (FP_DIGS cfg + FP_DIGS cfg) with (2 * FP_DIGS cfg) by lia.
  rewrite EM, ED, ER.
  pose proof (Window.normalize_arith P r4 p v HP Hr4 ltac:(lia)) as N.
  cbv zeta in N. rewrite N.
  f_equal. ring.
Qed.

Lemma mulc_normalize_other s0 b' off' len' :
  buf_eqb (C 0) b' = false ->
  rd cfg (mem (mulc_normalize s0)) (At b' off') len'
  = rd cfg (mem s0) (At b' off') len'.
Proof.
  intros Hb. unfold mulc_normalize, seq, bn_lshb_low, bn_rshb_low,
    fp_addn_low.
  rewrite rd_call1_other, rd_call2_other, rd_call1_other by exact Hb.
  reflexivity.
Qed.

(** Repeated plain subtraction. *)
Lemma iter_subd x y : forall k,
  Nat.iter k (fun v => subd cfg v y mod D) (subd cfg x y mod D)
  = (x - (1 + Z.of_nat k) * y) mod D.
Proof.
  pose proof (pw_pos (2 * FP_DIGS cfg) ltac:(lia)) as HD.
  induction k as [| k IH].
  - cbn [Nat.iter nat_rect Z.of_nat]. unfold subd.
    rewrite Z.mod_mod by lia. f_equal. ring.
  - cbn [Nat.iter nat_rect].
    fold (Nat.iter k (fun v => subd cfg v y mod D) (subd cfg x y mod D)).
    rewrite IH. unfold subd. rewrite Z.mod_mod by lia.
    rewrite Zminus_mod_idemp_l. f_equal. rewrite Nat2Z.inj_succ. ring.
Qed.

Section Fp2c.
Variable s : state.

Let a0 := rd cfg (mem s) (At (A 0) 0) (FP_DIGS cfg).
Let a1 := rd cfg (mem s) (At (A 1) 0) (FP_DIGS cfg).
Let b0 := rd cfg (mem s) (At (B 0) 0) (FP_DIGS cfg).
Let b1 := rd cfg (mem s) (At (B 1) 0) (FP_DIGS cfg).

(** The limbs written by [fp2_mulc_low], when the prime leaves the
    headroom that its plain sums and its normalisation need. *)
Lemma fp2_mulc_low_value :
  2 <= WSIZE cfg -> 0 < p ->
  4 * ((1 + Z.of_nat (fp2_extra_subs cfg)) * p) <= R ->
  a0 < p -> a1 < p -> b0 < p -> b1 < p ->
  let s' := fp2_mulc_low cfg s in
  eqm p (rd cfg (mem s') (c_ 0) (2 * FP_DIGS cfg))
        (a0 * b0 - (1 + Z.of_nat (fp2_extra_subs cfg)) * (a1 * b1)) /\
  eqm p (rd cfg (mem s') (c_ 1) (2 * FP_DIGS cfg))
        (a0 * b1 + a1 * b0).
Proof.
  intros Hw2 Hp0 Hroom Ha0 Ha1 Hb0 Hb1 s'. subst s'.
  pose proof R_pos as HR. pose proof D_eq as HD.
  set (e := Z.of_nat (fp2_extra_subs cfg)) in *.
  assert (He : 0 <= e) by (unfold e; lia).
  assert (Hp : 0 < p < R) by nia.
  assert (H2p : 2 * p <= R) by nia.
  assert (Ga0 : 0 <= a0) by (apply rd_bounds; lia).
  assert (Ga1 : 0 <= a1) by (apply rd_bounds; lia).
  assert (Gb0 : 0 <= b0) by (apply rd_bounds; lia).
  assert (Gb1 : 0 <= b1) by (apply rd_bounds; lia).
  assert (M00 : 0 <= a0 * b0 < p * p) by nia.
  assert (M11 : 0 <= a1 * b1 < p * p) by nia.
  assert (HpR : p * p < D) by (rewrite HD; nia).
  change (fp2_mulc_low cfg s)
    with (mulc_normalize
            (seq (seq (seq (seq (seq (seq (seq (seq
               (fp_addn_low cfg (t_ 0) (a_ 0) (a_ 1))
               (fp_addn_low cfg (t_ 1) (b_ 0) (b_ 1)))
               (fp_muln_low cfg (c_ 0) (a_ 0) (b_ 0)))
               (fp_muln_low cfg (c_ 1) (a_ 1) (b_ 1)))
               (fp_muln_low cfg (t_ 2) (t_ 0) (t_ 1)))
               (fp_addd_low cfg (t_ 0) (c_ 0) (c_ 1)))
               (fp_subd_low cfg (c_ 0) (c_ 0) (c_ 1)))
               (if FP_QNRES cfg then skip
                else for_gt (-1) (fp_prime_get_qnr cfg)
                       (fp_subd_low cfg (c_ 0) (c_ 0) (c_ 1))))
               (fp_subd_low cfg (c_ 1) (t_ 2) (t_ 0)) s)).
  split.
  - unfold c_. rewrite mulc_normalize_value by lia.
    set (Q := pw cfg (FP_DIGS cfg - 1) * 2 ^ (WSIZE cfg - 2)).
    assert (EQ : R = 4 * Q).
    { unfold Q. replace (FP_DIGS cfg) with (FP_DIGS cfg - 1 + 1) at 1
        by lia.
      rewrite pw_succ by lia. rewrite radix_quarter by lia. ring. }
    assert (HQ : 0 < Q) by lia.
    assert (Hgoal : forall k, Z.of_nat k = e ->
      eqm p ((Nat.iter k (fun v => subd cfg v (a1 * b1) mod D)
                (subd cfg (a0 * b0) (a1 * b1) mod D) + p * Q)
             mod (Q * R))
            (a0 * b0 - (1 + e) * (a1 * b1))).
    { intros k Hk. rewrite iter_subd, Hk.
      assert (ED : D = 4 * (Q * R)) by (rewrite HD, EQ; ring).
      assert (HQR : 0 < Q * R) by nia.
      rewrite ED.
      rewrite <- (Zplus_mod_idemp_l
                    ((a0 * b0 - (1 + e) * (a1 * b1)) mod (4 * (Q * R)))).
      rewrite Z.mod_mod_divide by (exists 4; ring).
      rewrite Zplus_mod_idemp_l.
      assert (Hsub : (1 + e) * (a1 * b1) <= p * Q) by nia.
      rewrite Z.mod_small by nia.
      apply eqm_plus_mul. }
    unfold fp2_extra_subs in e.
    destruct (FP_QNRES cfg); run_cmds; fold a0 a1 b0 b1;
      rewrite !muln_exact by lia;
      rewrite ?(Z.mod_small (a0 * b0) D), ?(Z.mod_small (a1 * b1) D) by lia.
    + apply (Hgoal 0%nat). reflexivity.
    + apply Hgoal. reflexivity.
  - unfold c_. rewrite mulc_normalize_other by reflexivity.
    pose proof (imag_space a0 a1 b0 b1 Hp0 H2p
                  ltac:(lia) ltac:(lia) ltac:(lia) ltac:(lia)) as Hgoal.
    destruct (FP_QNRES cfg); run_cmds; fold a0 a1 b0 b1;
      rewrite Hgoal; apply eqm_refl.
Qed.

End Fp2c.

(** *** The calls made by the kernels *)

Lemma log_call1 f len op d x s :
  log (call1 cfg f len op d x s) = log s ++ [Call f d [x]].
Proof. reflexivity. Qed.

Ltac run_log :=
  unfold fp2_muln_low, fp2_mulc_low, fp3_muln_low, seq, skip,
    fp_addn_low, fp_addm_low, fp_addd_low, fp_addc_low, fp_subd_low,
    fp_subc_low, fp_muln_low, bn_lshb_low, bn_rshb_low;
  repeat first
    [ rewrite log_call2 | rewrite log_call1
    | rewrite for_gt_iter | rewrite iter_call2_log ];
  repeat rewrite <- app_assoc.

Lemma fp2_muln_low_log s :
  log (fp2_muln_low cfg s) = log s ++ fp2_muln_trace.
Proof.
  unfold fp2_muln_trace, fp2_extra_subs, fp2_muln_low.
  destruct (FP_SPACE cfg), (FP_QNRES cfg); run_log; reflexivity.
Qed.

Lemma fp2_mulc_low_log s :
  log (fp2_mulc_low cfg s) = log s ++ fp2_mulc_trace.
Proof.
  unfold fp2_mulc_trace, mulc_normalize_trace, fp2_extra_subs, fp2_mulc_low.
  destruct (FP_QNRES cfg); run_log; reflexivity.
Qed.

Lemma fp3_muln_low_log s :
  log (fp3_muln_low cfg s) = log s ++ fp3_muln_trace.
Proof.
  unfold fp3_muln_trace, fp3_extra_subs, fp3_muln_low.
  destruct (FP_SPACE cfg); run_log; reflexivity.
Qed.

(** *** The reducing kernels *)

(** Whatever happens, [fp2_mulm_low] releases what it acquired; and when
    the allocator cannot supply both limbs of the scoped buffer, the call
    throws and has called no primitive: the arrays are as they were. *)
Lemma fp2_mulm_low_paths (s : mstate) :
  let out := fp2_mulm_low cfg s in
  live (snd out) = live s /\ avail (snd out) = avail s /\
  ((avail s < 2)%nat ->
   fst out = Thrown ERR_CAUGHT /\ st (snd out) = st s) /\
  (rdc_ok s = false -> fst out = Thrown ERR_CAUGHT) /\
  ((2 <= avail s)%nat -> rdc_ok s = true ->
   fst out = Done /\
   st (snd out) = fp2_rdcn_low cfg (fp2_muln_low cfg (st s))).
Proof.
  destruct s as [st0 held0 live0 avail0 rdc0].
  unfold fp2_mulm_low, TRY_CATCH_FINALLY, eseq, dv2_null, dv2_new, dv2_free,
    dv_null, dv_new, dv_free, may_fault, lift, THROW, set_held.
  destruct avail0 as [| [| k]]; destruct rdc0; cbn;
    repeat split; intros; try reflexivity; try lia; try discriminate.
Qed.

Lemma fp3_mulm_low_paths (s : mstate) :
  let out := fp3_mulm_low cfg s in
  live (snd out) = live s /\ avail (snd out) = avail s /\
  ((avail s < 3)%nat ->
   fst out = Thrown ERR_CAUGHT /\ st (snd out) = st s) /\
  (rdc_ok s = false -> fst out = Thrown ERR_CAUGHT) /\
  ((3 <= avail s)%nat -> rdc_ok s = true ->
   fst out = Done /\
   st (snd out) = fp3_rdcn_low cfg (fp3_muln_low cfg (st s))).
Proof.
  destruct s as [st0 held0 live0 avail0 rdc0].
  unfold fp3_mulm_low, TRY_CATCH_FINALLY, eseq, dv3_null, dv3_new, dv3_free,
    dv_null, dv_new, dv_free, may_fault, lift, THROW, set_held.
  destruct avail0 as [| [| [| k]]]; destruct rdc0; cbn;
    repeat split; intros; try reflexivity; try lia; try discriminate.
Qed.

(** Reading the caller's output after the reduction. *)
Lemma fp2_rdcn_low_out s i :
  (i < 2)%nat ->
  rd cfg (mem (fp2_rdcn_low cfg s)) (out_ i) (FP_DIGS cfg)
  = rdcn cfg (rd cfg (mem s) (c_ i) (2 * FP_DIGS cfg)) mod R.
Proof.
  intros Hi. unfold fp2_rdcn_low, seq, fp_rdcn_low, out_, c_.
  rewrite !rd_at0. cbn [mem wr rd]. unfold upd.
  destruct i as [| [| i]]; [| | lia]; cbn [buf_eqb Nat.eqb];
    rewrite ?pw_0, ?Z.div_1_r; apply splice0_mod; lia.
Qed.

(** *** Counting calls *)

Lemma calls_app e l1 l2 : calls e (l1 ++ l2) = (calls e l1 + calls e l2)%nat.
Proof. unfold calls. rewrite filter_app, length_app. reflexivity. Qed.

Lemma calls_repeat_same e e' k :
  event_eqb e e' = true -> calls e (repeat e' k) = k.
Proof.
  intros H. unfold calls. induction k as [| k IH]; [reflexivity |].
  cbn [repeat filter]. rewrite H. cbn [length]. rewrite IH. reflexivity.
Qed.

Lemma calls_repeat_diff e e' k :
  event_eqb e e' = false -> calls e (repeat e' k) = 0%nat.
Proof.
  intros H. unfold calls. induction k as [| k IH]; [reflexivity |].
  cbn [repeat filter]. rewrite H. exact IH.
Qed.

(** The non-residue loops in the lists of calls. *)
Lemma fp2_loop_calls :
  calls (ev Fp_subc (c_ 0) (c_ 0) (c_ 1)) fp2_muln_trace
  = (1 + fp2_extra_subs cfg)%nat.
Proof.
  unfold fp2_muln_trace. rewrite !calls_app.
  rewrite calls_repeat_same by reflexivity.
  destruct (FP_SPACE cfg); cbn; lia.
Qed.

Lemma fp3_loop_calls :
  calls (ev Fp_subc (c_ 0) (c_ 0) (t_ 4)) fp3_muln_trace
  = fp3_extra_subs cfg /\
  calls (ev Fp_subc (c_ 1) (c_ 1) (t_ 2)) fp3_muln_trace
  = fp3_extra_subs cfg.
Proof.
  unfold fp3_muln_trace. cbv zeta. rewrite !calls_app.
  rewrite (calls_repeat_same (ev Fp_subc (c_ 0) (c_ 0) (t_ 4))
             (ev Fp_subc (c_ 0) (c_ 0) (t_ 4))) by reflexivity.
  rewrite (calls_repeat_same (ev Fp_subc (c_ 1) (c_ 1) (t_ 2))
             (ev Fp_subc (c_ 1) (c_ 1) (t_ 2))) by reflexivity.
  rewrite (calls_repeat_diff (ev Fp_subc (c_ 0) (c_ 0) (t_ 4))
             (ev Fp_subc (c_ 1) (c_ 1) (t_ 2))) by reflexivity.
  rewrite (calls_repeat_diff (ev Fp_subc (c_ 1) (c_ 1) (t_ 2))
             (ev Fp_subc (c_ 0) (c_ 0) (t_ 4))) by reflexivity.
  destruct (FP_SPACE cfg); cbn; lia.
Qed.

Lemma fp2_mulc_low_split s :
  fp2_mulc_low cfg s = mulc_normalize (fp2_mulc_karatsuba s).
Proof. reflexivity. Qed.

Lemma fp2_mulc_trace_plain :
  fp2_mulc_trace = map plain_call fp2_muln_trace ++ mulc_normalize_trace.
Proof.
  unfold fp2_mulc_trace, fp2_muln_trace.
  rewrite !map_app, map_repeat. destruct (FP_SPACE cfg);
    cbn [map plain_call plain ev ev_prim ev_dst ev_src];
    repeat rewrite <- app_assoc; reflexivity.
Qed.

Lemma quarter_pow :
  2 <= WSIZE cfg ->
  pw cfg (FP_DIGS cfg - 1) * 2 ^ (WSIZE cfg - 2)
  = 2 ^ (WSIZE cfg * FP_DIGS cfg - 2).
Proof.
  intros H. unfold pw, radix. rewrite <- Z.pow_mul_r by lia.
  rewrite <- Z.pow_add_r by nia. f_equal. ring.
Qed.

Lemma R_pow : R = 2 ^ (WSIZE cfg * FP_DIGS cfg).
Proof. unfold pw, radix. rewrite <- Z.pow_mul_r by lia. reflexivity. Qed.

(** *** What the kernels leave untouched *)

Lemma mem_call2_other f dlen slen op b off x y s b' :
  buf_eqb b b' = false ->
  mem (call2 cfg f dlen slen op (At b off) x y s) b' = mem s b'.
Proof.
  intros Hb. cbn [call2 mem wr]. unfold upd. rewrite Hb. reflexivity.
Qed.

Lemma mem_call1_other f len op b off x s b' :
  buf_eqb b b' = false ->
  mem (call1 cfg f len op (At b off) x s) b' = mem s b'.
Proof.
  intros Hb. cbn [call1 mem wr]. unfold upd. rewrite Hb. reflexivity.
Qed.

Lemma mem_iter_call2_other f dlen slen op b off x y b' : forall k s,
  buf_eqb b b' = false ->
  mem (Nat.iter k (call2 cfg f dlen slen op (At b off) x y) s) b' = mem s b'.
Proof.
  induction k as [| k IH]; intros s Hb; [reflexivity |].
  cbn [Nat.iter nat_rect]. rewrite mem_call2_other by exact Hb.
  apply IH. exact Hb.
Qed.

(** The three kernels write the arrays [c] and [t0 .. t6] only. *)
Lemma kernels_frame s b' :
  (forall i, buf_eqb (C i) b' = false) ->
  (forall i, buf_eqb (T i) b' = false) ->
  mem (fp2_muln_low cfg s) b' = mem s b' /\
  mem (fp2_mulc_low cfg s) b' = mem s b' /\
  mem (fp3_muln_low cfg s) b' = mem s b'.
Proof.
  intros HC HT.
  unfold fp2_muln_low, fp2_mulc_low, fp3_muln_low.
  destruct (FP_SPACE cfg), (FP_QNRES cfg);
    unfold seq, skip, fp_addn_low, fp_addm_low, fp_addd_low, fp_addc_low,
      fp_subd_low, fp_subc_low, fp_muln_low, bn_lshb_low, bn_rshb_low,
      a_, b_, c_, t_;
    repeat split;
    repeat first
      [ rewrite mem_call2_other by (apply HC || apply HT)
      | rewrite mem_call1_other by (apply HC || apply HT)
      | rewrite for_gt_iter
      | rewrite mem_iter_call2_other by (apply HC || apply HT) ];
    reflexivity.
Qed.

(** *** Counting the calls of a primitive *)

Lemma prim_calls_app f l1 l2 :
  prim_calls f (l1 ++ l2) = (prim_calls f l1 + prim_calls f l2)%nat.
Proof. unfold prim_calls. rewrite filter_app, length_app. reflexivity. Qed.

Lemma prim_calls_repeat_diff f e k :
  prim_eqb f (ev_prim e) = false -> prim_calls f (repeat e k) = 0%nat.
Proof.
  intros H. unfold prim_calls. induction k as [| k IH]; [reflexivity |].
  cbn [repeat filter]. rewrite H. exact IH.
Qed.

(** Karatsuba: three multiplications for the quadratic kernels, six for
    the cubic one. *)
Lemma kernels_muln_calls :
  prim_calls Fp_muln fp2_muln_trace = 3%nat /\
  prim_calls Fp_muln fp2_mulc_trace = 3%nat /\
  prim_calls Fp_muln fp3_muln_trace = 6%nat.
Proof.
  unfold fp2_muln_trace, fp2_mulc_trace, fp3_muln_trace,
    mulc_normalize_trace.
  cbv zeta. rewrite !prim_calls_app.
  rewrite !prim_calls_repeat_diff by reflexivity.
  destruct (FP_SPACE cfg); repeat split; reflexivity.
Qed.

(** *** The range of the limbs written *)

Section Fp2Range.
Variable s : state.

Let a0 := rd cfg (mem s) (At (A 0) 0) (FP_DIGS cfg).
Let a1 := rd cfg (mem s) (At (A 1) 0) (FP_DIGS cfg).
Let b0 := rd cfg (mem s) (At (B 0) 0) (FP_DIGS cfg).
Let b1 := rd cfg (mem s) (At (B 1) 0) (FP_DIGS cfg).

(** Built with [FP_SPACE], [fp2_muln_low] writes the cross term itself
    into limb 1: no multiple of the prime is added or removed. *)
Lemma fp2_muln_low_space_exact :
  FP_SPACE cfg = true -> 0 < p -> 2 * p <= R ->
  a0 < p -> a1 < p -> b0 < p -> b1 < p ->
  rd cfg (mem (fp2_muln_low cfg s)) (c_ 1) (2 * FP_DIGS cfg)
  = a0 * b1 + a1 * b0.
Proof.
  intros ES Hp0 Hroom Ha0 Ha1 Hb0 Hb1.
  assert (Ga0 : 0 <= a0) by (apply rd_bounds; lia).
  assert (Ga1 : 0 <= a1) by (apply rd_bounds; lia).
  assert (Gb0 : 0 <= b0) by (apply rd_bounds; lia).
  assert (Gb1 : 0 <= b1) by (apply rd_bounds; lia).
  pose proof (imag_space a0 a1 b0 b1 Hp0 Hroom
                ltac:(lia) ltac:(lia) ltac:(lia) ltac:(lia)) as Hgoal.
  unfold fp2_muln_low. rewrite ES.
  destruct (FP_QNRES cfg); run_cmds; fold a0 a1 b0 b1; exact Hgoal.
Qed.

(** Both limbs written by [fp2_muln_low] are below [p * R]: their upper
    halves are below the prime. *)
Lemma fp2_muln_low_range :
  0 < p < R -> (FP_SPACE cfg = true -> 2 * p <= R) ->
  a0 < p -> a1 < p -> b0 < p -> b1 < p ->
  let s' := fp2_muln_low cfg s in
  0 <= rd cfg (mem s') (c_ 0) (2 * FP_DIGS cfg) < p * R /\
  0 <= rd cfg (mem s') (c_ 1) (2 * FP_DIGS cfg) < p * R.
Proof.
  intros Hp Hspace Ha0 Ha1 Hb0 Hb1 s'. subst s'.
  pose proof R_pos as HR. pose proof D_eq as HD.
  assert (HpR : p * R < D) by (rewrite HD; nia).
  assert (Ga0 : 0 <= a0) by (apply rd_bounds; lia).
  assert (Ga1 : 0 <= a1) by (apply rd_bounds; lia).
  assert (Gb0 : 0 <= b0) by (apply rd_bounds; lia).
  assert (Gb1 : 0 <= b1) by (apply rd_bounds; lia).
  pose proof (mul_reduced a0 b0 Hp ltac:(lia) ltac:(lia)) as M00.
  pose proof (mul_reduced a1 b1 Hp ltac:(lia) ltac:(lia)) as M11.
  split.
  - assert (Hgoal : forall k,
      0 <= Nat.iter k (fun v => subc cfg v (a1 * b1) mod D)
             (subc cfg (a0 * b0) (a1 * b1) mod D) < p * R).
    { intros k.
      destruct (fp2_real_part (a0 * b0) (a1 * b1) k Hp M00 M11) as [Hr _].
      exact Hr. }
    unfold fp2_muln_low.
    destruct (FP_SPACE cfg), (FP_QNRES cfg); run_cmds;
      fold a0 a1 b0 b1;
      rewrite !muln_exact by lia;
      rewrite ?(Z.mod_small (a0 * b0) D), ?(Z.mod_small (a1 * b1) D) by lia.
    + apply (Hgoal 0%nat).
    + apply Hgoal.
    + apply (Hgoal 0%nat).
    + apply Hgoal.
  - destruct (FP_SPACE cfg) eqn:ES.
    + specialize (Hspace eq_refl).
      rewrite (fp2_muln_low_space_exact ES) by lia.
      assert (0 <= a0 * b1 < p * p) by nia.
      assert (0 <= a1 * b0 < p * p) by nia.
      assert (2 * (p * p) <= p * R) by nia.
      lia.
    + assert (Hgoal :
        0 <= subc cfg
               (muln cfg (addm cfg a0 a1 mod R) (addm cfg b0 b1 mod R)
                mod D)
               (addc cfg (muln cfg a0 b0 mod D) (muln cfg a1 b1 mod D)
                mod D) mod D < p * R).
      { rewrite !addm_spec by lia.
        pose proof (Z.mod_pos_bound (a0 + a1) p ltac:(lia)) as T0.
        pose proof (Z.mod_pos_bound (b0 + b1) p ltac:(lia)) as T1.
        rewrite (Z.mod_small ((a0 + a1) mod p) R),
          (Z.mod_small ((b0 + b1) mod p) R) by lia.
        rewrite !muln_exact by lia.
        pose proof (mul_reduced _ _ Hp T0 T1) as M2.
        rewrite (Z.mod_small (a0 * b0) D), (Z.mod_small (a1 * b1) D),
          (Z.mod_small (((a0 + a1) mod p) * ((b0 + b1) mod p)) D) by lia.
        destruct (addc_range_eqm (a0 * b0) (a1 * b1) Hp
                    ltac:(lia) ltac:(lia) ltac:(lia)) as [Sr _].
        rewrite (Z.mod_small (addc cfg _ _) D) by lia.
        destruct (subc_range_eqm _ (addc cfg (a0 * b0) (a1 * b1))
                    Hp M2 ltac:(lia)) as [Cr _].
        rewrite (Z.mod_small _ D) by lia. exact Cr. }
      unfold fp2_muln_low. rewrite ES.
      destruct (FP_QNRES cfg); run_cmds; fold a0 a1 b0 b1; exact Hgoal.
Qed.

(** The limbs written by [fp2_mulc_low], as integers: the real part is the
    signed value [a0 b0 - k a1 b1] moved into the non-negative range by
    the prime times a quarter of [R]; the imaginary part is the cross
    term. *)
Lemma fp2_mulc_low_exact :
  2 <= WSIZE cfg -> 0 < p ->
  4 * ((1 + Z.of_nat (fp2_extra_subs cfg)) * p) <= R ->
  a0 < p -> a1 < p -> b0 < p -> b1 < p ->
  let s' := fp2_mulc_low cfg s in
  let Q := pw cfg (FP_DIGS cfg - 1) * 2 ^ (WSIZE cfg - 2) in
  rd cfg (mem s') (c_ 0) (2 * FP_DIGS cfg)
  = a0 * b0 - (1 + Z.of_nat (fp2_extra_subs cfg)) * (a1 * b1) + p * Q /\
  rd cfg (mem s') (c_ 1) (2 * FP_DIGS cfg) = a0 * b1 + a1 * b0.
Proof.
  intros Hw2 Hp0 Hroom Ha0 Ha1 Hb0 Hb1 s' Q. subst s'.
  pose proof R_pos as HR. pose proof D_eq as HD.
  set (e := Z.of_nat (fp2_extra_subs cfg)) in *.
  assert (He : 0 <= e) by (unfold e; lia).
  assert (Hp : 0 < p < R) by nia.
  assert (H2p : 2 * p <= R) by nia.
  assert (Ga0 : 0 <= a0) by (apply rd_bounds; lia).
  assert (Ga1 : 0 <= a1) by (apply rd_bounds; lia).
  assert (Gb0 : 0 <= b0) by (apply rd_bounds; lia).
  assert (Gb1 : 0 <= b1) by (apply rd_bounds; lia).
  assert (M00 : 0 <= a0 * b0 < p * p) by nia.
  assert (M11 : 0 <= a1 * b1 < p * p) by nia.
  assert (HpR : p * p < D) by (rewrite HD; nia).
  rewrite fp2_mulc_low_split. unfold fp2_mulc_karatsuba.
  split.
  - unfold c_. rewrite mulc_normalize_value by lia. fold Q.
    assert (EQ : R = 4 * Q).
    { unfold Q. replace (FP_DIGS cfg) with (FP_DIGS cfg - 1 + 1) at 1
        by lia.
      rewrite pw_succ by lia. rewrite radix_quarter by lia. ring. }
    assert (HQ : 0 < Q) by lia.
    assert (Hgoal : forall k, Z.of_nat k = e ->
      (Nat.iter k (fun v => subd cfg v (a1 * b1) mod D)
         (subd cfg (a0 * b0) (a1 * b1) mod D) + p * Q) mod (Q * R)
      = a0 * b0 - (1 + e) * (a1 * b1) + p * Q).
    { intros k Hk. rewrite iter_subd, Hk.
      assert (ED : D = 4 * (Q * R)) by (rewrite HD, EQ; ring).
      assert (HQR : 0 < Q * R) by nia.
      rewrite ED.
      rewrite <- (Zplus_mod_idemp_l
                    ((a0 * b0 - (1 + e) * (a1 * b1)) mod (4 * (Q * R)))).
      rewrite Z.mod_mod_divide by (exists 4; ring).
      rewrite Zplus_mod_idemp_l.
      assert (Hsub : (1 + e) * (a1 * b1) <= p * Q) by nia.
      apply Z.mod_small. nia. }
    unfold fp2_extra_subs in e.
    destruct (FP_QNRES cfg); run_cmds; fold a0 a1 b0 b1;
      rewrite !muln_exact by lia;
      rewrite ?(Z.mod_small (a0 * b0) D), ?(Z.mod_small (a1 * b1) D) by lia.
    + apply (Hgoal 0%nat). reflexivity.
    + apply Hgoal. reflexivity.
  - unfold c_. rewrite mulc_normalize_other by reflexivity.
    pose proof (imag_space a0 a1 b0 b1 Hp0 H2p
                  ltac:(lia) ltac:(lia) ltac:(lia) ltac:(lia)) as Hgoal.
    destruct (FP_QNRES cfg); run_cmds; fold a0 a1 b0 b1; exact Hgoal.
Qed.

End Fp2Range.

Section Fp3Range.
Variable s : state.

Let a0 := rd cfg (mem s) (At (A 0) 0) (FP_DIGS cfg).
Let a1 := rd cfg (mem s) (At (A 1) 0) (FP_DIGS cfg).
Let a2 := rd cfg (mem s) (At (A 2) 0) (FP_DIGS cfg).
Let b0 := rd cfg (mem s) (At (B 0) 0) (FP_DIGS cfg).
Let b1 := rd cfg (mem s) (At (B 1) 0) (FP_DIGS cfg).
Let b2 := rd cfg (mem s) (At (B 2) 0) (FP_DIGS cfg).

(** When the prime leaves one spare bit, the three limbs written by
    [fp3_muln_low] are below [p * R]. *)
Lemma fp3_muln_low_range :
  0 < p -> 2 * p <= R ->
  a0 < p -> a1 < p -> a2 < p -> b0 < p -> b1 < p -> b2 < p ->
  let s' := fp3_muln_low cfg s in
  0 <= rd cfg (mem s') (c_ 0) (2 * FP_DIGS cfg) < p * R /\
  0 <= rd cfg (mem s') (c_ 1) (2 * FP_DIGS cfg) < p * R /\
  0 <= rd cfg (mem s') (c_ 2) (2 * FP_DIGS cfg) < p * R.
Proof.
  intros Hp0 Hroom Ha0 Ha1 Ha2 Hb0 Hb1 Hb2 s'. subst s'.
  pose proof R_pos as HR. pose proof D_eq as HD.
  assert (Hp : 0 < p < R) by lia.
  assert (HpR : p * R < D) by (rewrite HD; nia).
  assert (Ga0 : 0 <= a0) by (apply rd_bounds; lia).
  assert (Ga1 : 0 <= a1) by (apply rd_bounds; lia).
  assert (Ga2 : 0 <= a2) by (apply rd_bounds; lia).
  assert (Gb0 : 0 <= b0) by (apply rd_bounds; lia).
  assert (Gb1 : 0 <= b1) by (apply rd_bounds; lia).
  assert (Gb2 : 0 <= b2) by (apply rd_bounds; lia).
  pose proof (mul_reduced a0 b0 Hp ltac:(lia) ltac:(lia)) as M0.
  pose proof (mul_reduced a1 b1 Hp ltac:(lia) ltac:(lia)) as M1.
  pose proof (mul_reduced a2 b2 Hp ltac:(lia) ltac:(lia)) as M2.
  set (k := Z.to_nat (-1 - fp_prime_get_cnr cfg)).
  assert (L0 : forall K, 0 <= K < p * R ->
    0 <= Nat.iter k (fun v => subc cfg v K mod D)
           (subc cfg (a0 * b0) K mod D) < p * R).
  { intros K HK.
    destruct (fp2_real_part (a0 * b0) K k Hp M0 HK) as [Hr _]. exact Hr. }
  assert (L1 : forall K, 0 <= K < p * R ->
    0 <= Nat.iter k (fun v => subc cfg v (a2 * b2) mod D)
           (subc cfg K (a2 * b2) mod D) < p * R).
  { intros K HK.
    destruct (fp2_real_part K (a2 * b2) k Hp HK M2) as [Hr _]. exact Hr. }
  assert (L2 : forall K, 0 <= K < p * R ->
    0 <= addc cfg K (a1 * b1) mod D < p * R).
  { intros K HK.
    destruct (addc_range_eqm K (a1 * b1) Hp ltac:(lia) ltac:(lia)
                ltac:(lia)) as [Sr _].
    rewrite Z.mod_small by lia. exact Sr. }
  unfold fp3_muln_low.
  destruct (FP_SPACE cfg).
  - pose proof (cross_space a1 a2 b1 b2 Hp0 Hroom) as X12.
    pose proof (cross_space a0 a1 b0 b1 Hp0 Hroom) as X01.
    pose proof (cross_space a0 a2 b0 b2 Hp0 Hroom) as X02.
    cbv zeta in X12, X01, X02.
    specialize (X12 ltac:(lia) ltac:(lia) ltac:(lia) ltac:(lia)).
    specialize (X01 ltac:(lia) ltac:(lia) ltac:(lia) ltac:(lia)).
    specialize (X02 ltac:(lia) ltac:(lia) ltac:(lia) ltac:(lia)).
    split; [| split]; run_cmds; fold a0 a1 a2 b0 b1 b2.
    + rewrite (muln_exact a0 b0), (Z.mod_small (a0 * b0) D) by lia.
      apply L0; apply X12.
    + rewrite (muln_exact a2 b2), (Z.mod_small (a2 * b2) D) by lia.
      apply L1; apply X01.
    + rewrite (muln_exact a1 b1), (Z.mod_small (a1 * b1) D) by lia.
      apply L2; apply X02.
  - pose proof (cross_nospace a1 a2 b1 b2 Hp0 Hroom) as X12.
    pose proof (cross_nospace a0 a1 b0 b1 Hp0 Hroom) as X01.
    pose proof (cross_nospace a0 a2 b0 b2 Hp0 Hroom) as X02.
    cbv zeta in X12, X01, X02.
    specialize (X12 ltac:(lia) ltac:(lia) ltac:(lia) ltac:(lia)).
    specialize (X01 ltac:(lia) ltac:(lia) ltac:(lia) ltac:(lia)).
    specialize (X02 ltac:(lia) ltac:(lia) ltac:(lia) ltac:(lia)).
    split; [| split]; run_cmds; fold a0 a1 a2 b0 b1 b2.
    + rewrite (muln_exact a0 b0), (Z.mod_small (a0 * b0) D) by lia.
      apply L0; apply X12.
    + rewrite (muln_exact a2 b2), (Z.mod_small (a2 * b2) D) by lia.
      apply L1; apply X01.
    + rewrite (muln_exact a1 b1), (Z.mod_small (a1 * b1) D) by lia.
      apply L2; apply X02.
Qed.

End Fp3Range.

(** *** The outcome of the reducing kernels *)

Lemma fp3_rdcn_low_out s i :
  (i < 3)%nat ->
  rd cfg (mem (fp3_rdcn_low cfg s)) (out_ i) (FP_DIGS cfg)
  = rdcn cfg (rd cfg (mem s) (c_ i) (2 * FP_DIGS cfg)) mod R.
Proof.
  intros Hi. unfold fp3_rdcn_low, seq, fp_rdcn_low, out_, c_.
  rewrite !rd_at0. cbn [mem wr rd]. unfold upd.
  destruct i as [| [| [| i]]]; [| | | lia]; cbn [buf_eqb Nat.eqb];
    rewrite ?pw_0, ?Z.div_1_r; apply splice0_mod; lia.
Qed.

(** The result of the reducing kernels, by cases on the allocator and on
    the reduction. *)
Lemma fp2_mulm_low_outcome (s : mstate) :
  fst (fp2_mulm_low cfg s)
  = (if (2 <=? avail s)%nat && rdc_ok s then Done else Thrown ERR_CAUGHT).
Proof.
  destruct s as [st0 held0 live0 avail0 rdc0].
  destruct avail0 as [| [| k]]; destruct rdc0; reflexivity.
Qed.

Lemma fp3_mulm_low_outcome (s : mstate) :
  fst (fp3_mulm_low cfg s)
  = (if (3 <=? avail s)%nat && rdc_ok s then Done else Thrown ERR_CAUGHT).
Proof.
  destruct s as [st0 held0 live0 avail0 rdc0].
  destruct avail0 as [| [| [| k]]]; destruct rdc0; reflexivity.
Qed.

(** *** A non-residue index of [-1] or above *)

Lemma for_gt_none q body : -1 <= q -> for_gt (-1) q body = skip.
Proof.
  intros Hq. unfold for_gt.
  replace (Z.to_nat (-1 - q)) with 0%nat by lia. reflexivity.
Qed.

Lemma fp2_qnr_floor s :
  -1 <= fp_prime_get_qnr cfg ->
  fp2_muln_low cfg s = fp2_muln_low (with_qnr cfg (-1) (FP_QNRES cfg)) s /\
  fp2_mulc_low cfg s = fp2_mulc_low (with_qnr cfg (-1) (FP_QNRES cfg)) s.
Proof.
  intros Hq. unfold fp2_muln_low, fp2_mulc_low.
  rewrite !(for_gt_none (fp_prime_get_qnr cfg)) by exact Hq.
  split; destruct (FP_QNRES cfg) eqn:E; unfold with_qnr; cbn [FP_QNRES];
    reflexivity.
Qed.

(** *** The limbs written depend on the operands only *)

(** Whatever the arrays [c] and [t0 .. t6] hold before the call, the limbs
    written are the same: no kernel reads a digit of [c] or of a temporary
    before it has written it. *)
Lemma kernels_read_operands_only s1 s2 :
  (forall i, mem s1 (A i) = mem s2 (A i)) ->
  (forall i, mem s1 (B i) = mem s2 (B i)) ->
  (forall i, (i < 2)%nat ->
     rd cfg (mem (fp2_muln_low cfg s1)) (c_ i) (2 * FP_DIGS cfg)
     = rd cfg (mem (fp2_muln_low cfg s2)) (c_ i) (2 * FP_DIGS cfg)) /\
  (forall i, (i < 3)%nat ->
     rd cfg (mem (fp3_muln_low cfg s1)) (c_ i) (2 * FP_DIGS cfg)
     = rd cfg (mem (fp3_muln_low cfg s2)) (c_ i) (2 * FP_DIGS cfg)).
Proof.
  intros HA HB. split; intros i Hi.
  - destruct i as [| [| i]]; [| | lia];
      unfold fp2_muln_low; destruct (FP_SPACE cfg), (FP_QNRES cfg);
      run_cmds; rewrite !rd_at0, !HA, !HB; reflexivity.
  - destruct i as [| [| [| i]]]; [| | | lia];
      unfold fp3_muln_low; destruct (FP_SPACE cfg);
      run_cmds; rewrite !rd_at0, !HA, !HB; reflexivity.
Qed.

Lemma mulc_reads_operands_only s1 s2 :
  2 <= WSIZE cfg -> 0 <= p < R ->
  (forall i, mem s1 (A i) = mem s2 (A i)) ->
  (forall i, mem s1 (B i) = mem s2 (B i)) ->
  forall i, (i < 2)%nat ->
  rd cfg (mem (fp2_mulc_low cfg s1)) (c_ i) (2 * FP_DIGS cfg)
  = rd cfg (mem (fp2_mulc_low cfg s2)) (c_ i) (2 * FP_DIGS cfg).
Proof.
  intros Hw2 Hp HA HB i Hi. rewrite !fp2_mulc_low_split.
  unfold fp2_mulc_karatsuba.
  destruct i as [| [| i]]; [| | lia]; unfold c_.
  - rewrite !mulc_normalize_value by assumption. cbv zeta. f_equal. f_equal.
    destruct (FP_QNRES cfg); run_cmds; rewrite !rd_at0, !HA, !HB;
      reflexivity.
  - rewrite !mulc_normalize_other by reflexivity.
    destruct (FP_QNRES cfg); run_cmds; rewrite !rd_at0, !HA, !HB;
      reflexivity.
Qed.

End Facts.
End PpFacts.

(* ================================================================== *)
(** ** Leading-zero count: proofs                                     *)
(* ================================================================== *)

Module ArchFacts.
Import Arch.

Lemma testbit_top_true k x :
  0 <= k -> 0 <= x < 2 ^ (k + 1) -> Z.testbit x k = true ->
  x <> 0 /\ Z.log2 x = k.
Proof.
  intros Hk Hx Hb.
  assert (H2 : 2 ^ k <= x).
  { destruct (Z_lt_dec x (2 ^ k)) as [Hlt |]; [| lia].
    rewrite Z.testbit_true in Hb by lia.
    rewrite Z.div_small in Hb by lia. discriminate. }
  assert (0 < 2 ^ k) by (apply Z.pow_pos_nonneg; lia).
  split; [lia |]. apply Z.log2_unique; lia.
Qed.

Lemma testbit_top_false k x :
  0 <= k -> 0 <= x < 2 ^ (k + 1) -> Z.testbit x k = false -> x < 2 ^ k.
Proof.
  intros Hk Hx Hb.
  destruct (Z_lt_dec x (2 ^ k)) as [Hlt | Hge]; [exact Hlt | exfalso].
  assert (0 < 2 ^ k) by (apply Z.pow_pos_nonneg; lia).
  assert (E : x / 2 ^ k = 1).
  { symmetry. apply (Z.div_unique x (2 ^ k) 1 (x - 2 ^ k)).
    - left. rewrite Z.pow_add_r in Hx by lia. change (2 ^ 1) with 2 in Hx.
      lia.
    - ring. }
  assert (Ht : Z.testbit x k = true).
  { apply Z.testbit_true; [lia |]. rewrite E. reflexivity. }
  congruence.
Qed.

(** The scan counts the leading zeros of any value that fits. *)
Lemma lz_scan_spec : forall k x,
  0 <= x < 2 ^ Z.of_nat k -> lz_scan k x = leading_zeros (Z.of_nat k) x.
Proof.
  induction k as [| k IH]; intros x Hx.
  - change (2 ^ Z.of_nat 0) with 1 in Hx. assert (x = 0) by lia.
    subst. reflexivity.
  - cbn [lz_scan]. rewrite Nat2Z.inj_succ in *.
    replace (Z.succ (Z.of_nat k)) with (Z.of_nat k + 1) in * by lia.
    destruct (Z.testbit x (Z.of_nat k)) eqn:E.
    + destruct (testbit_top_true (Z.of_nat k) x ltac:(lia) Hx E) as [Hnz Hl].
      unfold leading_zeros. apply Z.eqb_neq in Hnz. rewrite Hnz, Hl. lia.
    + pose proof (testbit_top_false (Z.of_nat k) x ltac:(lia) Hx E) as Hlt.
      rewrite IH by lia. unfold leading_zeros.
      destruct (x =? 0); lia.
Qed.

Lemma lzcnt32_soft_hard x :
  0 <= x < 2 ^ 32 -> lzcnt32_soft x = lzcnt32_hard x.
Proof. intros Hx. apply (lz_scan_spec 32 x). exact Hx. Qed.

Lemma leading_zeros_bounds w x :
  0 <= x < 2 ^ w -> 0 <= w -> 0 <= leading_zeros w x <= w.
Proof.
  intros Hx Hw. unfold leading_zeros.
  destruct (x =? 0) eqn:E; [lia |]. apply Z.eqb_neq in E.
  assert (Z.log2 x < w) by (apply Z.log2_lt_pow2; lia).
  pose proof (Z.log2_nonneg x). lia.
Qed.

(** On a word that fits in 32 bits, [arch_lzcnt] counts the leading zeros
    of the [WSIZE]-bit word, whichever implementation was bound. *)
Lemma arch_lzcnt_fits WSIZE hard c x :
  0 < WSIZE <= 64 -> 0 <= x < 2 ^ WSIZE -> x < 2 ^ 32 ->
  arch_lzcnt WSIZE (arch_init hard c) x = Some (leading_zeros WSIZE x).
Proof.
  intros HW Hx H32. unfold arch_lzcnt, arch_init. cbn [lzcnt_ptr].
  f_equal. unfold to_uint32. rewrite (Z.mod_small x) by lia.
  assert (E : (if hard then lzcnt32_hard else lzcnt32_soft) x
              = leading_zeros 32 x).
  { destruct hard; [reflexivity | apply lzcnt32_soft_hard; lia]. }
  rewrite E.
  assert (E2 : leading_zeros 32 x - (8 * 4 - WSIZE) = leading_zeros WSIZE x).
  { unfold leading_zeros. destruct (x =? 0); lia. }
  rewrite E2. apply Z.mod_small.
  pose proof (leading_zeros_bounds WSIZE x Hx ltac:(lia)). lia.
Qed.

(** For a digit of 32 bits or more, [arch_lzcnt] is the count of the low
    32 bits plus the width above 32: the bits above bit 31 are not seen. *)
Lemma arch_lzcnt_low_half WSIZE hard c x :
  32 <= WSIZE <= 64 ->
  arch_lzcnt WSIZE (arch_init hard c) x
  = Some (leading_zeros 32 (x mod 2 ^ 32) + (WSIZE - 32)).
Proof.
  intros HW. unfold arch_lzcnt, arch_init. cbn [lzcnt_ptr].
  f_equal. unfold to_uint32.
  pose proof (Z.mod_pos_bound x (2 ^ 32) ltac:(lia)) as Hx.
  assert (E : (if hard then lzcnt32_hard else lzcnt32_soft) (x mod 2 ^ 32)
              = leading_zeros 32 (x mod 2 ^ 32)).
  { destruct hard; [reflexivity | apply lzcnt32_soft_hard; exact Hx]. }
  rewrite E.
  pose proof (leading_zeros_bounds 32 (x mod 2 ^ 32) Hx ltac:(lia)) as Hb.
  rewrite Z.mod_small by lia. lia.
Qed.

End ArchFacts.

(* ================================================================== *)
(** ** The properties of the specification                            *)
(* ================================================================== *)

Module PpClaims.
Import Dig PpMul PpFacts Examples.

(** C2.  For reduced inputs [a0, a1, b0, b1], the double-width pair written
    by [fp2_muln_low] represents the schoolbook product: limb 0 is
    congruent to [a0 b0 + qnr a1 b1] and limb 1 to [a0 b1 + a1 b0] modulo
    the prime.  The configuration is a consistent one: [qnr] is negative,
    [FP_SPACE] is defined only when the prime leaves a spare bit, and
    [FP_QNRES] only when [qnr = -1]. *)
Theorem fp2_muln_low_schoolbook (cfg : config) (s : state) :
  0 < WSIZE cfg -> 0 < FP_DIGS cfg ->
  0 < fp_prime_get cfg < pw cfg (FP_DIGS cfg) ->
  fp_prime_get_qnr cfg < 0 ->
  (FP_SPACE cfg = true -> 2 * fp_prime_get cfg <= pw cfg (FP_DIGS cfg)) ->
  (FP_QNRES cfg = true -> fp_prime_get_qnr cfg = -1) ->
  reduced cfg s (a_ 0) -> reduced cfg s (a_ 1) ->
  reduced cfg s (b_ 0) -> reduced cfg s (b_ 1) ->
  let a0 := fpv cfg s (a_ 0) in
  let a1 := fpv cfg s (a_ 1) in
  let b0 := fpv cfg s (b_ 0) in
  let b1 := fpv cfg s (b_ 1) in
  let s' := fp2_muln_low cfg s in
  eqm (fp_prime_get cfg) (dvv cfg s' (c_ 0))
      (a0 * b0 + fp_prime_get_qnr cfg * (a1 * b1)) /\
  eqm (fp_prime_get cfg) (dvv cfg s' (c_ 1)) (a0 * b1 + a1 * b0).
Proof.
  intros Hw Hn Hp Hq Hspace Hqn Ha0 Ha1 Hb0 Hb1.
  destruct (fp2_muln_low_value cfg Hw Hn s Hp Hspace Ha0 Ha1 Hb0 Hb1)
    as [E0 E1].
  unfold reduced, fpv, dvv, a_, b_ in *. cbv zeta.
  split; [| exact E1].
  apply (eqm_trans _ _ _ _ E0). apply eqm_eq.
  assert (Hk : 1 + Z.of_nat (fp2_extra_subs cfg) = - fp_prime_get_qnr cfg).
  { unfold fp2_extra_subs. destruct (FP_QNRES cfg).
    - rewrite Hqn by reflexivity. reflexivity.
    - lia. }
  rewrite Hk. ring.
Qed.

(** A build with both flags: [FP_SPACE] with the spare bits of [p = 13] in
    a 32-bit digit, and [FP_QNRES] with [qnr = -1]. *)
Lemma fp2_muln_low_schoolbook_witness :
  let cfg := with_qnr (cfg13 true true) (-1) true in
  let s' := fp2_muln_low cfg (initial (arrays 3 5 0 4 2 0)) in
  eqm 13 (dvv cfg s' (c_ 0)) (3 * 4 + -1 * (5 * 2)) /\
  eqm 13 (dvv cfg s' (c_ 1)) (3 * 2 + 5 * 4).
Proof.
  apply (fp2_muln_low_schoolbook (with_qnr (cfg13 true true) (-1) true)
           (initial (arrays 3 5 0 4 2 0)));
    try (vm_compute; reflexivity); try (vm_compute; split; reflexivity);
    intros _; vm_compute; discriminate.
Defined.

(** C3.  The code breaks the claim.  Built without [FP_SPACE] for the
    256-bit prime that fills its four 64-bit digits, on the reduced inputs
    [a = b = (0, p - 1, p - 1)], the double-width sum [t6 = t1 + t2] that
    [fp3_muln_low] makes with [fp_addd_low] wraps, and limb 0 does not
    represent [a0 b0 + cnr (a1 b2 + a2 b1)].  ([fp2_muln_low] makes its
    double-width sum with [fp_addc_low] in this build.) *)
Lemma fp3_muln_low_wraps :
  let cfg := cfg256 in
  let q := p256 - 1 in
  let s := initial (arrays 0 q q 0 q q) in
  reduced cfg s (a_ 0) /\ reduced cfg s (a_ 1) /\ reduced cfg s (a_ 2) /\
  reduced cfg s (b_ 0) /\ reduced cfg s (b_ 1) /\ reduced cfg s (b_ 2) /\
  ~ eqm (fp_prime_get cfg) (dvv cfg (fp3_muln_low cfg s) (c_ 0))
        (0 * 0 + fp_prime_get_cnr cfg * (q * q + q * q)).
Proof.
  cbv zeta. repeat split; try (vm_compute; reflexivity).
  vm_compute. discriminate.
Qed.

(** C7, as stated, fails.  [fp2_mulc_low] relies on headroom above the
    prime.  With the 256-bit prime that fills its four 64-bit digits and
    the reduced inputs [a = b = (0, p - 1)], [fp2_muln_low] followed by
    the reduction writes the real part [- (p - 1)^2 mod p], and
    [fp2_mulc_low] followed by the reduction writes another element. *)
Lemma fp2_mulc_low_needs_headroom :
  let cfg := cfg256 in
  let q := p256 - 1 in
  let s := initial (arrays 0 q 0 0 q 0) in
  reduced cfg s (a_ 0) /\ reduced cfg s (a_ 1) /\
  reduced cfg s (b_ 0) /\ reduced cfg s (b_ 1) /\
  fpv cfg (fp2_rdcn_low cfg (fp2_muln_low cfg s)) (out_ 0)
  = (0 * 0 + fp_prime_get_qnr cfg * (q * q)) mod p256 /\
  fpv cfg (fp2_rdcn_low cfg (fp2_muln_low cfg s)) (out_ 0)
  <> fpv cfg (fp2_rdcn_low cfg (fp2_mulc_low cfg s)) (out_ 0).
Proof.
  cbv zeta. repeat split; try (vm_compute; reflexivity).
  vm_compute. discriminate.
Qed.

(** C7, amended.  For the same reduced inputs, [fp2_muln_low] followed by
    the reduction and [fp2_mulc_low] followed by the reduction write the
    same fully reduced field elements, when the prime leaves the headroom
    that the convention of [fp2_mulc_low] requires: [4 * (-qnr) * p] fits
    in [FP_DIGS] digits. *)
Theorem fp2_muln_mulc_same_reduced (cfg : config) (s : state) :
  2 <= WSIZE cfg -> 0 < FP_DIGS cfg -> 0 < fp_prime_get cfg ->
  fp_prime_get_qnr cfg < 0 ->
  4 * (- fp_prime_get_qnr cfg * fp_prime_get cfg) <= pw cfg (FP_DIGS cfg) ->
  reduced cfg s (a_ 0) -> reduced cfg s (a_ 1) ->
  reduced cfg s (b_ 0) -> reduced cfg s (b_ 1) ->
  let sn := fp2_rdcn_low cfg (fp2_muln_low cfg s) in
  let sc := fp2_rdcn_low cfg (fp2_mulc_low cfg s) in
  forall i, (i < 2)%nat ->
  fpv cfg sn (out_ i) = fpv cfg sc (out_ i) /\
  0 <= fpv cfg sn (out_ i) < fp_prime_get cfg.
Proof.
  intros Hw2 Hn Hp0 Hq Hroom Ha0 Ha1 Hb0 Hb1 sn sc i Hi.
  assert (Hw : 0 < WSIZE cfg) by lia.
  assert (Hsubs : 1 + Z.of_nat (fp2_extra_subs cfg)
                  <= - fp_prime_get_qnr cfg).
  { unfold fp2_extra_subs. destruct (FP_QNRES cfg); lia. }
  assert (Hroom' : 4 * ((1 + Z.of_nat (fp2_extra_subs cfg))
                        * fp_prime_get cfg) <= pw cfg (FP_DIGS cfg)) by nia.
  assert (Hp : 0 < fp_prime_get cfg < pw cfg (FP_DIGS cfg)) by nia.
  destruct (fp2_muln_low_value cfg Hw Hn s Hp ltac:(intros; nia)
              Ha0 Ha1 Hb0 Hb1) as [N0 N1].
  destruct (fp2_mulc_low_value cfg Hw Hn s Hw2 Hp0 Hroom'
              Ha0 Ha1 Hb0 Hb1) as [C0 C1].
  unfold sn, sc, fpv. rewrite !(fp2_rdcn_low_out cfg Hw Hn) by exact Hi.
  unfold rdcn.
  assert (Hm : forall x, 0 <= x mod fp_prime_get cfg
                         < pw cfg (FP_DIGS cfg)).
  { intros x. pose proof (Z.mod_pos_bound x (fp_prime_get cfg) Hp0). lia. }
  rewrite (Z.mod_small (dvv cfg (fp2_muln_low cfg s) (c_ i)
                         mod fp_prime_get cfg)) by apply Hm.
  rewrite (Z.mod_small (dvv cfg (fp2_mulc_low cfg s) (c_ i)
                         mod fp_prime_get cfg)) by apply Hm.
  split; [| apply Z.mod_pos_bound; lia].
  unfold dvv.
  destruct i as [| [| i]]; [| | lia].
  - exact (eqm_trans _ _ _ _ N0 (eqm_sym _ _ _ C0)).
  - exact (eqm_trans _ _ _ _ N1 (eqm_sym _ _ _ C1)).
Qed.

Lemma fp2_muln_mulc_same_reduced_witness :
  let cfg := cfg13 true false in
  let s := initial (arrays 3 5 0 4 2 0) in
  fpv cfg (fp2_rdcn_low cfg (fp2_muln_low cfg s)) (out_ 0)
  = fpv cfg (fp2_rdcn_low cfg (fp2_mulc_low cfg s)) (out_ 0) /\
  fpv cfg (fp2_rdcn_low cfg (fp2_muln_low cfg s)) (out_ 1)
  = fpv cfg (fp2_rdcn_low cfg (fp2_mulc_low cfg s)) (out_ 1).
Proof.
  cbv zeta.
  assert (H : forall i, (i < 2)%nat ->
    fpv (cfg13 true false)
      (fp2_rdcn_low (cfg13 true false)
         (fp2_muln_low (cfg13 true false)
            (initial (arrays 3 5 0 4 2 0)))) (out_ i)
    = fpv (cfg13 true false)
        (fp2_rdcn_low (cfg13 true false)
           (fp2_mulc_low (cfg13 true false)
              (initial (arrays 3 5 0 4 2 0)))) (out_ i) /\
    0 <= fpv (cfg13 true false)
           (fp2_rdcn_low (cfg13 true false)
              (fp2_muln_low (cfg13 true false)
                 (initial (arrays 3 5 0 4 2 0)))) (out_ i)
      < fp_prime_get (cfg13 true false)).
  { apply (fp2_muln_mulc_same_reduced (cfg13 true false)
             (initial (arrays 3 5 0 4 2 0)));
      try (vm_compute; reflexivity); vm_compute; discriminate. }
  split; [apply (H 0%nat) | apply (H 1%nat)]; lia.
Defined.

(** C5, as stated, fails on two counts.  In [fp3_muln_low] the loop of
    limb 0 subtracts [t4], the (1,2) cross term, and never the second
    diagonal product [t1]; and in [fp2_muln_low] built with [FP_QNRES] the
    loop is absent whatever [qnr] is.  Here [qnr = cnr = -2], so one
    additional subtraction is claimed in each place. *)
Lemma nonresidue_loops_differ :
  let cfg := cfg13 false true in
  let s := initial (arrays 3 5 7 4 2 9) in
  Z.to_nat (- fp_prime_get_cnr cfg - 1) = 1%nat /\
  calls (ev Fp_subc (c_ 0) (c_ 0) (t_ 1)) (log (fp3_muln_low cfg s)) = 0%nat /\
  calls (ev Fp_subc (c_ 0) (c_ 0) (t_ 4)) (log (fp3_muln_low cfg s)) = 1%nat /\
  Z.to_nat (- fp_prime_get_qnr cfg - 1) = 1%nat /\
  calls (ev Fp_subc (c_ 0) (c_ 0) (c_ 1)) (log (fp2_muln_low cfg s))
  = 1%nat.
Proof. vm_compute. repeat split. Qed.

(** C5, amended.  In [fp2_muln_low], the subtraction producing the real
    part is followed by exactly [-qnr - 1] more subtractions of the second
    diagonal product [c1] when [FP_QNRES] is not defined, and by none when
    it is.  In [fp3_muln_low], in every configuration, the subtraction
    producing limb 0 is followed by exactly [-cnr - 1] more subtractions
    of the cross term [t4], and the one producing limb 1 by exactly
    [-cnr - 1] more subtractions of [t2]. *)
Theorem nonresidue_loop_turns (cfg : config) (s : state) :
  fp_prime_get_qnr cfg < 0 -> fp_prime_get_cnr cfg < 0 ->
  log (fp2_muln_low cfg s) = log s ++ fp2_muln_trace cfg /\
  calls (ev Fp_subc (c_ 0) (c_ 0) (c_ 1)) (fp2_muln_trace cfg)
  = (1 + fp2_extra_subs cfg)%nat /\
  Z.of_nat (fp2_extra_subs cfg)
  = (if FP_QNRES cfg then 0 else - fp_prime_get_qnr cfg - 1) /\
  log (fp3_muln_low cfg s) = log s ++ fp3_muln_trace cfg /\
  calls (ev Fp_subc (c_ 0) (c_ 0) (t_ 4)) (fp3_muln_trace cfg)
  = fp3_extra_subs cfg /\
  calls (ev Fp_subc (c_ 1) (c_ 1) (t_ 2)) (fp3_muln_trace cfg)
  = fp3_extra_subs cfg /\
  Z.of_nat (fp3_extra_subs cfg) = - fp_prime_get_cnr cfg - 1.
Proof.
  intros Hq Hc.
  split; [apply fp2_muln_low_log |].
  split; [apply fp2_loop_calls |].
  split; [unfold fp2_extra_subs; destruct (FP_QNRES cfg); lia |].
  split; [apply fp3_muln_low_log |].
  split; [apply fp3_loop_calls |].
  split; [apply fp3_loop_calls | unfold fp3_extra_subs; lia].
Qed.

Lemma nonresidue_loop_turns_witness :
  let cfg := cfg13 false false in
  let s := initial (arrays 3 5 7 4 2 9) in
  log (fp2_muln_low cfg s) = log s ++ fp2_muln_trace cfg /\
  calls (ev Fp_subc (c_ 0) (c_ 0) (c_ 1)) (fp2_muln_trace cfg)
  = (1 + fp2_extra_subs cfg)%nat /\
  Z.of_nat (fp2_extra_subs cfg)
  = (if FP_QNRES cfg then 0 else - fp_prime_get_qnr cfg - 1) /\
  log (fp3_muln_low cfg s) = log s ++ fp3_muln_trace cfg /\
  calls (ev Fp_subc (c_ 0) (c_ 0) (t_ 4)) (fp3_muln_trace cfg)
  = fp3_extra_subs cfg /\
  calls (ev Fp_subc (c_ 1) (c_ 1) (t_ 2)) (fp3_muln_trace cfg)
  = fp3_extra_subs cfg /\
  Z.of_nat (fp3_extra_subs cfg) = - fp_prime_get_cnr cfg - 1.
Proof.
  apply (nonresidue_loop_turns (cfg13 false false)
           (initial (arrays 3 5 7 4 2 9))); vm_compute; reflexivity.
Defined.

(** C6.  [fp2_mulm_low] and [fp3_mulm_low] release on every exit path what
    they acquired: the number of live buffers and the allocator are as
    before the call, whether the call completes, the acquisition faults or
    the reduction faults.  When the acquisition of the scoped buffer
    fails, the call throws to its caller and every array, the caller's
    output among them, is unmodified. *)
Theorem mulm_low_fault_safe (cfg : config) (s : mstate) :
  (let out := fp2_mulm_low cfg s in
   live (snd out) = live s /\ avail (snd out) = avail s /\
   ((avail s < 2)%nat ->
    fst out = Thrown ERR_CAUGHT /\ st (snd out) = st s /\
    forall i, mem (st (snd out)) (Out i) = mem (st s) (Out i))) /\
  (let out := fp3_mulm_low cfg s in
   live (snd out) = live s /\ avail (snd out) = avail s /\
   ((avail s < 3)%nat ->
    fst out = Thrown ERR_CAUGHT /\ st (snd out) = st s /\
    forall i, mem (st (snd out)) (Out i) = mem (st s) (Out i))).
Proof.
  split; cbv zeta.
  - destruct (fp2_mulm_low_paths cfg s) as (L & V & F & _).
    split; [exact L |]. split; [exact V |].
    intros Ha. destruct (F Ha) as [Hr Hs].
    split; [exact Hr |]. split; [exact Hs |].
    intros i. rewrite Hs. reflexivity.
  - destruct (fp3_mulm_low_paths cfg s) as (L & V & F & _).
    split; [exact L |]. split; [exact V |].
    intros Ha. destruct (F Ha) as [Hr Hs].
    split; [exact Hr |]. split; [exact Hs |].
    intros i. rewrite Hs. reflexivity.
Qed.

(** A forced acquisition fault: the allocator has one buffer left. *)
Lemma mulm_low_fault_safe_witness :
  let cfg := cfg13 false false in
  let s := caller (arrays 3 5 7 4 2 9) 1 true in
  fst (fp2_mulm_low cfg s) = Thrown ERR_CAUGHT /\
  live (snd (fp2_mulm_low cfg s)) = 5%nat /\
  fst (fp3_mulm_low cfg s) = Thrown ERR_CAUGHT /\
  live (snd (fp3_mulm_low cfg s)) = 5%nat.
Proof.
  cbv zeta.
  destruct (mulm_low_fault_safe (cfg13 false false)
              (caller (arrays 3 5 7 4 2 9) 1 true))
    as [(L2 & _ & F2) (L3 & _ & F3)].
  split; [apply F2; vm_compute; lia |].
  split; [exact L2 |].
  split; [apply F3; vm_compute; lia | exact L3].
Defined.

(** C8, as stated, fails.  The additions and subtractions of
    [fp2_mulc_low] are the plain primitives, whose results are not kept
    below the prime: its first call is [fp_addn_low], and on the reduced
    inputs [a0 = a1 = 12] modulo 13 that call writes 24. *)
Lemma fp2_mulc_low_sum_exceeds_prime :
  let cfg := cfg13 true false in
  let s := initial (arrays 12 12 0 4 2 0) in
  reduced cfg s (a_ 0) /\ reduced cfg s (a_ 1) /\
  hd_error (log (fp2_mulc_low cfg s))
  = Some (ev Fp_addn (t_ 0) (a_ 0) (a_ 1)) /\
  fpv cfg (fp_addn_low cfg (t_ 0) (a_ 0) (a_ 1) s) (t_ 0) = 24 /\
  ~ 24 < fp_prime_get cfg.
Proof.
  cbv zeta. repeat split; try (vm_compute; reflexivity).
  vm_compute. discriminate.
Qed.

(** C8, amended.  [fp2_mulc_low] makes the calls of [fp2_muln_low] with
    every addition and subtraction replaced by its plain counterpart
    ([fp_addn_low], [fp_addd_low], [fp_subd_low]: no correction by the
    prime), followed by the three calls of the normalisation; and the
    normalisation turns the real-part limb [c0] into
    [(c0 + p * 2^(WSIZE * FP_DIGS - 2)) mod 2^(2 * WSIZE * FP_DIGS - 2)]
    and leaves the other limb as it is. *)
Theorem fp2_mulc_low_steps (cfg : config) (s : state) :
  2 <= WSIZE cfg -> 0 < FP_DIGS cfg ->
  0 <= fp_prime_get cfg < pw cfg (FP_DIGS cfg) ->
  log (fp2_muln_low cfg s) = log s ++ fp2_muln_trace cfg /\
  log (fp2_mulc_low cfg s)
  = log s ++ map plain_call (fp2_muln_trace cfg)
          ++ mulc_normalize_trace cfg /\
  fp2_mulc_low cfg s = mulc_normalize cfg (fp2_mulc_karatsuba cfg s) /\
  dvv cfg (fp2_mulc_low cfg s) (c_ 0)
  = (dvv cfg (fp2_mulc_karatsuba cfg s) (c_ 0)
     + fp_prime_get cfg * 2 ^ (WSIZE cfg * FP_DIGS cfg - 2))
    mod 2 ^ (2 * (WSIZE cfg * FP_DIGS cfg) - 2) /\
  dvv cfg (fp2_mulc_low cfg s) (c_ 1)
  = dvv cfg (fp2_mulc_karatsuba cfg s) (c_ 1).
Proof.
  intros Hw2 Hn Hp. assert (Hw : 0 < WSIZE cfg) by lia.
  split; [apply fp2_muln_low_log |].
  split; [rewrite fp2_mulc_low_log, fp2_mulc_trace_plain; reflexivity |].
  split; [reflexivity |].
  rewrite fp2_mulc_low_split. unfold dvv, c_.
  split.
  - rewrite (mulc_normalize_value cfg Hw Hn) by assumption.
    rewrite (quarter_pow cfg Hw Hn Hw2), (R_pow cfg Hw Hn).
    rewrite <- Z.pow_add_r by nia. do 2 f_equal. ring.
  - apply mulc_normalize_other. reflexivity.
Qed.

Lemma fp2_mulc_low_steps_witness :
  let cfg := cfg13 true false in
  let s := initial (arrays 3 5 0 4 2 0) in
  dvv cfg (fp2_mulc_low cfg s) (c_ 0)
  = (dvv cfg (fp2_mulc_karatsuba cfg s) (c_ 0) + 13 * 2 ^ 30) mod 2 ^ 62.
Proof.
  cbv zeta.
  destruct (fp2_mulc_low_steps (cfg13 true false)
              (initial (arrays 3 5 0 4 2 0)))
    as (_ & _ & _ & E & _);
    [vm_compute; discriminate | vm_compute; reflexivity
    | vm_compute; split; [discriminate | reflexivity] |].
  exact E.
Defined.

(** C10.  Built with [FP_QNRES], [fp2_muln_low] and [fp2_mulc_low] have no
    non-residue loop and do, whatever [fp_prime_get_qnr()] returns, what
    the build without the flag does when [qnr = -1]; the two loops of
    [fp3_muln_low] have no such guard and make [-cnr - 1] turns whatever
    the flags are. *)
Theorem FP_QNRES_guard (cfg : config) (s : state) :
  FP_QNRES cfg = true -> fp_prime_get_cnr cfg < 0 ->
  fp2_extra_subs cfg = 0%nat /\
  fp2_muln_low cfg s = fp2_muln_low (with_qnr cfg (-1) false) s /\
  fp2_mulc_low cfg s = fp2_mulc_low (with_qnr cfg (-1) false) s /\
  (forall q flag,
     log (fp3_muln_low (with_qnr cfg q flag) s)
     = log s ++ fp3_muln_trace (with_qnr cfg q flag) /\
     calls (ev Fp_subc (c_ 0) (c_ 0) (t_ 4))
       (fp3_muln_trace (with_qnr cfg q flag))
     = Z.to_nat (- fp_prime_get_cnr cfg - 1) /\
     calls (ev Fp_subc (c_ 1) (c_ 1) (t_ 2))
       (fp3_muln_trace (with_qnr cfg q flag))
     = Z.to_nat (- fp_prime_get_cnr cfg - 1)).
Proof.
  intros HQ Hc.
  split; [unfold fp2_extra_subs; rewrite HQ; reflexivity |].
  split; [unfold fp2_muln_low; rewrite HQ; reflexivity |].
  split; [unfold fp2_mulc_low; rewrite HQ; reflexivity |].
  intros q flag.
  split; [apply fp3_muln_low_log |].
  destruct (fp3_loop_calls (with_qnr cfg q flag)) as [C0 C1].
  split; [rewrite C0 | rewrite C1]; unfold fp3_extra_subs;
    cbn [with_qnr fp_prime_get_cnr]; f_equal; lia.
Qed.

Lemma FP_QNRES_guard_witness :
  let cfg := cfg13 false true in
  let s := initial (arrays 3 5 7 4 2 9) in
  fp2_muln_low cfg s = fp2_muln_low (with_qnr cfg (-1) false) s /\
  fp2_mulc_low cfg s = fp2_mulc_low (with_qnr cfg (-1) false) s.
Proof.
  cbv zeta.
  destruct (FP_QNRES_guard (cfg13 false true)
              (initial (arrays 3 5 7 4 2 9)))
    as (_ & E1 & E2 & _);
    [reflexivity | vm_compute; reflexivity |].
  split; [exact E1 | exact E2].
Defined.

End PpClaims.

Module BnClaims.
Import Dig BnSqr DigFacts SqrFacts.

(** C1.  For 32-bit and 64-bit digits, every [size >= 1] that an [int]
    holds and every sequence [a] of [size] digits, [bn_sqrn_low] writes
    [2 * size] digits whose little-endian value is exactly the square of
    the value of [a]. *)
Theorem bn_sqrn_low_square (w : Z) (a : list Z) (size : nat) :
  w = 32 \/ w = 64 ->
  (1 <= size)%nat -> Z.of_nat size <= INT_MAX ->
  length a = size -> Forall (is_dig w) a ->
  length (bn_sqrn_low w a size) = (2 * size)%nat /\
  Forall (is_dig w) (bn_sqrn_low w a size) /\
  value w (bn_sqrn_low w a size) = value w a ^ 2.
Proof.
  intros Hw Hs Hmax Hlen Ha. subst size.
  assert (Hw0 : 0 < w) by (destruct Hw; lia).
  assert (Hr : Z.of_nat (length a) <= radix w).
  { unfold INT_MAX in Hmax. unfold radix.
    assert (2 ^ 32 <= 2 ^ w) by (apply Z.pow_le_mono_r; destruct Hw; lia).
    lia. }
  destruct (bn_sqrn_low_value w Hw0 a Ha Hr) as (L & G & V).
  split; [exact L |]. split; [exact G |].
  rewrite V. ring.
Qed.

(** The all-ones input of two 32-bit digits. *)
Lemma bn_sqrn_low_square_witness :
  length (bn_sqrn_low 32 [4294967295; 4294967295] 2) = 4%nat /\
  Forall (is_dig 32) (bn_sqrn_low 32 [4294967295; 4294967295] 2) /\
  value 32 (bn_sqrn_low 32 [4294967295; 4294967295] 2)
  = value 32 [4294967295; 4294967295] ^ 2.
Proof.
  apply (bn_sqrn_low_square 32 [4294967295; 4294967295] 2).
  - left; reflexivity.
  - lia.
  - vm_compute; discriminate.
  - reflexivity.
  - repeat constructor; vm_compute; discriminate.
Defined.

(** C4, as stated, fails.  With [a = [0; 1]] (the value [2^32]) and a
    zero accumulator, [bn_sqra_low] leaves the accumulator at zero and
    returns no carry, while the square of [a] is [2^64]. *)
Lemma bn_sqra_low_not_square :
  let out := bn_sqra_low 32 [0; 0; 0] [0; 1] 2 in
  out = ([0; 0; 0], 0) /\
  value 32 (fst out) + radix 32 ^ 3 * snd out
  <> value 32 [0; 0; 0] + value 32 [0; 1] ^ 2.
Proof. vm_compute. split; [reflexivity | discriminate]. Qed.

(** C4, amended.  For an accumulator [c] of [size + 1] digits and [a] of
    [size >= 1] digits, the updated [c] plus the returned carry at
    position [size + 1] equals the original [c] plus
    [a[0] * (2 * value a - a[0])]: the square of [a[0]] and the doubled
    products of [a[0]] with the other digits of [a], that is the first
    row of the square (the square itself when [size = 1]).  The carry
    word of a column is committed together with the delayed carry of the
    column before it. *)
Theorem bn_sqra_low_row (w : Z) (c a : list Z) (size : nat) :
  w = 32 \/ w = 64 -> (1 <= size)%nat ->
  length a = size -> length c = S size ->
  Forall (is_dig w) a -> Forall (is_dig w) c ->
  let out := bn_sqra_low w c a size in
  length (fst out) = S size /\ Forall (is_dig w) (fst out) /\
  is_dig w (snd out) /\
  value w (fst out) + radix w ^ Z.of_nat (S size) * snd out
  = value w c + nth 0 a 0 * (2 * value w a - nth 0 a 0).
Proof.
  intros Hw Hs Hla Hlc Ha Hc.
  assert (Hw0 : 0 < w) by (destruct Hw; lia).
  assert (Hw1 : 1 < w) by (destruct Hw; lia).
  exact (bn_sqra_low_value w Hw0 c a size Hw1 Ha Hc Hla Hlc Hs).
Qed.

Lemma bn_sqra_low_row_witness :
  let out := bn_sqra_low 32 [7; 0; 0] [4294967295; 3] 2 in
  value 32 (fst out) + radix 32 ^ 3 * snd out
  = value 32 [7; 0; 0] + 4294967295 * (2 * value 32 [4294967295; 3]
                                        - 4294967295).
Proof.
  cbv zeta.
  destruct (bn_sqra_low_row 32 [7; 0; 0] [4294967295; 3] 2)
    as (_ & _ & _ & E).
  - left; reflexivity.
  - lia.
  - reflexivity.
  - reflexivity.
  - repeat constructor; vm_compute; discriminate.
  - repeat constructor; vm_compute; discriminate.
  - exact E.
Defined.

End BnClaims.

Module ArchClaims.
Import Arch ArchFacts.

(** C9, as stated, fails for 64-bit digits.  [arch_lzcnt] looks at the low
    32 bits of its argument only: for [x = 2^63] in a 64-bit word, which
    has no leading zero, it returns 64. *)
Lemma arch_lzcnt_wide_word :
  arch_lzcnt 64 (arch_init true {| lzcnt_ptr := None |}) (2 ^ 63) = Some 64 /\
  arch_lzcnt 64 (arch_init false {| lzcnt_ptr := None |}) (2 ^ 63) = Some 64 /\
  leading_zeros 64 (2 ^ 63) = 0.
Proof. vm_compute. repeat split. Qed.

(** C9, amended.  After [arch_init], for a digit width up to 64 and every
    word [x] of that width that fits in 32 bits (every word when the
    width is at most 32), [arch_lzcnt x] is the number of leading zero
    bits of [x] in a word of [WSIZE] bits: the count of the implementation
    bound at initialisation, hardware or software, on 32 bits, minus
    [32 - WSIZE]. *)
Theorem arch_lzcnt_leading_zeros (WSIZE : Z) (hard : bool) (c : ctx_t)
    (x : Z) :
  0 < WSIZE <= 64 -> 0 <= x < 2 ^ WSIZE -> x < 2 ^ 32 ->
  lzcnt_ptr (arch_init hard c)
  = Some (if hard then lzcnt32_hard else lzcnt32_soft) /\
  arch_lzcnt WSIZE (arch_init hard c) x = Some (leading_zeros WSIZE x).
Proof.
  intros HW Hx H32. split; [reflexivity |].
  apply arch_lzcnt_fits; assumption.
Qed.

Lemma arch_lzcnt_leading_zeros_witness :
  arch_lzcnt 32 (arch_init false {| lzcnt_ptr := None |}) 65536 = Some 15.
Proof.
  destruct (arch_lzcnt_leading_zeros 32 false {| lzcnt_ptr := None |} 65536)
    as [_ E]; [lia | lia | lia |].
  exact E.
Defined.

End ArchClaims.

(* ================================================================== *)
(** ** Further properties of the kernels                              *)
(* ================================================================== *)

Module BnExtras.
Import Dig BnSqr SqrSpec DigFacts SqrFacts.

(** X1.  [COMBA_STEP_SQR] adds twice the product of its two digits to the
    triple register: the three words stay in range, the value of the
    register grows by [2 * A * B] modulo [radix^3], and exactly by that
    amount when the sum fits in three words. *)
Theorem COMBA_STEP_SQR_accumulates (w : Z) (r : reg) (a b : Z) :
  0 < w -> reg_ok w r -> is_dig w a -> is_dig w b ->
  reg_ok w (COMBA_STEP_SQR w r a b) /\
  val3 w (COMBA_STEP_SQR w r a b) = (val3 w r + 2 * (a * b)) mod cube w /\
  (val3 w r + 2 * (a * b) < cube w ->
   val3 w (COMBA_STEP_SQR w r a b) = val3 w r + 2 * (a * b)).
Proof.
  intros Hw Hr Ha Hb.
  destruct (COMBA_STEP_SQR_spec w Hw r a b Hr Ha Hb) as [G E].
  split; [exact G |]. split; [exact E |].
  intros Hfit. rewrite E. apply Z.mod_small.
  pose proof (val3_bounds w Hw r Hr). unfold is_dig in *.
  assert (0 <= a * b) by (apply Z.mul_nonneg_nonneg; lia). lia.
Qed.

Lemma COMBA_STEP_SQR_accumulates_witness :
  let r := (0, 4294967295, 4294967295) in
  val3 32 (COMBA_STEP_SQR 32 r 4294967295 4294967295)
  = val3 32 r + 2 * (4294967295 * 4294967295).
Proof.
  cbv zeta.
  destruct (COMBA_STEP_SQR_accumulates 32 (0, 4294967295, 4294967295)
              4294967295 4294967295) as (_ & _ & E).
  - lia.
  - repeat split; vm_compute; first [reflexivity | discriminate].
  - split; vm_compute; first [reflexivity | discriminate].
  - split; vm_compute; first [reflexivity | discriminate].
  - apply E. vm_compute. reflexivity.
Defined.

(** X2.  [COMBA_FINAL] adds the square of its digit to the triple
    register: the three words stay in range, the value of the register
    grows by [A * A] modulo [radix^3], and exactly by that amount when the
    sum fits in three words. *)
Theorem COMBA_FINAL_accumulates (w : Z) (r : reg) (a : Z) :
  0 < w -> reg_ok w r -> is_dig w a ->
  reg_ok w (COMBA_FINAL w r a) /\
  val3 w (COMBA_FINAL w r a) = (val3 w r + a * a) mod cube w /\
  (val3 w r + a * a < cube w ->
   val3 w (COMBA_FINAL w r a) = val3 w r + a * a).
Proof.
  intros Hw Hr Ha.
  destruct (COMBA_FINAL_spec w Hw r a Hr Ha) as [G E].
  split; [exact G |]. split; [exact E |].
  intros Hfit. rewrite E. apply Z.mod_small.
  pose proof (val3_bounds w Hw r Hr). unfold is_dig in *.
  assert (0 <= a * a) by (apply Z.mul_nonneg_nonneg; lia). lia.
Qed.

Lemma COMBA_FINAL_accumulates_witness :
  let r := (1, 4294967295, 4294967295) in
  val3 32 (COMBA_FINAL 32 r 4294967295)
  = val3 32 r + 4294967295 * 4294967295.
Proof.
  cbv zeta.
  destruct (COMBA_FINAL_accumulates 32 (1, 4294967295, 4294967295)
              4294967295) as (_ & _ & E).
  - lia.
  - repeat split; vm_compute; first [reflexivity | discriminate].
  - split; vm_compute; first [reflexivity | discriminate].
  - apply E. vm_compute. reflexivity.
Defined.

(** X3.  [bn_sqrn_low] reads the digits [a[0..size-1]] only: two inputs
    that agree on them give the same output, whatever lies beyond. *)
Theorem bn_sqrn_low_reads_prefix (w : Z) (a a' : list Z) (size : nat) :
  (forall i, (i < size)%nat -> nth i a 0 = nth i a' 0) ->
  bn_sqrn_low w a size = bn_sqrn_low w a' size.
Proof. intros H. apply bn_sqrn_low_prefix. exact H. Qed.

Lemma bn_sqrn_low_reads_prefix_witness :
  bn_sqrn_low 32 [3; 4294967295; 77; 5] 2 = bn_sqrn_low 32 [3; 4294967295] 2.
Proof.
  apply (bn_sqrn_low_reads_prefix 32 [3; 4294967295; 77; 5]
           [3; 4294967295] 2).
  intros i Hi. destruct i as [| [| i]]; [reflexivity | reflexivity | lia].
Defined.

(** X4.  The carry returned by [bn_sqra_low] is 0, 1 or 2.  (The value 2
    is reached: with all digits at their maximum, the delayed carry of the
    last column and the carry of the final addition are both set.) *)
Theorem bn_sqra_low_carry_at_most_2 (w : Z) (c a : list Z) (size : nat) :
  1 < w -> (1 <= size)%nat ->
  length a = size -> length c = S size ->
  Forall (is_dig w) a -> Forall (is_dig w) c ->
  0 <= snd (bn_sqra_low w c a size) <= 2.
Proof.
  intros Hw1 Hs Hla Hlc Ha Hc.
  assert (Hw : 0 < w) by lia.
  exact (bn_sqra_low_carry w Hw c a size Hw1 Ha Hc Hla Hlc Hs).
Qed.

Lemma bn_sqra_low_carry_at_most_2_witness :
  let out := bn_sqra_low 32 [4294967295; 4294967295; 4294967295]
               [4294967295; 4294967295] 2 in
  snd out = 2 /\ 0 <= snd out <= 2.
Proof.
  cbv zeta. split; [vm_compute; reflexivity |].
  apply (bn_sqra_low_carry_at_most_2 32
           [4294967295; 4294967295; 4294967295]
           [4294967295; 4294967295] 2).
  - lia.
  - lia.
  - reflexivity.
  - reflexivity.
  - repeat constructor; vm_compute; discriminate.
  - repeat constructor; vm_compute; discriminate.
Defined.

(** X5.  [bn_sqra_low] writes [c[0..size]] only: the accumulator keeps
    its length and every digit above index [size] is as it was. *)
Theorem bn_sqra_low_writes_prefix (w : Z) (c a : list Z) (size j : nat) :
  (size < j)%nat ->
  length (fst (bn_sqra_low w c a size)) = length c /\
  nth j (fst (bn_sqra_low w c a size)) 0 = nth j c 0.
Proof.
  intros Hj. destruct (bn_sqra_low_frame w c a size) as [L F].
  split; [exact L | apply F; exact Hj].
Qed.

Lemma bn_sqra_low_writes_prefix_witness :
  let c := [4294967295; 4294967295; 4294967295; 41; 42] in
  let out := bn_sqra_low 32 c [4294967295; 4294967295] 2 in
  length (fst out) = 5%nat /\ nth 3 (fst out) 0 = 41.
Proof.
  cbv zeta.
  apply (bn_sqra_low_writes_prefix 32
           [4294967295; 4294967295; 4294967295; 41; 42]
           [4294967295; 4294967295] 2 3).
  lia.
Defined.

(** X6.  On one digit and a zero accumulator the two squaring kernels
    agree: [bn_sqra_low] writes the two digits that [bn_sqrn_low] writes
    and returns no carry. *)
Theorem bn_sqra_low_one_digit (w x : Z) :
  1 < w -> is_dig w x ->
  bn_sqra_low w [0; 0] [x] 1 = (bn_sqrn_low w [x] 1, 0).
Proof.
  intros Hw1 Hx. assert (Hw : 0 < w) by lia.
  exact (bn_sqra_low_single w Hw x Hw1 Hx).
Qed.

Lemma bn_sqra_low_one_digit_witness :
  bn_sqra_low 32 [0; 0] [4294967295] 1
  = (bn_sqrn_low 32 [4294967295] 1, 0).
Proof.
  apply (bn_sqra_low_one_digit 32 4294967295).
  - lia.
  - split; vm_compute; first [reflexivity | discriminate].
Defined.

(** X7.  For digits of any width (8 and 16 bits among them) and any
    [size] up to the radix [2^w], zero included, [bn_sqrn_low] writes
    [2 * size] digits in range whose value is exactly the square of [a]:
    within that bound the three-word register cannot overflow. *)
Theorem bn_sqrn_low_any_width (w : Z) (a : list Z) :
  0 < w -> Z.of_nat (length a) <= radix w -> Forall (is_dig w) a ->
  length (bn_sqrn_low w a (length a)) = (2 * length a)%nat /\
  Forall (is_dig w) (bn_sqrn_low w a (length a)) /\
  value w (bn_sqrn_low w a (length a)) = value w a * value w a.
Proof.
  intros Hw Hn Ha. exact (bn_sqrn_low_value w Hw a Ha Hn).
Qed.

Lemma bn_sqrn_low_any_width_witness :
  value 8 (bn_sqrn_low 8 [255; 255; 255] 3)
  = value 8 [255; 255; 255] * value 8 [255; 255; 255].
Proof.
  destruct (bn_sqrn_low_any_width 8 [255; 255; 255]) as (_ & _ & E).
  - lia.
  - vm_compute. discriminate.
  - repeat (constructor; [split; vm_compute;
                          first [reflexivity | discriminate] |]).
    constructor.
  - exact E.
Defined.

End BnExtras.

Module PpExtras.
Import Dig PpMul PpFacts Examples.

(** X8.  [fp2_muln_low], [fp2_mulc_low] and [fp3_muln_low] write the
    arrays [c] and [t0 .. t6] only: the operands [a] and [b], and any
    other array, are left as they were. *)
Theorem muln_low_operands_untouched (cfg : config) (s : state) (i : nat) :
  (mem (fp2_muln_low cfg s) (A i) = mem s (A i) /\
   mem (fp2_muln_low cfg s) (B i) = mem s (B i) /\
   mem (fp2_muln_low cfg s) (Out i) = mem s (Out i)) /\
  (mem (fp2_mulc_low cfg s) (A i) = mem s (A i) /\
   mem (fp2_mulc_low cfg s) (B i) = mem s (B i) /\
   mem (fp2_mulc_low cfg s) (Out i) = mem s (Out i)) /\
  (mem (fp3_muln_low cfg s) (A i) = mem s (A i) /\
   mem (fp3_muln_low cfg s) (B i) = mem s (B i) /\
   mem (fp3_muln_low cfg s) (Out i) = mem s (Out i)).
Proof.
  destruct (kernels_frame cfg s (A i)) as (A2 & Ac & A3);
    [reflexivity | reflexivity |].
  destruct (kernels_frame cfg s (B i)) as (B2 & Bc & B3);
    [reflexivity | reflexivity |].
  destruct (kernels_frame cfg s (Out i)) as (O2 & Oc & O3);
    [reflexivity | reflexivity |].
  repeat split; assumption.
Qed.

(** X9.  Karatsuba: in every build configuration [fp2_muln_low] and
    [fp2_mulc_low] call [fp_muln_low] three times and [fp3_muln_low] calls
    it six times. *)
Theorem karatsuba_multiplications (cfg : config) (s : state) :
  prim_calls Fp_muln (log (fp2_muln_low cfg s))
  = (prim_calls Fp_muln (log s) + 3)%nat /\
  prim_calls Fp_muln (log (fp2_mulc_low cfg s))
  = (prim_calls Fp_muln (log s) + 3)%nat /\
  prim_calls Fp_muln (log (fp3_muln_low cfg s))
  = (prim_calls Fp_muln (log s) + 6)%nat.
Proof.
  destruct (kernels_muln_calls cfg) as (K2 & Kc & K3).
  rewrite fp2_muln_low_log, fp2_mulc_low_log, fp3_muln_low_log.
  rewrite !prim_calls_app, K2, Kc, K3. repeat split.
Qed.

(** X10.  The limbs written by [fp2_mulc_low], as integers, when the prime
    leaves the headroom [4 * (-qnr) * p <= 2^(WSIZE * FP_DIGS)]: limb 0 is
    [a0 b0 + qnr a1 b1 + p * 2^(WSIZE * FP_DIGS - 2)], which is not
    negative, and limb 1 is [a0 b1 + a1 b0]. *)
Theorem fp2_mulc_low_limbs (cfg : config) (s : state) :
  2 <= WSIZE cfg -> 0 < FP_DIGS cfg -> 0 < fp_prime_get cfg ->
  fp_prime_get_qnr cfg < 0 ->
  (FP_QNRES cfg = true -> fp_prime_get_qnr cfg = -1) ->
  4 * (- fp_prime_get_qnr cfg * fp_prime_get cfg) <= pw cfg (FP_DIGS cfg) ->
  reduced cfg s (a_ 0) -> reduced cfg s (a_ 1) ->
  reduced cfg s (b_ 0) -> reduced cfg s (b_ 1) ->
  let a0 := fpv cfg s (a_ 0) in
  let a1 := fpv cfg s (a_ 1) in
  let b0 := fpv cfg s (b_ 0) in
  let b1 := fpv cfg s (b_ 1) in
  let s' := fp2_mulc_low cfg s in
  dvv cfg s' (c_ 0)
  = a0 * b0 + fp_prime_get_qnr cfg * (a1 * b1)
    + fp_prime_get cfg * 2 ^ (WSIZE cfg * FP_DIGS cfg - 2) /\
  0 <= dvv cfg s' (c_ 0) /\
  dvv cfg s' (c_ 1) = a0 * b1 + a1 * b0.
Proof.
  intros Hw2 Hn Hp0 Hq Hqn Hroom Ha0 Ha1 Hb0 Hb1.
  assert (Hw : 0 < WSIZE cfg) by lia.
  assert (Hk : 1 + Z.of_nat (fp2_extra_subs cfg) = - fp_prime_get_qnr cfg).
  { unfold fp2_extra_subs. destruct (FP_QNRES cfg).
    - rewrite Hqn by reflexivity. reflexivity.
    - lia. }
  assert (Hroom' : 4 * ((1 + Z.of_nat (fp2_extra_subs cfg))
                        * fp_prime_get cfg) <= pw cfg (FP_DIGS cfg))
    by (rewrite Hk; exact Hroom).
  destruct (fp2_mulc_low_exact cfg Hw Hn s Hw2 Hp0 Hroom'
              Ha0 Ha1 Hb0 Hb1) as [E0 E1].
  rewrite (quarter_pow cfg Hw Hn Hw2), Hk in E0.
  unfold reduced, fpv, dvv, a_, b_ in *. cbv zeta.
  split; [rewrite E0; ring |].
  split; [apply rd_bounds; lia | exact E1].
Qed.

Lemma fp2_mulc_low_limbs_witness :
  let cfg := cfg13 true false in
  let s' := fp2_mulc_low cfg (initial (arrays 3 5 0 4 2 0)) in
  dvv cfg s' (c_ 0) = 3 * 4 + -2 * (5 * 2) + 13 * 2 ^ 30 /\
  0 <= dvv cfg s' (c_ 0) /\
  dvv cfg s' (c_ 1) = 3 * 2 + 5 * 4.
Proof.
  apply (fp2_mulc_low_limbs (cfg13 true false)
           (initial (arrays 3 5 0 4 2 0)));
    try (vm_compute; reflexivity); vm_compute; discriminate.
Defined.

(** X11.  Both limbs written by [fp2_muln_low] for reduced operands are
    below [p * 2^(WSIZE * FP_DIGS)]: the upper half of each double-width
    limb is below the prime. *)
Theorem fp2_muln_low_limbs_in_range (cfg : config) (s : state) :
  0 < WSIZE cfg -> 0 < FP_DIGS cfg ->
  0 < fp_prime_get cfg < pw cfg (FP_DIGS cfg) ->
  (FP_SPACE cfg = true -> 2 * fp_prime_get cfg <= pw cfg (FP_DIGS cfg)) ->
  reduced cfg s (a_ 0) -> reduced cfg s (a_ 1) ->
  reduced cfg s (b_ 0) -> reduced cfg s (b_ 1) ->
  let s' := fp2_muln_low cfg s in
  0 <= dvv cfg s' (c_ 0) < fp_prime_get cfg * pw cfg (FP_DIGS cfg) /\
  0 <= dvv cfg s' (c_ 1) < fp_prime_get cfg * pw cfg (FP_DIGS cfg).
Proof.
  intros Hw Hn Hp Hspace Ha0 Ha1 Hb0 Hb1.
  exact (fp2_muln_low_range cfg Hw Hn s Hp Hspace Ha0 Ha1 Hb0 Hb1).
Qed.

Lemma fp2_muln_low_limbs_in_range_witness :
  let cfg := cfg256 in
  let q := p256 - 1 in
  let s' := fp2_muln_low cfg (initial (arrays q q 0 q q 0)) in
  0 <= dvv cfg s' (c_ 0) < fp_prime_get cfg * pw cfg (FP_DIGS cfg) /\
  0 <= dvv cfg s' (c_ 1) < fp_prime_get cfg * pw cfg (FP_DIGS cfg).
Proof.
  apply (fp2_muln_low_limbs_in_range cfg256
           (initial (arrays (p256 - 1) (p256 - 1) 0 (p256 - 1) (p256 - 1) 0)));
    try (vm_compute; reflexivity); try (vm_compute; split; reflexivity).
  intros H. discriminate H.
Defined.

(** X12.  When the prime leaves one spare bit in its [FP_DIGS] digits, the
    three limbs written by [fp3_muln_low] for reduced operands are below
    [p * 2^(WSIZE * FP_DIGS)]. *)
Theorem fp3_muln_low_limbs_in_range (cfg : config) (s : state) :
  0 < WSIZE cfg -> 0 < FP_DIGS cfg -> 0 < fp_prime_get cfg ->
  2 * fp_prime_get cfg <= pw cfg (FP_DIGS cfg) ->
  reduced cfg s (a_ 0) -> reduced cfg s (a_ 1) -> reduced cfg s (a_ 2) ->
  reduced cfg s (b_ 0) -> reduced cfg s (b_ 1) -> reduced cfg s (b_ 2) ->
  let s' := fp3_muln_low cfg s in
  0 <= dvv cfg s' (c_ 0) < fp_prime_get cfg * pw cfg (FP_DIGS cfg) /\
  0 <= dvv cfg s' (c_ 1) < fp_prime_get cfg * pw cfg (FP_DIGS cfg) /\
  0 <= dvv cfg s' (c_ 2) < fp_prime_get cfg * pw cfg (FP_DIGS cfg).
Proof.
  intros Hw Hn Hp Hroom Ha0 Ha1 Ha2 Hb0 Hb1 Hb2.
  exact (fp3_muln_low_range cfg Hw Hn s Hp Hroom
           Ha0 Ha1 Ha2 Hb0 Hb1 Hb2).
Qed.

Lemma fp3_muln_low_limbs_in_range_witness :
  let cfg := cfg13 false false in
  let s' := fp3_muln_low cfg (initial (arrays 12 12 12 12 12 12)) in
  0 <= dvv cfg s' (c_ 0) < 13 * 2 ^ 32 /\
  0 <= dvv cfg s' (c_ 1) < 13 * 2 ^ 32 /\
  0 <= dvv cfg s' (c_ 2) < 13 * 2 ^ 32.
Proof.
  apply (fp3_muln_low_limbs_in_range (cfg13 false false)
           (initial (arrays 12 12 12 12 12 12)));
    try (vm_compute; reflexivity); vm_compute; discriminate.
Defined.

(** X13.  Built with [FP_SPACE] (and a prime that leaves the spare bit),
    [fp2_muln_low] writes into limb 1 the cross term [a0 b1 + a1 b0]
    itself, as an integer: its sums and its last subtraction are exact. *)
Theorem fp2_muln_low_space_cross_term (cfg : config) (s : state) :
  0 < WSIZE cfg -> 0 < FP_DIGS cfg -> FP_SPACE cfg = true ->
  0 < fp_prime_get cfg ->
  2 * fp_prime_get cfg <= pw cfg (FP_DIGS cfg) ->
  reduced cfg s (a_ 0) -> reduced cfg s (a_ 1) ->
  reduced cfg s (b_ 0) -> reduced cfg s (b_ 1) ->
  dvv cfg (fp2_muln_low cfg s) (c_ 1)
  = fpv cfg s (a_ 0) * fpv cfg s (b_ 1) + fpv cfg s (a_ 1) * fpv cfg s (b_ 0).
Proof.
  intros Hw Hn ES Hp Hroom Ha0 Ha1 Hb0 Hb1.
  exact (fp2_muln_low_space_exact cfg Hw Hn s ES Hp Hroom
           Ha0 Ha1 Hb0 Hb1).
Qed.

Lemma fp2_muln_low_space_cross_term_witness :
  let cfg := cfg13 true false in
  dvv cfg (fp2_muln_low cfg (initial (arrays 12 12 0 12 12 0))) (c_ 1)
  = 12 * 12 + 12 * 12.
Proof.
  apply (fp2_muln_low_space_cross_term (cfg13 true false)
           (initial (arrays 12 12 0 12 12 0)));
    try (vm_compute; reflexivity); vm_compute; discriminate.
Defined.

(** X14.  When the allocator supplies the scoped buffer and the reduction
    completes, [fp2_mulm_low] returns normally, has released the buffer,
    and its output holds the product of the two reduced operands, fully
    reduced: [(a0 b0 + qnr a1 b1) mod p] and [(a0 b1 + a1 b0) mod p]. *)
Theorem fp2_mulm_low_product (cfg : config) (s : mstate) :
  0 < WSIZE cfg -> 0 < FP_DIGS cfg ->
  0 < fp_prime_get cfg < pw cfg (FP_DIGS cfg) ->
  fp_prime_get_qnr cfg < 0 ->
  (FP_SPACE cfg = true -> 2 * fp_prime_get cfg <= pw cfg (FP_DIGS cfg)) ->
  (FP_QNRES cfg = true -> fp_prime_get_qnr cfg = -1) ->
  reduced cfg (st s) (a_ 0) -> reduced cfg (st s) (a_ 1) ->
  reduced cfg (st s) (b_ 0) -> reduced cfg (st s) (b_ 1) ->
  (2 <= avail s)%nat -> rdc_ok s = true ->
  let a0 := fpv cfg (st s) (a_ 0) in
  let a1 := fpv cfg (st s) (a_ 1) in
  let b0 := fpv cfg (st s) (b_ 0) in
  let b1 := fpv cfg (st s) (b_ 1) in
  let out := fp2_mulm_low cfg s in
  fst out = Done /\
  live (snd out) = live s /\ avail (snd out) = avail s /\
  fpv cfg (st (snd out)) (out_ 0)
  = (a0 * b0 + fp_prime_get_qnr cfg * (a1 * b1)) mod fp_prime_get cfg /\
  fpv cfg (st (snd out)) (out_ 1)
  = (a0 * b1 + a1 * b0) mod fp_prime_get cfg.
Proof.
  intros Hw Hn Hp Hq Hspace Hqn Ha0 Ha1 Hb0 Hb1 Hav Hok.
  destruct (fp2_mulm_low_paths cfg s) as (L & V & _ & _ & S).
  destruct (S Hav Hok) as [Hd Hs].
  destruct (fp2_muln_low_value cfg Hw Hn (st s) Hp Hspace Ha0 Ha1 Hb0 Hb1)
    as [E0 E1].
  assert (Hk : 1 + Z.of_nat (fp2_extra_subs cfg) = - fp_prime_get_qnr cfg).
  { unfold fp2_extra_subs. destruct (FP_QNRES cfg).
    - rewrite Hqn by reflexivity. reflexivity.
    - lia. }
  rewrite Hk in E0. unfold eqm in E0, E1.
  assert (Hm : forall x, 0 <= x mod fp_prime_get cfg
                         < pw cfg (FP_DIGS cfg)).
  { intros x.
    pose proof (Z.mod_pos_bound x (fp_prime_get cfg) ltac:(lia)). lia. }
  unfold reduced, fpv, a_, b_ in *. cbv zeta.
  split; [exact Hd |]. split; [exact L |]. split; [exact V |].
  rewrite Hs, !(fp2_rdcn_low_out cfg Hw Hn) by lia. unfold rdcn.
  rewrite !(Z.mod_small (_ mod fp_prime_get cfg)) by apply Hm.
  split.
  - rewrite E0. f_equal. ring.
  - exact E1.
Qed.

Lemma fp2_mulm_low_product_witness :
  let cfg := cfg13 false false in
  let out := fp2_mulm_low cfg (caller (arrays 3 5 0 4 2 0) 2 true) in
  fst out = Done /\
  fpv cfg (st (snd out)) (out_ 0) = 5 /\
  fpv cfg (st (snd out)) (out_ 1) = 0.
Proof.
  cbv zeta.
  destruct (fp2_mulm_low_product (cfg13 false false)
              (caller (arrays 3 5 0 4 2 0) 2 true))
    as (D & _ & _ & E0 & E1).
  - vm_compute. reflexivity.
  - vm_compute. reflexivity.
  - vm_compute. split; reflexivity.
  - vm_compute. reflexivity.
  - intros H. discriminate H.
  - intros H. discriminate H.
  - vm_compute. reflexivity.
  - vm_compute. reflexivity.
  - vm_compute. reflexivity.
  - vm_compute. reflexivity.
  - cbn [avail caller]. lia.
  - reflexivity.
  - split; [exact D |]. split; [rewrite E0 | rewrite E1]; reflexivity.
Defined.

(** X15.  When the prime leaves one spare bit, the allocator supplies the
    scoped buffer and the reduction completes, [fp3_mulm_low] returns
    normally, has released the buffer, and its output holds the product
    of the two reduced operands over the cubic extension, fully
    reduced. *)
Theorem fp3_mulm_low_product (cfg : config) (s : mstate) :
  0 < WSIZE cfg -> 0 < FP_DIGS cfg -> 0 < fp_prime_get cfg ->
  2 * fp_prime_get cfg <= pw cfg (FP_DIGS cfg) ->
  fp_prime_get_cnr cfg < 0 ->
  reduced cfg (st s) (a_ 0) -> reduced cfg (st s) (a_ 1) ->
  reduced cfg (st s) (a_ 2) ->
  reduced cfg (st s) (b_ 0) -> reduced cfg (st s) (b_ 1) ->
  reduced cfg (st s) (b_ 2) ->
  (3 <= avail s)%nat -> rdc_ok s = true ->
  let a0 := fpv cfg (st s) (a_ 0) in
  let a1 := fpv cfg (st s) (a_ 1) in
  let a2 := fpv cfg (st s) (a_ 2) in
  let b0 := fpv cfg (st s) (b_ 0) in
  let b1 := fpv cfg (st s) (b_ 1) in
  let b2 := fpv cfg (st s) (b_ 2) in
  let out := fp3_mulm_low cfg s in
  fst out = Done /\
  live (snd out) = live s /\ avail (snd out) = avail s /\
  fpv cfg (st (snd out)) (out_ 0)
  = (a0 * b0 + fp_prime_get_cnr cfg * (a1 * b2 + a2 * b1))
    mod fp_prime_get cfg /\
  fpv cfg (st (snd out)) (out_ 1)
  = (a0 * b1 + a1 * b0 + fp_prime_get_cnr cfg * (a2 * b2))
    mod fp_prime_get cfg /\
  fpv cfg (st (snd out)) (out_ 2)
  = (a0 * b2 + a2 * b0 + a1 * b1) mod fp_prime_get cfg.
Proof.
  intros Hw Hn Hp Hroom Hc Ha0 Ha1 Ha2 Hb0 Hb1 Hb2 Hav Hok.
  destruct (fp3_mulm_low_paths cfg s) as (L & V & _ & _ & S).
  destruct (S Hav Hok) as [Hd Hs].
  destruct (fp3_muln_low_value cfg Hw Hn (st s) Hp Hroom Hc
              Ha0 Ha1 Ha2 Hb0 Hb1 Hb2) as (E0 & E1 & E2).
  unfold eqm in E0, E1, E2.
  assert (Hm : forall x, 0 <= x mod fp_prime_get cfg
                         < pw cfg (FP_DIGS cfg)).
  { intros x.
    pose proof (Z.mod_pos_bound x (fp_prime_get cfg) ltac:(lia)). lia. }
  unfold reduced, fpv, a_, b_ in *. cbv zeta.
  split; [exact Hd |]. split; [exact L |]. split; [exact V |].
  rewrite Hs, !(fp3_rdcn_low_out cfg Hw Hn) by lia. unfold rdcn.
  rewrite !(Z.mod_small (_ mod fp_prime_get cfg)) by apply Hm.
  split; [exact E0 |]. split; [exact E1 | exact E2].
Qed.

Lemma fp3_mulm_low_product_witness :
  let cfg := cfg13 false false in
  let out := fp3_mulm_low cfg (caller (arrays 3 5 7 4 2 9) 3 true) in
  fst out = Done /\
  fpv cfg (st (snd out)) (out_ 0) = (3 * 4 + -2 * (5 * 9 + 7 * 2)) mod 13 /\
  fpv cfg (st (snd out)) (out_ 1) = (3 * 2 + 5 * 4 + -2 * (7 * 9)) mod 13 /\
  fpv cfg (st (snd out)) (out_ 2) = (3 * 9 + 7 * 4 + 5 * 2) mod 13.
Proof.
  cbv zeta.
  destruct (fp3_mulm_low_product (cfg13 false false)
              (caller (arrays 3 5 7 4 2 9) 3 true))
    as (D & _ & _ & E0 & E1 & E2).
  - vm_compute. reflexivity.
  - vm_compute. reflexivity.
  - vm_compute. reflexivity.
  - vm_compute. discriminate.
  - vm_compute. reflexivity.
  - vm_compute. reflexivity.
  - vm_compute. reflexivity.
  - vm_compute. reflexivity.
  - vm_compute. reflexivity.
  - vm_compute. reflexivity.
  - vm_compute. reflexivity.
  - cbn [avail caller]. lia.
  - reflexivity.
  - split; [exact D |]. split; [exact E0 |]. split; [exact E1 | exact E2].
Defined.

(** X16.  [fp2_mulm_low] and [fp3_mulm_low] return normally exactly when
    the allocator supplies every limb of the scoped buffer and the
    reduction completes.  Every other call ends in [ERR_CAUGHT], whatever
    was thrown inside: the handler replaces the error of the acquisition
    or of the reduction by that one. *)
Theorem mulm_low_faults (cfg : config) (s : mstate) :
  (let out := fp2_mulm_low cfg s in
   (fst out = Done <-> (2 <= avail s)%nat /\ rdc_ok s = true) /\
   (fst out <> Done -> fst out = Thrown ERR_CAUGHT)) /\
  (let out := fp3_mulm_low cfg s in
   (fst out = Done <-> (3 <= avail s)%nat /\ rdc_ok s = true) /\
   (fst out <> Done -> fst out = Thrown ERR_CAUGHT)).
Proof.
  split; cbv zeta.
  - rewrite (fp2_mulm_low_outcome cfg s).
    destruct (Nat.leb_spec 2 (avail s)) as [Ha | Ha];
      destruct (rdc_ok s); cbn [andb].
    + split.
      * split; [intros _; split; [exact Ha | reflexivity] | reflexivity].
      * intros Hne. exfalso. apply Hne. reflexivity.
    + split.
      * split; [intros H; discriminate H | intros [_ H]; discriminate H].
      * reflexivity.
    + split.
      * split; [intros H; discriminate H | intros [H _]; lia].
      * reflexivity.
    + split.
      * split; [intros H; discriminate H | intros [H _]; lia].
      * reflexivity.
  - rewrite (fp3_mulm_low_outcome cfg s).
    destruct (Nat.leb_spec 3 (avail s)) as [Ha | Ha];
      destruct (rdc_ok s); cbn [andb].
    + split.
      * split; [intros _; split; [exact Ha | reflexivity] | reflexivity].
      * intros Hne. exfalso. apply Hne. reflexivity.
    + split.
      * split; [intros H; discriminate H | intros [_ H]; discriminate H].
      * reflexivity.
    + split.
      * split; [intros H; discriminate H | intros [H _]; lia].
      * reflexivity.
    + split.
      * split; [intros H; discriminate H | intros [H _]; lia].
      * reflexivity.
Qed.

(** A fault of the reduction, the allocator having supplied the buffer. *)
Lemma mulm_low_faults_witness :
  let cfg := cfg13 false false in
  let s := caller (arrays 3 5 7 4 2 9) 3 false in
  fst (fp2_mulm_low cfg s) = Thrown ERR_CAUGHT /\
  fst (fp3_mulm_low cfg s) = Thrown ERR_CAUGHT.
Proof.
  cbv zeta.
  destruct (mulm_low_faults (cfg13 false false)
              (caller (arrays 3 5 7 4 2 9) 3 false))
    as [[_ F2] [_ F3]].
  split; [apply F2 | apply F3]; vm_compute; discriminate.
Defined.

(** X17.  A quadratic non-residue index of [-1] or above (zero and the
    positive values among them) gives no turn of the loop:
    [fp2_muln_low] and [fp2_mulc_low] then do what they do for
    [qnr = -1]. *)
Theorem fp2_qnr_at_least_minus_one (cfg : config) (s : state) :
  -1 <= fp_prime_get_qnr cfg ->
  fp2_muln_low cfg s = fp2_muln_low (with_qnr cfg (-1) (FP_QNRES cfg)) s /\
  fp2_mulc_low cfg s = fp2_mulc_low (with_qnr cfg (-1) (FP_QNRES cfg)) s.
Proof. intros Hq. exact (fp2_qnr_floor cfg s Hq). Qed.

Lemma fp2_qnr_at_least_minus_one_witness :
  let cfg := with_qnr (cfg13 false false) 2 false in
  let s := initial (arrays 3 5 0 4 2 0) in
  fp2_muln_low cfg s = fp2_muln_low (with_qnr cfg (-1) false) s /\
  fp2_mulc_low cfg s = fp2_mulc_low (with_qnr cfg (-1) false) s.
Proof.
  apply (fp2_qnr_at_least_minus_one (with_qnr (cfg13 false false) 2 false)
           (initial (arrays 3 5 0 4 2 0))).
  vm_compute. discriminate.
Defined.

(** X18.  The limbs written by [fp2_muln_low], [fp2_mulc_low] and
    [fp3_muln_low] depend on the operands [a] and [b] only: whatever the
    arrays [c] and [t0 .. t6] hold before the call, the result is the
    same, so no digit of [c] or of a temporary is read before it is
    written. *)
Theorem muln_low_result_from_operands (cfg : config) (s1 s2 : state) :
  2 <= WSIZE cfg -> 0 < FP_DIGS cfg ->
  0 <= fp_prime_get cfg < pw cfg (FP_DIGS cfg) ->
  (forall i, mem s1 (A i) = mem s2 (A i)) ->
  (forall i, mem s1 (B i) = mem s2 (B i)) ->
  (forall i, (i < 2)%nat ->
     dvv cfg (fp2_muln_low cfg s1) (c_ i)
     = dvv cfg (fp2_muln_low cfg s2) (c_ i)) /\
  (forall i, (i < 2)%nat ->
     dvv cfg (fp2_mulc_low cfg s1) (c_ i)
     = dvv cfg (fp2_mulc_low cfg s2) (c_ i)) /\
  (forall i, (i < 3)%nat ->
     dvv cfg (fp3_muln_low cfg s1) (c_ i)
     = dvv cfg (fp3_muln_low cfg s2) (c_ i)).
Proof.
  intros Hw2 Hn Hp HA HB. assert (Hw : 0 < WSIZE cfg) by lia.
  destruct (kernels_read_operands_only cfg Hw Hn s1 s2 HA HB) as [K2 K3].
  split; [exact K2 |]. split; [| exact K3].
  exact (mulc_reads_operands_only cfg Hw Hn s1 s2 Hw2 Hp HA HB).
Qed.

Lemma muln_low_result_from_operands_witness :
  let cfg := cfg13 false false in
  let s1 := initial (arrays 3 5 7 4 2 9) in
  let s2 := initial (upd (upd (arrays 3 5 7 4 2 9) (C 0) 123456789)
                       (T 0) 5) in
  dvv cfg (fp2_muln_low cfg s1) (c_ 0)
  = dvv cfg (fp2_muln_low cfg s2) (c_ 0) /\
  dvv cfg (fp2_mulc_low cfg s1) (c_ 0)
  = dvv cfg (fp2_mulc_low cfg s2) (c_ 0) /\
  dvv cfg (fp3_muln_low cfg s1) (c_ 2)
  = dvv cfg (fp3_muln_low cfg s2) (c_ 2).
Proof.
  cbv zeta.
  destruct (muln_low_result_from_operands (cfg13 false false)
              (initial (arrays 3 5 7 4 2 9))
              (initial (upd (upd (arrays 3 5 7 4 2 9) (C 0) 123456789)
                          (T 0) 5)))
    as (K2 & Kc & K3).
  - vm_compute. discriminate.
  - vm_compute. reflexivity.
  - vm_compute. split; [discriminate | reflexivity].
  - intros i. reflexivity.
  - intros i. reflexivity.
  - split; [apply K2; lia |]. split; [apply Kc; lia | apply K3; lia].
Defined.

(** X20.  When the prime leaves one spare bit in its [FP_DIGS] digits
    ([2 p <= 2^(WSIZE * FP_DIGS)]), the double-width triple written by
    [fp3_muln_low] for reduced inputs represents the schoolbook product
    over the cubic extension: the non-residue is folded into limbs 0 and
    1, and limb 2 is the (0,2) cross term plus [a1 b1], without the
    non-residue. *)
Theorem fp3_muln_low_schoolbook (cfg : config) (s : state) :
  0 < WSIZE cfg -> 0 < FP_DIGS cfg -> 0 < fp_prime_get cfg ->
  2 * fp_prime_get cfg <= pw cfg (FP_DIGS cfg) ->
  fp_prime_get_cnr cfg < 0 ->
  reduced cfg s (a_ 0) -> reduced cfg s (a_ 1) -> reduced cfg s (a_ 2) ->
  reduced cfg s (b_ 0) -> reduced cfg s (b_ 1) -> reduced cfg s (b_ 2) ->
  let a0 := fpv cfg s (a_ 0) in
  let a1 := fpv cfg s (a_ 1) in
  let a2 := fpv cfg s (a_ 2) in
  let b0 := fpv cfg s (b_ 0) in
  let b1 := fpv cfg s (b_ 1) in
  let b2 := fpv cfg s (b_ 2) in
  let s' := fp3_muln_low cfg s in
  eqm (fp_prime_get cfg) (dvv cfg s' (c_ 0))
      (a0 * b0 + fp_prime_get_cnr cfg * (a1 * b2 + a2 * b1)) /\
  eqm (fp_prime_get cfg) (dvv cfg s' (c_ 1))
      (a0 * b1 + a1 * b0 + fp_prime_get_cnr cfg * (a2 * b2)) /\
  eqm (fp_prime_get cfg) (dvv cfg s' (c_ 2))
      (a0 * b2 + a2 * b0 + a1 * b1).
Proof.
  intros Hw Hn Hp Hroom Hc Ha0 Ha1 Ha2 Hb0 Hb1 Hb2.
  exact (fp3_muln_low_value cfg Hw Hn s Hp Hroom Hc
           Ha0 Ha1 Ha2 Hb0 Hb1 Hb2).
Qed.

Lemma fp3_muln_low_schoolbook_witness :
  let cfg := cfg13 false false in
  let s' := fp3_muln_low cfg (initial (arrays 3 5 7 4 2 9)) in
  eqm 13 (dvv cfg s' (c_ 0)) (3 * 4 + -2 * (5 * 9 + 7 * 2)) /\
  eqm 13 (dvv cfg s' (c_ 1)) (3 * 2 + 5 * 4 + -2 * (7 * 9)) /\
  eqm 13 (dvv cfg s' (c_ 2)) (3 * 9 + 7 * 4 + 5 * 2).
Proof.
  apply (fp3_muln_low_schoolbook (cfg13 false false)
           (initial (arrays 3 5 7 4 2 9)));
    try (vm_compute; reflexivity); vm_compute; discriminate.
Defined.

End PpExtras.

Module ArchExtras.
Import Arch ArchFacts.

(** X19.  For a digit of 32 to 64 bits and any word [x], [arch_lzcnt x]
    after [arch_init] is the number of leading zeros of the low 32 bits of
    [x] plus [WSIZE - 32]: the bits of [x] above bit 31 do not change the
    result, which is never below [WSIZE - 32]. *)
Theorem arch_lzcnt_low_32_bits (WSIZE : Z) (hard : bool) (c : ctx_t)
    (x : Z) :
  32 <= WSIZE <= 64 ->
  arch_lzcnt WSIZE (arch_init hard c) x
  = Some (leading_zeros 32 (x mod 2 ^ 32) + (WSIZE - 32)) /\
  arch_lzcnt WSIZE (arch_init hard c) x
  = arch_lzcnt WSIZE (arch_init hard c) (x mod 2 ^ 32) /\
  0 <= leading_zeros 32 (x mod 2 ^ 32) <= 32.
Proof.
  intros HW.
  rewrite !(arch_lzcnt_low_half WSIZE hard c) by exact HW.
  rewrite Z.mod_mod by lia.
  split; [reflexivity |]. split; [reflexivity |].
  apply leading_zeros_bounds; [apply Z.mod_pos_bound; lia | lia].
Qed.

Lemma arch_lzcnt_low_32_bits_witness :
  arch_lzcnt 64 (arch_init true {| lzcnt_ptr := None |}) (2 ^ 63 + 65536)
  = Some 47.
Proof.
  destruct (arch_lzcnt_low_32_bits 64 true {| lzcnt_ptr := None |}
              (2 ^ 63 + 65536)) as [E _]; [lia |].
  exact E.
Defined.

End ArchExtras.
